(** * Blocker puzzle: the intro renderer's piece physics and reassembly logic

    A shallow embedding of the piece-manipulation core of
    [posts/blocker/js/blocker.js] (class [IntroRenderer] and the parts of
    [SolutionRenderer] / [CubeRenderer] / [OrbitCamera] it relies on).

    Modelling conventions:
    - a JavaScript number is a real number ([R]): arithmetic is exact, there
      is no rounding, no NaN and no infinity.  [Math.hypot] is the square
      root of the sum of squares, [Math.exp] is [exp], [Math.ceil] is
      [Zceil], [Math.round] is [Zfloor (x + 1/2)].  Where the source starts
      an accumulator at [Infinity] / [-Infinity] the model uses an extended
      number ([xnum]);
    - a three-element array [[x, y, z]] is a [vec3];
    - integers used as indices ([pieceIndex], [draggingPiece]) are [Z], so
      that [-1] is available; an array read out of range is [None];
    - methods that mutate [this] return the new renderer; a method that can
      raise a [TypeError] (reading a component of [undefined]) lives in the
      [option] monad, [None] standing for the uncaught exception;
    - object identity of the press-state object captured by the hold timer
      is an address ([ps_addr]) drawn from an allocation counter. *)

From Stdlib Require Import Reals Lra Lia Psatz List ZArith Bool.
From Stdlib Require Import Permutation Sorted.
Import ListNotations.

Open Scope R_scope.

(* ================================================================= *)
(** ** Numbers and comparisons *)

Definition Rltb (x y : R) : bool := if Rlt_dec x y then true else false.
Definition Rleb (x y : R) : bool := if Rle_dec x y then true else false.
Definition Rgtb (x y : R) : bool := Rltb y x.
Definition Rgeb (x y : R) : bool := Rleb y x.

(** [Math.hypot(x, y, z)]. *)
Definition hypot3 (x y z : R) : R := sqrt (x * x + y * y + z * z).

(** [Math.hypot(x, y)]. *)
Definition hypot2 (x y : R) : R := sqrt (x * x + y * y).

(** Three-element numeric arrays. *)
Record vec3 : Set := mk3 { c0 : R; c1 : R; c2 : R }.

Definition ZERO_OFFSET : vec3 := mk3 0 0 0.

(** The [option] monad, for methods that can throw. *)
Definition bind {A B} (m : option A) (k : A -> option B) : option B :=
  match m with Some a => k a | None => None end.

Notation "x <- m ;; k" := (bind m (fun x => k))
  (at level 61, m at next level, right associativity).

Notation "' pat <- m ;; k" := (bind m (fun x => let 'pat := x in k))
  (at level 61, pat pattern, m at next level, right associativity).

(** Array read [arr[i]]: [None] is [undefined]. *)
Definition aget {A} (arr : list A) (i : Z) : option A :=
  if (i <? 0)%Z then None else nth_error arr (Z.to_nat i).

(** In-place write of an existing slot [arr[i] = v] (never used to extend). *)
Fixpoint nset {A} (arr : list A) (i : nat) (v : A) : list A :=
  match arr, i with
  | [], _ => []
  | _ :: t, O => v :: t
  | h :: t, S j => h :: nset t j v
  end.

(* ================================================================= *)
(** ** Static data *)

Definition Cell : Set := (Z * Z * Z)%type.

(** The seven puzzle pieces. *)
Definition PIECES : list (list Cell) :=
  [ [(0,0,0); (1,0,0); (2,0,0); (0,1,0)];
    [(0,0,0); (1,0,0); (2,0,0); (1,1,0)];
    [(0,0,0); (1,0,0); (1,1,0); (2,1,0)];
    [(0,0,0); (1,0,0); (0,1,0)];
    [(0,0,0); (1,0,0); (0,1,0); (1,0,1)];
    [(0,0,0); (1,0,0); (0,1,0); (0,0,1)];
    [(0,0,0); (1,0,0); (0,1,0); (0,1,1)] ]%Z.

(** One entry of [SOLUTIONS]: an ordered list of [pieceIndex, cubes]. *)
Definition Solution : Set := list (Z * list Cell).

(* ================================================================= *)
(** ** Renderer state *)

(** The values the [IntroRenderer] constructor fixes from its options. *)
Record Settings : Set := {
  holdMoveThresholdPx : R;
  _bboxExcessThreshold : R;
  _bboxSolvedThreshold : R;
  _reassemblePieceDuration : R;
  _reassembleStagger : R;
  _movingFrameThreshold : R;
  _settleDelaySec : R;
  _reassembleMinVisibleSec : R;
  _reassembleHideDelaySec : R;
  _reassembleHideExcessThreshold : R;
  _reassembleExplodeShowThreshold : R;
  _reassembleExplodeHideThreshold : R;
  _springStrength : R;
  _linearDamping : R;
  _gravityStrength : R;
  _collisionImpulse : R;
  _collisionVelocityScale : R;
  _collisionPush : R;
  _pairRestitution : R;
  _touchEpsilon : R;
  _cubeSize : R
}.

(** What [_getRenderPieces] pushes for one piece (the [color] entry, used
    only for drawing, is left out). *)
Record RenderPiece : Set := {
  pieceIndex : Z;
  center : vec3;
  cubes : list vec3
}.

(* ================================================================= *)
(** ** Piece contact solver *)

Record CubeContact : Set := {
  cc_normal : vec3;
  cc_penetration : R
}.

Record PieceContact : Set := {
  normal : vec3;
  penetration : R;
  contacts : nat
}.

Section ContactSolver.

Variable this : Settings.

Definition _getCubeContact (cubeA cubeB : vec3) : option CubeContact :=
  let dx := c0 cubeB - c0 cubeA in
  let dy := c1 cubeB - c1 cubeA in
  let dz := c2 cubeB - c2 cubeA in
  let overlapX := _cubeSize this - Rabs dx in
  let overlapY := _cubeSize this - Rabs dy in
  let overlapZ := _cubeSize this - Rabs dz in
  let eps := _touchEpsilon this in
  if Rltb overlapX (- eps) || Rltb overlapY (- eps) || Rltb overlapZ (- eps)
  then None
  else
    let '(axis, minOverlap) := (0%nat, overlapX) in
    let '(axis, minOverlap) :=
      if Rltb overlapY minOverlap then (1%nat, overlapY)
      else (axis, minOverlap) in
    let '(axis, minOverlap) :=
      if Rltb overlapZ minOverlap then (2%nat, overlapZ)
      else (axis, minOverlap) in
    let nrm :=
      match axis with
      | 0%nat => mk3 (if Rgeb dx 0 then 1 else -1) 0 0
      | 1%nat => mk3 0 (if Rgeb dy 0 then 1 else -1) 0
      | _ => mk3 0 0 (if Rgeb dz 0 then 1 else -1)
      end in
    Some {| cc_normal := nrm; cc_penetration := Rmax 0 minOverlap |}.

(** The five accumulators of [_getPieceContact]. *)
Record ContactAcc : Set := {
  normalX : R;
  normalY : R;
  normalZ : R;
  maxPenetration : R;
  contactCount : nat
}.

Definition contactAcc0 : ContactAcc :=
  {| normalX := 0; normalY := 0; normalZ := 0;
     maxPenetration := 0; contactCount := 0 |}.

(** Body of the inner loop. *)
Definition contactStep (cubeA : vec3) (acc : ContactAcc) (cubeB : vec3)
  : ContactAcc :=
  match _getCubeContact cubeA cubeB with
  | None => acc
  | Some contact =>
      let weight := Rmax 0.005 (cc_penetration contact + _touchEpsilon this) in
      {| normalX := normalX acc + c0 (cc_normal contact) * weight;
         normalY := normalY acc + c1 (cc_normal contact) * weight;
         normalZ := normalZ acc + c2 (cc_normal contact) * weight;
         maxPenetration := Rmax (maxPenetration acc) (cc_penetration contact);
         contactCount := S (contactCount acc) |}
  end.

Definition contactLoop (cubesA cubesB : list vec3) : ContactAcc :=
  fold_left
    (fun acc cubeA => fold_left (contactStep cubeA) cubesB acc)
    cubesA contactAcc0.

Definition _getPieceContact (pieceA pieceB : RenderPiece)
  : option PieceContact :=
  let acc := contactLoop (cubes pieceA) (cubes pieceB) in
  if Nat.eqb (contactCount acc) 0 then None
  else
    let length := hypot3 (normalX acc) (normalY acc) (normalZ acc) in
    if Rltb length 0.00001 then None
    else
      Some {| normal := mk3 (normalX acc / length) (normalY acc / length)
                            (normalZ acc / length);
              penetration := maxPenetration acc;
              contacts := contactCount acc |}.

(** [_dot(a, b)]. *)
Definition _dot (a b : vec3) : R :=
  c0 a * c0 b + c1 a * c1 b + c2 a * c2 b.

End ContactSolver.

(* ================================================================= *)
(** ** Collaborators and interaction records *)

(** The part of [OrbitCamera] that [setInputLocked] and
    [isPageScrolling] touch. *)
Record OrbitCamera : Set := {
  _inputLocked : bool;
  _isDragging : bool;
  _pinchDistance : R;
  _touchDecided : bool;
  _isPageScrolling : bool
}.

Definition setInputLocked (locked : bool) (cam : OrbitCamera) : OrbitCamera :=
  if locked then
    {| _inputLocked := true; _isDragging := false; _pinchDistance := 0;
       _touchDecided := true; _isPageScrolling := _isPageScrolling cam |}
  else
    {| _inputLocked := false; _isDragging := _isDragging cam;
       _pinchDistance := _pinchDistance cam;
       _touchDecided := _touchDecided cam;
       _isPageScrolling := _isPageScrolling cam |}.

Definition isPageScrolling (cam : OrbitCamera) : bool := _isPageScrolling cam.

Inductive PressKind : Set := mouse | touch.

(** The object literal [state] built by [_beginHold].  [ps_addr] is the
    identity of that object: two press states are the same JavaScript object
    exactly when their addresses agree.  The handle returned by
    [window.setTimeout] is kept in [timerId]. *)
Record PressState : Set := {
  ps_addr : nat;
  kind : PressKind;
  id : Z;
  ps_pieceIndex : Z;
  startX : R;
  startY : R;
  lastX : R;
  lastY : R;
  dragDistancePx : R;
  active : bool;
  timerId : nat
}.

Definition activate (state : PressState) : PressState :=
  {| ps_addr := ps_addr state; kind := kind state; id := id state;
     ps_pieceIndex := ps_pieceIndex state;
     startX := startX state; startY := startY state;
     lastX := lastX state; lastY := lastY state;
     dragDistancePx := dragDistancePx state;
     active := true; timerId := timerId state |}.

(** The object stored in [_reassembleState]. *)
Record ReassembleState : Set := {
  startTime : R;
  startOffsets : list vec3;
  delays : list R;
  duration : R;
  totalDuration : R;
  startExplodeAmount : R
}.

(** The reassemble button: only its [hidden] property is written. *)
Record Button : Set := { hidden : bool }.

(** The explode slider: its [value] is the decimal string of an integer,
    kept here as that integer. *)
Record Slider : Set := { value : Z }.

(** The renderer.  [solution] is [SOLUTIONS[this.currentSolution]], data
    loaded from outside this file; [nextAddr] is the allocation counter
    behind [ps_addr]. *)
Record IntroRenderer : Set := mkIntroRenderer {
  settings :> Settings;
  solution : Solution;
  nextAddr : nat;
  explodeAmount : R;
  _timeSec : R;
  _deltaTime : R;
  camera : OrbitCamera;
  draggingPiece : Z;
  highlightedPiece : Z;
  _pieceOffsets : list vec3;
  _pieceVelocities : list vec3;
  _lastMotionOffsets : list vec3;
  _dragVelocity : vec3;
  _lastDragMoveSec : R;
  _pressState : option PressState;
  _recoveryAttemptCount : Z;
  _bboxExcess : R;
  _reassembleState : option ReassembleState;
  _reassembleButton : option Button;
  _reassembleButtonBound : bool;
  _reassembleButtonVisible : bool;
  _explodeSlider : option Slider;
  _settledStillTime : R;
  _reassembleVisibleSinceSec : R;
  _reassembleHideCandidateSinceSec : R
}.

(** Field assignments [this.f = v]. *)
Definition set_nextAddr (v : nat) (this : IntroRenderer) : IntroRenderer :=
  mkIntroRenderer (settings this) (solution this) v (explodeAmount this)
    (_timeSec this) (_deltaTime this) (camera this) (draggingPiece this)
    (highlightedPiece this) (_pieceOffsets this) (_pieceVelocities this)
    (_lastMotionOffsets this) (_dragVelocity this) (_lastDragMoveSec this)
    (_pressState this) (_recoveryAttemptCount this) (_bboxExcess this)
    (_reassembleState this) (_reassembleButton this)
    (_reassembleButtonBound this) (_reassembleButtonVisible this)
    (_explodeSlider this) (_settledStillTime this)
    (_reassembleVisibleSinceSec this) (_reassembleHideCandidateSinceSec this).

Definition set_explodeAmount (v : R) (this : IntroRenderer) : IntroRenderer :=
  mkIntroRenderer (settings this) (solution this) (nextAddr this) v
    (_timeSec this) (_deltaTime this) (camera this) (draggingPiece this)
    (highlightedPiece this) (_pieceOffsets this) (_pieceVelocities this)
    (_lastMotionOffsets this) (_dragVelocity this) (_lastDragMoveSec this)
    (_pressState this) (_recoveryAttemptCount this) (_bboxExcess this)
    (_reassembleState this) (_reassembleButton this)
    (_reassembleButtonBound this) (_reassembleButtonVisible this)
    (_explodeSlider this) (_settledStillTime this)
    (_reassembleVisibleSinceSec this) (_reassembleHideCandidateSinceSec this).

Definition set_timeSec (v : R) (this : IntroRenderer) : IntroRenderer :=
  mkIntroRenderer (settings this) (solution this) (nextAddr this)
    (explodeAmount this) v (_deltaTime this) (camera this)
    (draggingPiece this) (highlightedPiece this) (_pieceOffsets this)
    (_pieceVelocities this) (_lastMotionOffsets this) (_dragVelocity this)
    (_lastDragMoveSec this) (_pressState this) (_recoveryAttemptCount this)
    (_bboxExcess this) (_reassembleState this) (_reassembleButton this)
    (_reassembleButtonBound this) (_reassembleButtonVisible this)
    (_explodeSlider this) (_settledStillTime this)
    (_reassembleVisibleSinceSec this) (_reassembleHideCandidateSinceSec this).

Definition set_deltaTime (v : R) (this : IntroRenderer) : IntroRenderer :=
  mkIntroRenderer (settings this) (solution this) (nextAddr this)
    (explodeAmount this) (_timeSec this) v (camera this) (draggingPiece this)
    (highlightedPiece this) (_pieceOffsets this) (_pieceVelocities this)
    (_lastMotionOffsets this) (_dragVelocity this) (_lastDragMoveSec this)
    (_pressState this) (_recoveryAttemptCount this) (_bboxExcess this)
    (_reassembleState this) (_reassembleButton this)
    (_reassembleButtonBound this) (_reassembleButtonVisible this)
    (_explodeSlider this) (_settledStillTime this)
    (_reassembleVisibleSinceSec this) (_reassembleHideCandidateSinceSec this).

Definition set_camera (v : OrbitCamera) (this : IntroRenderer) : IntroRenderer :=
  mkIntroRenderer (settings this) (solution this) (nextAddr this)
    (explodeAmount this) (_timeSec this) (_deltaTime this) v
    (draggingPiece this) (highlightedPiece this) (_pieceOffsets this)
    (_pieceVelocities this) (_lastMotionOffsets this) (_dragVelocity this)
    (_lastDragMoveSec this) (_pressState this) (_recoveryAttemptCount this)
    (_bboxExcess this) (_reassembleState this) (_reassembleButton this)
    (_reassembleButtonBound this) (_reassembleButtonVisible this)
    (_explodeSlider this) (_settledStillTime this)
    (_reassembleVisibleSinceSec this) (_reassembleHideCandidateSinceSec this).

Definition set_draggingPiece (v : Z) (this : IntroRenderer) : IntroRenderer :=
  mkIntroRenderer (settings this) (solution this) (nextAddr this)
    (explodeAmount this) (_timeSec this) (_deltaTime this) (camera this) v
    (highlightedPiece this) (_pieceOffsets this) (_pieceVelocities this)
    (_lastMotionOffsets this) (_dragVelocity this) (_lastDragMoveSec this)
    (_pressState this) (_recoveryAttemptCount this) (_bboxExcess this)
    (_reassembleState this) (_reassembleButton this)
    (_reassembleButtonBound this) (_reassembleButtonVisible this)
    (_explodeSlider this) (_settledStillTime this)
    (_reassembleVisibleSinceSec this) (_reassembleHideCandidateSinceSec this).

Definition set_highlightedPiece (v : Z) (this : IntroRenderer) : IntroRenderer :=
  mkIntroRenderer (settings this) (solution this) (nextAddr this)
    (explodeAmount this) (_timeSec this) (_deltaTime this) (camera this)
    (draggingPiece this) v (_pieceOffsets this) (_pieceVelocities this)
    (_lastMotionOffsets this) (_dragVelocity this) (_lastDragMoveSec this)
    (_pressState this) (_recoveryAttemptCount this) (_bboxExcess this)
    (_reassembleState this) (_reassembleButton this)
    (_reassembleButtonBound this) (_reassembleButtonVisible this)
    (_explodeSlider this) (_settledStillTime this)
    (_reassembleVisibleSinceSec this) (_reassembleHideCandidateSinceSec this).

Definition set_pieceOffsets (v : list vec3) (this : IntroRenderer) : IntroRenderer :=
  mkIntroRenderer (settings this) (solution this) (nextAddr this)
    (explodeAmount this) (_timeSec this) (_deltaTime this) (camera this)
    (draggingPiece this) (highlightedPiece this) v (_pieceVelocities this)
    (_lastMotionOffsets this) (_dragVelocity this) (_lastDragMoveSec this)
    (_pressState this) (_recoveryAttemptCount this) (_bboxExcess this)
    (_reassembleState this) (_reassembleButton this)
    (_reassembleButtonBound this) (_reassembleButtonVisible this)
    (_explodeSlider this) (_settledStillTime this)
    (_reassembleVisibleSinceSec this) (_reassembleHideCandidateSinceSec this).

Definition set_pieceVelocities (v : list vec3) (this : IntroRenderer) : IntroRenderer :=
  mkIntroRenderer (settings this) (solution this) (nextAddr this)
    (explodeAmount this) (_timeSec this) (_deltaTime this) (camera this)
    (draggingPiece this) (highlightedPiece this) (_pieceOffsets this) v
    (_lastMotionOffsets this) (_dragVelocity this) (_lastDragMoveSec this)
    (_pressState this) (_recoveryAttemptCount this) (_bboxExcess this)
    (_reassembleState this) (_reassembleButton this)
    (_reassembleButtonBound this) (_reassembleButtonVisible this)
    (_explodeSlider this) (_settledStillTime this)
    (_reassembleVisibleSinceSec this) (_reassembleHideCandidateSinceSec this).

Definition set_lastMotionOffsets (v : list vec3) (this : IntroRenderer) : IntroRenderer :=
  mkIntroRenderer (settings this) (solution this) (nextAddr this)
    (explodeAmount this) (_timeSec this) (_deltaTime this) (camera this)
    (draggingPiece this) (highlightedPiece this) (_pieceOffsets this)
    (_pieceVelocities this) v (_dragVelocity this) (_lastDragMoveSec this)
    (_pressState this) (_recoveryAttemptCount this) (_bboxExcess this)
    (_reassembleState this) (_reassembleButton this)
    (_reassembleButtonBound this) (_reassembleButtonVisible this)
    (_explodeSlider this) (_settledStillTime this)
    (_reassembleVisibleSinceSec this) (_reassembleHideCandidateSinceSec this).

Definition set_dragVelocity (v : vec3) (this : IntroRenderer) : IntroRenderer :=
  mkIntroRenderer (settings this) (solution this) (nextAddr this)
    (explodeAmount this) (_timeSec this) (_deltaTime this) (camera this)
    (draggingPiece this) (highlightedPiece this) (_pieceOffsets this)
    (_pieceVelocities this) (_lastMotionOffsets this) v
    (_lastDragMoveSec this) (_pressState this) (_recoveryAttemptCount this)
    (_bboxExcess this) (_reassembleState this) (_reassembleButton this)
    (_reassembleButtonBound this) (_reassembleButtonVisible this)
    (_explodeSlider this) (_settledStillTime this)
    (_reassembleVisibleSinceSec this) (_reassembleHideCandidateSinceSec this).

Definition set_lastDragMoveSec (v : R) (this : IntroRenderer) : IntroRenderer :=
  mkIntroRenderer (settings this) (solution this) (nextAddr this)
    (explodeAmount this) (_timeSec this) (_deltaTime this) (camera this)
    (draggingPiece this) (highlightedPiece this) (_pieceOffsets this)
    (_pieceVelocities this) (_lastMotionOffsets this) (_dragVelocity this) v
    (_pressState this) (_recoveryAttemptCount this) (_bboxExcess this)
    (_reassembleState this) (_reassembleButton this)
    (_reassembleButtonBound this) (_reassembleButtonVisible this)
    (_explodeSlider this) (_settledStillTime this)
    (_reassembleVisibleSinceSec this) (_reassembleHideCandidateSinceSec this).

Definition set_pressState (v : option PressState) (this : IntroRenderer) : IntroRenderer :=
  mkIntroRenderer (settings this) (solution this) (nextAddr this)
    (explodeAmount this) (_timeSec this) (_deltaTime this) (camera this)
    (draggingPiece this) (highlightedPiece this) (_pieceOffsets this)
    (_pieceVelocities this) (_lastMotionOffsets this) (_dragVelocity this)
    (_lastDragMoveSec this) v (_recoveryAttemptCount this) (_bboxExcess this)
    (_reassembleState this) (_reassembleButton this)
    (_reassembleButtonBound this) (_reassembleButtonVisible this)
    (_explodeSlider this) (_settledStillTime this)
    (_reassembleVisibleSinceSec this) (_reassembleHideCandidateSinceSec this).

Definition set_recoveryAttemptCount (v : Z) (this : IntroRenderer) : IntroRenderer :=
  mkIntroRenderer (settings this) (solution this) (nextAddr this)
    (explodeAmount this) (_timeSec this) (_deltaTime this) (camera this)
    (draggingPiece this) (highlightedPiece this) (_pieceOffsets this)
    (_pieceVelocities this) (_lastMotionOffsets this) (_dragVelocity this)
    (_lastDragMoveSec this) (_pressState this) v (_bboxExcess this)
    (_reassembleState this) (_reassembleButton this)
    (_reassembleButtonBound this) (_reassembleButtonVisible this)
    (_explodeSlider this) (_settledStillTime this)
    (_reassembleVisibleSinceSec this) (_reassembleHideCandidateSinceSec this).

Definition set_bboxExcess (v : R) (this : IntroRenderer) : IntroRenderer :=
  mkIntroRenderer (settings this) (solution this) (nextAddr this)
    (explodeAmount this) (_timeSec this) (_deltaTime this) (camera this)
    (draggingPiece this) (highlightedPiece this) (_pieceOffsets this)
    (_pieceVelocities this) (_lastMotionOffsets this) (_dragVelocity this)
    (_lastDragMoveSec this) (_pressState this) (_recoveryAttemptCount this) v
    (_reassembleState this) (_reassembleButton this)
    (_reassembleButtonBound this) (_reassembleButtonVisible this)
    (_explodeSlider this) (_settledStillTime this)
    (_reassembleVisibleSinceSec this) (_reassembleHideCandidateSinceSec this).

Definition set_reassembleState (v : option ReassembleState) (this : IntroRenderer) : IntroRenderer :=
  mkIntroRenderer (settings this) (solution this) (nextAddr this)
    (explodeAmount this) (_timeSec this) (_deltaTime this) (camera this)
    (draggingPiece this) (highlightedPiece this) (_pieceOffsets this)
    (_pieceVelocities this) (_lastMotionOffsets this) (_dragVelocity this)
    (_lastDragMoveSec this) (_pressState this) (_recoveryAttemptCount this)
    (_bboxExcess this) v (_reassembleButton this)
    (_reassembleButtonBound this) (_reassembleButtonVisible this)
    (_explodeSlider this) (_settledStillTime this)
    (_reassembleVisibleSinceSec this) (_reassembleHideCandidateSinceSec this).

Definition set_reassembleButton (v : option Button) (this : IntroRenderer) : IntroRenderer :=
  mkIntroRenderer (settings this) (solution this) (nextAddr this)
    (explodeAmount this) (_timeSec this) (_deltaTime this) (camera this)
    (draggingPiece this) (highlightedPiece this) (_pieceOffsets this)
    (_pieceVelocities this) (_lastMotionOffsets this) (_dragVelocity this)
    (_lastDragMoveSec this) (_pressState this) (_recoveryAttemptCount this)
    (_bboxExcess this) (_reassembleState this) v (_reassembleButtonBound this)
    (_reassembleButtonVisible this) (_explodeSlider this)
    (_settledStillTime this) (_reassembleVisibleSinceSec this)
    (_reassembleHideCandidateSinceSec this).

Definition set_reassembleButtonBound (v : bool) (this : IntroRenderer) : IntroRenderer :=
  mkIntroRenderer (settings this) (solution this) (nextAddr this)
    (explodeAmount this) (_timeSec this) (_deltaTime this) (camera this)
    (draggingPiece this) (highlightedPiece this) (_pieceOffsets this)
    (_pieceVelocities this) (_lastMotionOffsets this) (_dragVelocity this)
    (_lastDragMoveSec this) (_pressState this) (_recoveryAttemptCount this)
    (_bboxExcess this) (_reassembleState this) (_reassembleButton this) v
    (_reassembleButtonVisible this) (_explodeSlider this)
    (_settledStillTime this) (_reassembleVisibleSinceSec this)
    (_reassembleHideCandidateSinceSec this).

Definition set_reassembleButtonVisible (v : bool) (this : IntroRenderer) : IntroRenderer :=
  mkIntroRenderer (settings this) (solution this) (nextAddr this)
    (explodeAmount this) (_timeSec this) (_deltaTime this) (camera this)
    (draggingPiece this) (highlightedPiece this) (_pieceOffsets this)
    (_pieceVelocities this) (_lastMotionOffsets this) (_dragVelocity this)
    (_lastDragMoveSec this) (_pressState this) (_recoveryAttemptCount this)
    (_bboxExcess this) (_reassembleState this) (_reassembleButton this)
    (_reassembleButtonBound this) v (_explodeSlider this)
    (_settledStillTime this) (_reassembleVisibleSinceSec this)
    (_reassembleHideCandidateSinceSec this).

Definition set_explodeSlider (v : option Slider) (this : IntroRenderer) : IntroRenderer :=
  mkIntroRenderer (settings this) (solution this) (nextAddr this)
    (explodeAmount this) (_timeSec this) (_deltaTime this) (camera this)
    (draggingPiece this) (highlightedPiece this) (_pieceOffsets this)
    (_pieceVelocities this) (_lastMotionOffsets this) (_dragVelocity this)
    (_lastDragMoveSec this) (_pressState this) (_recoveryAttemptCount this)
    (_bboxExcess this) (_reassembleState this) (_reassembleButton this)
    (_reassembleButtonBound this) (_reassembleButtonVisible this) v
    (_settledStillTime this) (_reassembleVisibleSinceSec this)
    (_reassembleHideCandidateSinceSec this).

Definition set_settledStillTime (v : R) (this : IntroRenderer) : IntroRenderer :=
  mkIntroRenderer (settings this) (solution this) (nextAddr this)
    (explodeAmount this) (_timeSec this) (_deltaTime this) (camera this)
    (draggingPiece this) (highlightedPiece this) (_pieceOffsets this)
    (_pieceVelocities this) (_lastMotionOffsets this) (_dragVelocity this)
    (_lastDragMoveSec this) (_pressState this) (_recoveryAttemptCount this)
    (_bboxExcess this) (_reassembleState this) (_reassembleButton this)
    (_reassembleButtonBound this) (_reassembleButtonVisible this)
    (_explodeSlider this) v (_reassembleVisibleSinceSec this)
    (_reassembleHideCandidateSinceSec this).

Definition set_reassembleVisibleSinceSec (v : R) (this : IntroRenderer) : IntroRenderer :=
  mkIntroRenderer (settings this) (solution this) (nextAddr this)
    (explodeAmount this) (_timeSec this) (_deltaTime this) (camera this)
    (draggingPiece this) (highlightedPiece this) (_pieceOffsets this)
    (_pieceVelocities this) (_lastMotionOffsets this) (_dragVelocity this)
    (_lastDragMoveSec this) (_pressState this) (_recoveryAttemptCount this)
    (_bboxExcess this) (_reassembleState this) (_reassembleButton this)
    (_reassembleButtonBound this) (_reassembleButtonVisible this)
    (_explodeSlider this) (_settledStillTime this) v
    (_reassembleHideCandidateSinceSec this).

Definition set_reassembleHideCandidateSinceSec (v : R) (this : IntroRenderer) : IntroRenderer :=
  mkIntroRenderer (settings this) (solution this) (nextAddr this)
    (explodeAmount this) (_timeSec this) (_deltaTime this) (camera this)
    (draggingPiece this) (highlightedPiece this) (_pieceOffsets this)
    (_pieceVelocities this) (_lastMotionOffsets this) (_dragVelocity this)
    (_lastDragMoveSec this) (_pressState this) (_recoveryAttemptCount this)
    (_bboxExcess this) (_reassembleState this) (_reassembleButton this)
    (_reassembleButtonBound this) (_reassembleButtonVisible this)
    (_explodeSlider this) (_settledStillTime this)
    (_reassembleVisibleSinceSec this) v.

Definition zero3 : vec3 := mk3 0 0 0.

(** [for (let i = 0; i < n; i++) body], the body being able to throw. *)
Definition forIndex {S : Type} (n : nat) (body : nat -> S -> option S)
  (s : S) : option S :=
  fold_left (fun acc i => s' <- acc ;; body i s') (seq 0 n) (Some s).

Definition putOffset (i : nat) (v : vec3) (this : IntroRenderer)
  : IntroRenderer :=
  set_pieceOffsets (nset (_pieceOffsets this) i v) this.

Definition putVelocity (i : nat) (v : vec3) (this : IntroRenderer)
  : IntroRenderer :=
  set_pieceVelocities (nset (_pieceVelocities this) i v) this.

(* ================================================================= *)
(** ** Frame clock ([CubeRenderer._setupFrame], [setExplode]) *)

(** The clock part of [_setupFrame]; [nowSec] is [performance.now() / 1000].
    The WebGL calls are not modelled. *)
Definition _setupFrame (nowSec : R) (this : IntroRenderer) : IntroRenderer :=
  let this := set_deltaTime (Rmax 0 (Rmin 0.1 (nowSec - _timeSec this))) this in
  set_timeSec nowSec this.

(* ================================================================= *)
(** ** Render pieces ([SolutionRenderer._getRenderPieces]) *)

Definition _getPieceOffset (this : IntroRenderer) (pieceIndex : Z) : vec3 :=
  match aget (_pieceOffsets this) pieceIndex with
  | Some offset => offset
  | None => ZERO_OFFSET
  end.

Definition centroidSum (cubes : list Cell) : R * R * R :=
  fold_left
    (fun '(cx, cy, cz) '(x, y, z) => (cx + IZR x, cy + IZR y, cz + IZR z))
    cubes (0, 0, 0).

(** Body of the loop over the solution.  For an empty [cubes] list the
    source divides by zero and [center] is NaN there; nothing below reads
    [center]. *)
Definition renderOnePiece (this : IntroRenderer)
  (offsetResolver : option (Z -> vec3)) (entry : Z * list Cell)
  : RenderPiece :=
  let '(pieceIndex, cubes) := entry in
  let '(sx, sy, sz) := centroidSum cubes in
  let n := INR (length cubes) in
  let cx := sx / n in
  let cy := sy / n in
  let cz := sz / n in
  let dx := cx - 1 in
  let dy := cy - 1 in
  let dz := cz - 1 in
  let len0 := sqrt (dx * dx + dy * dy + dz * dz) in
  let len := if Req_dec_T len0 0 then 1 else len0 in
  let ex := dx / len in
  let ey := dy / len in
  let ez := dz / len in
  let userOffset :=
    match offsetResolver with
    | Some resolve => resolve pieceIndex
    | None => _getPieceOffset this pieceIndex
    end in
  let ox := ex * explodeAmount this + c0 userOffset in
  let oy := ey * explodeAmount this + c1 userOffset in
  let oz := ez * explodeAmount this + c2 userOffset in
  {| pieceIndex := pieceIndex;
     center := mk3 ((cx - 1) + ox) ((cy - 1) + oy) ((cz - 1) + oz);
     cubes :=
       map (fun '(x, y, z) =>
              mk3 ((IZR x - 1) + ox) ((IZR y - 1) + oy) ((IZR z - 1) + oz))
           cubes |}.

Definition _getRenderPieces (this : IntroRenderer) (solution : Solution)
  (offsetResolver : option (Z -> vec3)) : list RenderPiece :=
  map (renderOnePiece this offsetResolver) solution.

(* ================================================================= *)
(** ** Bounding-volume metric *)

(** A number, or one of the two infinities an accumulator starts from. *)
Inductive xnum : Set := NegInf | Fin (r : R) | PosInf.

(** [Math.min(acc, r)] and [Math.max(acc, r)] for a finite [r]. *)
Definition xmin (acc : xnum) (r : R) : xnum :=
  match acc with
  | PosInf => Fin r
  | Fin a => Fin (Rmin a r)
  | NegInf => NegInf
  end.

Definition xmax (acc : xnum) (r : R) : xnum :=
  match acc with
  | NegInf => Fin r
  | Fin a => Fin (Rmax a r)
  | PosInf => PosInf
  end.

Record BoxAcc : Set := {
  minX : xnum; minY : xnum; minZ : xnum;
  maxX : xnum; maxY : xnum; maxZ : xnum
}.

Definition boxAcc0 : BoxAcc :=
  {| minX := PosInf; minY := PosInf; minZ := PosInf;
     maxX := NegInf; maxY := NegInf; maxZ := NegInf |}.

Definition boxStep (half : R) (acc : BoxAcc) (cube : vec3) : BoxAcc :=
  {| minX := xmin (minX acc) (c0 cube - half);
     minY := xmin (minY acc) (c1 cube - half);
     minZ := xmin (minZ acc) (c2 cube - half);
     maxX := xmax (maxX acc) (c0 cube + half);
     maxY := xmax (maxY acc) (c1 cube + half);
     maxZ := xmax (maxZ acc) (c2 cube + half) |}.

(** Returns the [volume] field of the result object.  The six accumulators
    become finite together, at the first cube; the last branch is the
    [!Number.isFinite(minX)] return. *)
Definition _computePiecesBoundingBox (this : IntroRenderer)
  (renderPieces : list RenderPiece) : R :=
  let half := _cubeSize this * 0.5 in
  let acc :=
    fold_left (fun acc piece => fold_left (boxStep half) (cubes piece) acc)
              renderPieces boxAcc0 in
  match minX acc, minY acc, minZ acc, maxX acc, maxY acc, maxZ acc with
  | Fin mnX, Fin mnY, Fin mnZ, Fin mxX, Fin mxY, Fin mxZ =>
      Rmax 0 (mxX - mnX) * Rmax 0 (mxY - mnY) * Rmax 0 (mxZ - mnZ)
  | _, _, _, _, _, _ => 0
  end.

Record Metrics : Set := {
  excess : R;
  currentVolume : R;
  tightVolume : R
}.

Definition _computeBoundingBoxMetrics (this : IntroRenderer) : Metrics :=
  let currentPieces := _getRenderPieces this (solution this) None in
  let tightestPieces :=
    _getRenderPieces this (solution this) (Some (fun _ => ZERO_OFFSET)) in
  let currentBox := _computePiecesBoundingBox this currentPieces in
  let tightBox := _computePiecesBoundingBox this tightestPieces in
  let safeTightVolume := Rmax 0.000001 tightBox in
  {| excess := Rmax 0 ((currentBox - safeTightVolume) / safeTightVolume);
     currentVolume := currentBox;
     tightVolume := tightBox |}.

(* ================================================================= *)
(** ** Affordance and slider side effects *)

Definition _setReassembleButtonVisible (visible : bool)
  (this : IntroRenderer) : IntroRenderer :=
  let nextVisible := visible in
  if Bool.eqb (_reassembleButtonVisible this) nextVisible then this
  else
    let this := set_reassembleButtonVisible nextVisible this in
    let this :=
      if nextVisible then
        set_reassembleHideCandidateSinceSec 0
          (set_reassembleVisibleSinceSec (_timeSec this) this)
      else set_reassembleHideCandidateSinceSec 0 this in
    match _reassembleButton this with
    | None => this
    | Some _ => set_reassembleButton (Some {| hidden := negb nextVisible |}) this
    end.

Definition _syncExplodeSlider (this : IntroRenderer) : IntroRenderer :=
  match _explodeSlider this with
  | None => this
  | Some slider =>
      let clamped := Rmax 0 (Rmin 2 (explodeAmount this)) in
      let sliderValue := Zfloor (clamped * 50 + / 2) in
      if (sliderValue =? value slider)%Z then this
      else set_explodeSlider (Some {| value := sliderValue |}) this
  end.

Definition setExplode (amount : R) (this : IntroRenderer) : IntroRenderer :=
  _syncExplodeSlider (set_explodeAmount amount this).

(* ================================================================= *)
(** ** Hold cancellation *)

Definition _cancelHold (unlockCamera : bool) (this : IntroRenderer)
  : IntroRenderer :=
  match _pressState this with
  | None =>
      if unlockCamera
      then set_camera (setInputLocked false (camera this)) this
      else this
  | Some state =>
      let wasActive := active state in
      let pieceIndex := ps_pieceIndex state in
      (* window.clearTimeout(state.timerId) *)
      let this := set_pressState None this in
      let this := set_draggingPiece (-1) this in
      let this := set_highlightedPiece (-1) this in
      let this := set_dragVelocity zero3 this in
      let this := set_lastDragMoveSec 0 this in
      let this :=
        match wasActive, aget (_pieceVelocities this) pieceIndex with
        | true, Some _ => putVelocity (Z.to_nat pieceIndex) zero3 this
        | _, _ => this
        end in
      if unlockCamera || wasActive
      then set_camera (setInputLocked false (camera this)) this
      else this
  end.

(* ================================================================= *)
(** ** Reassembly animation *)

Definition magnitudeOf (offset : vec3) : R :=
  hypot3 (c0 offset) (c1 offset) (c2 offset).

(** [Array.prototype.sort] with the comparator
    [(a, b) => b.magnitude - a.magnitude]: a stable sort by descending
    magnitude, written as an insertion sort. *)
Fixpoint insertByMagnitude (entry : nat * R) (sorted : list (nat * R))
  : list (nat * R) :=
  match sorted with
  | [] => [entry]
  | head :: tail =>
      if Rltb (snd head) (snd entry) then entry :: head :: tail
      else head :: insertByMagnitude entry tail
  end.

Definition sortByMagnitude (entries : list (nat * R)) : list (nat * R) :=
  fold_left (fun sorted entry => insertByMagnitude entry sorted) entries [].

(** [Math.max(...delays)] added to the piece duration; [Math.max()] of no
    argument is [-Infinity], which the outer [Math.max] discards. *)
Definition totalDurationOf (pieceDuration : R) (delays : list R) : R :=
  match delays with
  | [] => pieceDuration
  | d :: rest =>
      Rmax pieceDuration (pieceDuration + fold_left Rmax rest d)
  end.

(** The [delays] array always has [PIECES.length] slots and [sorted] has one
    entry per slot of [_pieceOffsets], itself of that length; the write is
    therefore always to an existing slot. *)
Definition startReassembleAnimation (this : IntroRenderer) : IntroRenderer :=
  match _reassembleState this with
  | Some _ => this
  | None =>
      let this :=
        if (draggingPiece this >=? 0)%Z then _cancelHold true this
        else this in
      let startOffsets := _pieceOffsets this in
      let sorted :=
        sortByMagnitude
          (combine (seq 0 (length startOffsets))
                   (map magnitudeOf startOffsets)) in
      let delays :=
        fold_left
          (fun delays '(rank, entry) =>
             nset delays (fst entry) (INR rank * _reassembleStagger this))
          (combine (seq 0 (length sorted)) sorted)
          (repeat 0 (length PIECES)) in
      let state :=
        {| startTime := _timeSec this;
           startOffsets := startOffsets;
           delays := delays;
           duration := _reassemblePieceDuration this;
           totalDuration :=
             totalDurationOf (_reassemblePieceDuration this) delays;
           startExplodeAmount := explodeAmount this |} in
      let this := set_reassembleState (Some state) this in
      let this :=
        set_pieceVelocities (map (fun _ => zero3) (_pieceVelocities this))
                            this in
      let this := set_recoveryAttemptCount 0 this in
      _setReassembleButtonVisible false this
  end.

Definition _easeInOutCubic (t : R) : R :=
  if Rleb t 0 then 0
  else if Rgeb t 1 then 1
  else if Rltb t 0.5 then 4 * t * t * t
  else 1 - (-2 * t + 2) ^ 3 / 2.

(** Body of the per-piece loop of [_stepReassembleAnimation]; the loop
    carries [allDone] next to the renderer.  A missing array entry makes
    the source compute with [undefined]; that is a failure here. *)
Definition reassemblePieceStep (state : ReassembleState) (elapsed : R)
  (pieceIndex : nat) (st : bool * IntroRenderer)
  : option (bool * IntroRenderer) :=
  let '(allDone, this) := st in
  delay <- nth_error (delays state) pieceIndex ;;
  startOffset <- nth_error (startOffsets state) pieceIndex ;;
  _ <- nth_error (_pieceVelocities this) pieceIndex ;;
  _ <- nth_error (_pieceOffsets this) pieceIndex ;;
  let localT := (elapsed - delay) / duration state in
  if Rleb localT 0 then
    Some (false,
          putVelocity pieceIndex zero3 (putOffset pieceIndex startOffset this))
  else if Rgeb localT 1 then
    Some (allDone,
          putVelocity pieceIndex zero3 (putOffset pieceIndex zero3 this))
  else
    let eased := _easeInOutCubic localT in
    let inv := 1 - eased in
    Some (false,
          putVelocity pieceIndex zero3
            (putOffset pieceIndex
               (mk3 (c0 startOffset * inv) (c1 startOffset * inv)
                    (c2 startOffset * inv))
               this)).

Definition _stepReassembleAnimation (this : IntroRenderer)
  : option IntroRenderer :=
  match _reassembleState this with
  | None => Some this
  | Some state =>
      let elapsed := _timeSec this - startTime state in
      let explodeProgress := Rmin 1 (Rmax 0 (elapsed / totalDuration state)) in
      let explodeEased := _easeInOutCubic explodeProgress in
      let this :=
        set_explodeAmount (startExplodeAmount state * (1 - explodeEased))
                          this in
      let this := _syncExplodeSlider this in
      '(allDone, this) <-
        forIndex (length PIECES) (reassemblePieceStep state elapsed)
                 (true, this) ;;
      if allDone then
        let this := set_reassembleState None this in
        let this := set_explodeAmount 0 this in
        let this := _syncExplodeSlider this in
        let this := set_bboxExcess 0 this in
        let this := set_recoveryAttemptCount 0 this in
        Some (_setReassembleButtonVisible false this)
      else Some this
  end.

(* ================================================================= *)
(** ** Struggle detection *)

Definition movingStep (pieceIndex : nat) (st : R * IntroRenderer)
  : option (R * IntroRenderer) :=
  let '(maxDelta, this) := st in
  current <- nth_error (_pieceOffsets this) pieceIndex ;;
  prev <- nth_error (_lastMotionOffsets this) pieceIndex ;;
  let dx := c0 current - c0 prev in
  let dy := c1 current - c1 prev in
  let dz := c2 current - c2 prev in
  let delta := hypot3 dx dy dz in
  let this :=
    set_lastMotionOffsets (nset (_lastMotionOffsets this) pieceIndex current)
                          this in
  Some (if Rgtb delta maxDelta then delta else maxDelta, this).

Definition _isAnyPieceMoving (this : IntroRenderer)
  : option (bool * IntroRenderer) :=
  if (draggingPiece this >=? 0)%Z then Some (true, this)
  else
    match _reassembleState this with
    | Some _ => Some (true, this)
    | None =>
        '(maxDelta, this) <-
          forIndex (length (_pieceOffsets this)) movingStep (0, this) ;;
        Some (Rgtb maxDelta (_movingFrameThreshold this), this)
    end.

Definition isSome {A} (o : option A) : bool :=
  match o with Some _ => true | None => false end.

Definition _updateStruggleDetection (this : IntroRenderer)
  : option IntroRenderer :=
  if isPageScrolling (camera this) then Some this
  else
    let metrics := _computeBoundingBoxMetrics this in
    let this := set_bboxExcess (excess metrics) this in
    let explodedForShow :=
      Rgeb (explodeAmount this) (_reassembleExplodeShowThreshold this) in
    let explodedForHide :=
      Rgeb (explodeAmount this) (_reassembleExplodeHideThreshold this) in
    let this :=
      if Rleb (excess metrics) (_bboxSolvedThreshold this)
      then set_recoveryAttemptCount 0 this
      else this in
    '(moving, this) <- _isAnyPieceMoving this ;;
    let this :=
      if moving then set_settledStillTime 0 this
      else
        set_settledStillTime
          (Rmin (_settleDelaySec this + 1)
                (_settledStillTime this + Rmax 0 (_deltaTime this)))
          this in
    let canShow :=
      negb (isSome (_reassembleState this)) &&
      (draggingPiece this <? 0)%Z &&
      (Rgeb (excess metrics) (_bboxExcessThreshold this) || explodedForShow) &&
      Rgeb (_settledStillTime this) (_settleDelaySec this) in
    if negb (_reassembleButtonVisible this) then
      Some (if canShow then _setReassembleButtonVisible true this else this)
    else
      let minVisibleElapsed :=
        _timeSec this - _reassembleVisibleSinceSec this in
      if Rltb minVisibleElapsed (_reassembleMinVisibleSec this) then Some this
      else
        let shouldHide :=
          isSome (_reassembleState this) ||
          (draggingPiece this >=? 0)%Z ||
          moving ||
          (Rltb (excess metrics) (_reassembleHideExcessThreshold this) &&
           negb explodedForHide) in
        if negb shouldHide then
          Some (set_reassembleHideCandidateSinceSec 0 this)
        else if Req_dec_T (_reassembleHideCandidateSinceSec this) 0 then
          Some (set_reassembleHideCandidateSinceSec (_timeSec this) this)
        else if Rgeb (_timeSec this - _reassembleHideCandidateSinceSec this)
                     (_reassembleHideDelaySec this)
        then Some (_setReassembleButtonVisible false this)
        else Some this.

Definition setReassembleButton (button : option Button)
  (this : IntroRenderer) : IntroRenderer :=
  match button with
  | None => set_reassembleButton None this
  | Some _ =>
      let this := set_reassembleButton (Some {| hidden := true |}) this in
      let this := set_reassembleButtonVisible false this in
      (* the click listener calls startReassembleAnimation *)
      if _reassembleButtonBound this then this
      else set_reassembleButtonBound true this
  end.

(* ================================================================= *)
(** ** Spring-damper motion integrator *)

Definition integratePiece (stepDt damping : R) (pieceIndex : nat)
  (this : IntroRenderer) : option IntroRenderer :=
  if (Z.of_nat pieceIndex =? draggingPiece this)%Z then Some this
  else
    offset <- nth_error (_pieceOffsets this) pieceIndex ;;
    velocity <- nth_error (_pieceVelocities this) pieceIndex ;;
    let v0 := c0 velocity + - c0 offset * _springStrength this * stepDt in
    let v1 :=
      c1 velocity +
      (- c1 offset * _springStrength this - _gravityStrength this) * stepDt in
    let v2 := c2 velocity + - c2 offset * _springStrength this * stepDt in
    let v0 := v0 * damping in
    let v1 := v1 * damping in
    let v2 := v2 * damping in
    let o0 := c0 offset + v0 * stepDt in
    let o1 := c1 offset + v1 * stepDt in
    let o2 := c2 offset + v2 * stepDt in
    Some (putOffset pieceIndex (mk3 o0 o1 o2)
            (putVelocity pieceIndex (mk3 v0 v1 v2) this)).

Definition scale3 (k : R) (v : vec3) : vec3 :=
  mk3 (c0 v * k) (c1 v * k) (c2 v * k).

Definition _integratePieceMotion (stepDt : R) (this : IntroRenderer)
  : option IntroRenderer :=
  let damping := exp (- _linearDamping this * stepDt) in
  this <- forIndex (length (_pieceOffsets this))
                   (integratePiece stepDt damping) this ;;
  if (draggingPiece this >=? 0)%Z then
    let dragDecay := exp (-18 * stepDt) in
    let this := set_dragVelocity (scale3 dragDecay (_dragVelocity this)) this in
    _ <- aget (_pieceVelocities this) (draggingPiece this) ;;
    Some (putVelocity (Z.to_nat (draggingPiece this)) (_dragVelocity this) this)
  else Some this.

Definition trimPiece (pieceIndex : nat) (this : IntroRenderer)
  : option IntroRenderer :=
  if (Z.of_nat pieceIndex =? draggingPiece this)%Z then Some this
  else
    offset <- nth_error (_pieceOffsets this) pieceIndex ;;
    velocity <- nth_error (_pieceVelocities this) pieceIndex ;;
    let offsetSmall :=
      Rltb (Rabs (c0 offset)) 0.0005 &&
      Rltb (Rabs (c1 offset)) 0.0005 &&
      Rltb (Rabs (c2 offset)) 0.0005 in
    let velocitySmall :=
      Rltb (Rabs (c0 velocity)) 0.004 &&
      Rltb (Rabs (c1 velocity)) 0.004 &&
      Rltb (Rabs (c2 velocity)) 0.004 in
    if offsetSmall && velocitySmall then
      Some (putVelocity pieceIndex zero3 (putOffset pieceIndex zero3 this))
    else Some this.

Definition _trimTinyMotion (this : IntroRenderer) : option IntroRenderer :=
  forIndex (length (_pieceOffsets this)) trimPiece this.

(* ================================================================= *)
(** ** Collision resolution *)

(** [arr[i] = v] on an array with holes, growing it when [i] is past the
    end. *)
Fixpoint xset {A} (arr : list (option A)) (i : nat) (v : A)
  : list (option A) :=
  match i, arr with
  | O, [] => [Some v]
  | O, _ :: t => Some v :: t
  | S j, [] => None :: xset [] j v
  | S j, h :: t => h :: xset t j v
  end.

(** A negative [pieceIndex] would set a named property, not an element. *)
Definition _buildPiecesByIndex (this : IntroRenderer)
  : list (option RenderPiece) :=
  let renderPieces := _getRenderPieces this (solution this) None in
  fold_left
    (fun piecesByIndex piece =>
       if (pieceIndex piece <? 0)%Z then piecesByIndex
       else xset piecesByIndex (Z.to_nat (pieceIndex piece)) piece)
    renderPieces (repeat None (length PIECES)).

Definition hole {A} (arr : list (option A)) (i : Z) : option A :=
  match aget arr i with Some (Some a) => Some a | _ => None end.

Definition add3 (a b : vec3) : vec3 :=
  mk3 (c0 a + c0 b) (c1 a + c1 b) (c2 a + c2 b).

Definition sub3 (a b : vec3) : vec3 :=
  mk3 (c0 a - c0 b) (c1 a - c1 b) (c2 a - c2 b).

Definition dragInteractionStep (dragged : RenderPiece)
  (piecesByIndex : list (option RenderPiece)) (stepDt : R)
  (pieceIndex : nat) (this : IntroRenderer) : option IntroRenderer :=
  if (Z.of_nat pieceIndex =? draggingPiece this)%Z then Some this
  else
    match hole piecesByIndex (Z.of_nat pieceIndex) with
    | None => Some this
    | Some other =>
        match _getPieceContact this dragged other with
        | None => Some this
        | Some contact =>
            let normal := normal contact in
            velocity <- nth_error (_pieceVelocities this) pieceIndex ;;
            let relativeApproach :=
              Rmax 0 (_dot (_dragVelocity this) normal - _dot velocity normal) in
            let impulse :=
              _collisionImpulse this +
              relativeApproach * _collisionVelocityScale this +
              penetration contact * 0.5 in
            let velocity := add3 velocity (scale3 impulse normal) in
            let correction :=
              Rmax 0 (penetration contact + _touchEpsilon this * 0.5) *
              _collisionPush this in
            offset <- nth_error (_pieceOffsets this) pieceIndex ;;
            let offset := add3 offset (scale3 correction normal) in
            let tangent :=
              sub3 (_dragVelocity this)
                   (scale3 (_dot (_dragVelocity this) normal) normal) in
            let velocity :=
              mk3 (c0 velocity + c0 tangent * 0.04 * stepDt)
                  (c1 velocity + c1 tangent * 0.04 * stepDt)
                  (c2 velocity + c2 tangent * 0.04 * stepDt) in
            Some (putOffset pieceIndex offset
                    (putVelocity pieceIndex velocity this))
        end
    end.

Definition _applyDragInteractions
  (piecesByIndex : list (option RenderPiece)) (stepDt : R)
  (this : IntroRenderer) : option IntroRenderer :=
  match hole piecesByIndex (draggingPiece this) with
  | None => Some this
  | Some dragged =>
      let dragSpeed :=
        hypot3 (c0 (_dragVelocity this)) (c1 (_dragVelocity this))
               (c2 (_dragVelocity this)) in
      if Rltb dragSpeed 0.01 then Some this
      else
        forIndex (length piecesByIndex)
                 (dragInteractionStep dragged piecesByIndex stepDt) this
  end.

(** [for (let j = start; j < n; j++) body]. *)
Definition forFrom {S : Type} (start n : nat) (body : nat -> S -> option S)
  (s : S) : option S :=
  fold_left (fun acc j => s' <- acc ;; body j s') (seq start (n - start))
            (Some s).

Definition pairStep (pieceI : RenderPiece)
  (piecesByIndex : list (option RenderPiece)) (i j : nat)
  (this : IntroRenderer) : option IntroRenderer :=
  if (Z.of_nat j =? draggingPiece this)%Z then Some this
  else
    match hole piecesByIndex (Z.of_nat j) with
    | None => Some this
    | Some pieceJ =>
        match _getPieceContact this pieceI pieceJ with
        | None => Some this
        | Some contact =>
            let normal := normal contact in
            let penetration := penetration contact in
            this <-
              (if Rgtb penetration 0 then
                 offsetA <- nth_error (_pieceOffsets this) i ;;
                 offsetB <- nth_error (_pieceOffsets this) j ;;
                 let correction := penetration * 0.5 in
                 Some (putOffset j (add3 offsetB (scale3 correction normal))
                         (putOffset i
                            (sub3 offsetA (scale3 correction normal)) this))
               else Some this) ;;
            velA <- nth_error (_pieceVelocities this) i ;;
            velB <- nth_error (_pieceVelocities this) j ;;
            let relativeNormalVelocity :=
              (c0 velB - c0 velA) * c0 normal +
              (c1 velB - c1 velA) * c1 normal +
              (c2 velB - c2 velA) * c2 normal in
            if Rltb relativeNormalVelocity 0 then
              let impulse :=
                - (1 + _pairRestitution this) * relativeNormalVelocity * 0.5 in
              Some (putVelocity j (add3 velB (scale3 impulse normal))
                      (putVelocity i (sub3 velA (scale3 impulse normal)) this))
            else Some this
        end
    end.

Definition _resolveDynamicPieceCollisions
  (piecesByIndex : list (option RenderPiece)) (this : IntroRenderer)
  : option IntroRenderer :=
  forIndex (length piecesByIndex)
    (fun i this =>
       if (Z.of_nat i =? draggingPiece this)%Z then Some this
       else
         match hole piecesByIndex (Z.of_nat i) with
         | None => Some this
         | Some pieceI =>
             forFrom (i + 1) (length piecesByIndex)
                     (pairStep pieceI piecesByIndex i) this
         end)
    this.

Definition _solvePieceCollisions (stepDt : R) (this : IntroRenderer)
  : option IntroRenderer :=
  let piecesByIndex := _buildPiecesByIndex this in
  this <-
    (if (draggingPiece this >=? 0)%Z
     then _applyDragInteractions piecesByIndex stepDt this
     else Some this) ;;
  _resolveDynamicPieceCollisions (_buildPiecesByIndex this) this.

(* ================================================================= *)
(** ** Per-frame update *)

(** The locals [substeps] and [stepDt] of [_beforeRenderSolution]. *)
Definition substepsOf (dt : R) : Z :=
  Z.max 1 (Z.min 4 (Zceil (dt / 0.012))).

Definition stepDtOf (dt : R) : R := dt / IZR (substepsOf dt).

(** Body of the sub-step loop. *)
Definition physicsSubstep (stepDt : R) (this : IntroRenderer)
  : option IntroRenderer :=
  this <- _integratePieceMotion stepDt this ;;
  this <- _solvePieceCollisions stepDt this ;;
  _trimTinyMotion this.

(** [for (let step = 0; step < substeps; step++) body]. *)
Fixpoint repeatStep {S : Type} (count : nat) (body : S -> option S) (s : S)
  : option S :=
  match count with
  | O => Some s
  | S k => s' <- body s ;; repeatStep k body s'
  end.

Definition _beforeRenderSolution (this : IntroRenderer)
  : option IntroRenderer :=
  match _reassembleState this with
  | Some _ =>
      this <- _stepReassembleAnimation this ;;
      _updateStruggleDetection this
  | None =>
      let dt := _deltaTime this in
      if Rleb dt 0 then Some this
      else
        let substeps := substepsOf dt in
        let stepDt := stepDtOf dt in
        this <- repeatStep (Z.to_nat substeps) (physicsSubstep stepDt) this ;;
        _updateStruggleDetection this
  end.

(** The state-changing part of [render]: clock, then the per-frame update;
    drawing reads the result. *)
Definition render (nowSec : R) (this : IntroRenderer) : option IntroRenderer :=
  _beforeRenderSolution (_setupFrame nowSec this).

(* ================================================================= *)
(** ** Hold-to-grab gesture *)

Section Hold.

(** Ray casting against the canvas and the camera ([_pickPieceAt]) reads
    the DOM and the camera matrices; it is a parameter here.  It returns a
    piece index or [-1] and changes nothing. *)
Variable _pickPieceAt : IntroRenderer -> R -> R -> Z.

(** The browser's timer queue is not modelled: the callback registered with
    [window.setTimeout] is [holdTimerCallback] below, applied to the address
    of the state object the closure captured. *)
Definition _beginHold (kind : PressKind) (id : Z) (clientX clientY : R)
  (this : IntroRenderer) : IntroRenderer :=
  if isSome (_reassembleState this) then this
  else
    let this := _cancelHold false this in
    let pieceIndex := _pickPieceAt this clientX clientY in
    if (pieceIndex <? 0)%Z then this
    else
      let addr := nextAddr this in
      let state :=
        {| ps_addr := addr; kind := kind; id := id;
           ps_pieceIndex := pieceIndex;
           startX := clientX; startY := clientY;
           lastX := clientX; lastY := clientY;
           dragDistancePx := 0; active := false; timerId := S addr |} in
      set_pressState (Some state) (set_nextAddr (S addr) this).

End Hold.

(** The arrow function handed to [window.setTimeout] by [_beginHold].
    [state] is the address of the captured press-state object; [nowMs] is
    [performance.now()].  While the captured object is the current
    [_pressState] its fields are those of [_pressState]. *)
Definition holdTimerCallback (state : nat) (nowMs : R) (this : IntroRenderer)
  : option IntroRenderer :=
  match _pressState this with
  | None => Some this
  | Some current =>
      if negb (Nat.eqb (ps_addr current) state) then Some this
      else
        let moveDist :=
          hypot2 (lastX current - startX current)
                 (lastY current - startY current) in
        if Rgtb moveDist (holdMoveThresholdPx this) then Some this
        else
          let this := set_pressState (Some (activate current)) this in
          let this := set_draggingPiece (ps_pieceIndex current) this in
          let this := set_highlightedPiece (ps_pieceIndex current) this in
          let this := set_dragVelocity zero3 this in
          let this := set_lastDragMoveSec (nowMs / 1000) this in
          _ <- aget (_pieceVelocities this) (ps_pieceIndex current) ;;
          let this :=
            putVelocity (Z.to_nat (ps_pieceIndex current)) zero3 this in
          Some (set_camera (setInputLocked true (camera this)) this)
  end.

(* ================================================================= *)
(** ** Picking a piece under the pointer *)

(** [a < b] on numbers that may be infinite. *)
Definition xltb (a b : xnum) : bool :=
  match a, b with
  | NegInf, NegInf => false
  | NegInf, _ => true
  | Fin _, NegInf => false
  | Fin x, Fin y => Rltb x y
  | Fin _, PosInf => true
  | PosInf, _ => false
  end.

(** Body of the loop over the three axes of [_rayIntersectCube]; [None] is
    the [return null] inside the loop. *)
Definition slabStep (acc : xnum * xnum) (axis : R * R * R * R)
  : option (xnum * xnum) :=
  let '(tMin, tMax) := acc in
  let '(origin, dir, min, max) := axis in
  if Rltb (Rabs dir) 0.00000001 then
    if Rltb origin min || Rgtb origin max then None
    else Some (tMin, tMax)
  else
    let inv := 1 / dir in
    let t1 := (min - origin) * inv in
    let t2 := (max - origin) * inv in
    let near := Rmin t1 t2 in
    let far := Rmax t1 t2 in
    let tMin := xmax tMin near in
    let tMax := xmin tMax far in
    if xltb tMax tMin then None else Some (tMin, tMax).

(** The ray parameter at which the ray meets the axis-aligned cube, or
    [None] for [null]. *)
Definition _rayIntersectCube (rayOrigin rayDir cubeCenter : vec3)
  (halfSize : R) : option xnum :=
  let minX := c0 cubeCenter - halfSize in
  let minY := c1 cubeCenter - halfSize in
  let minZ := c2 cubeCenter - halfSize in
  let maxX := c0 cubeCenter + halfSize in
  let maxY := c1 cubeCenter + halfSize in
  let maxZ := c2 cubeCenter + halfSize in
  let axes :=
    [ (c0 rayOrigin, c0 rayDir, minX, maxX);
      (c1 rayOrigin, c1 rayDir, minY, maxY);
      (c2 rayOrigin, c2 rayDir, minZ, maxZ) ] in
  '(tMin, tMax) <-
    fold_left (fun acc axis => acc <- acc ;; slabStep acc axis)
              axes (Some (NegInf, PosInf)) ;;
  if xltb tMax (Fin 0) || xltb tMax tMin then None
  else Some (if negb (xltb tMin (Fin 0)) then tMin else tMax).

(** The object returned by [_buildPickRay]. *)
Record Ray : Set := { origin : vec3; direction : vec3 }.

(** The rectangle returned by [canvas.getBoundingClientRect()]. *)
Record Rect : Set := {
  rect_left : R; rect_top : R; rect_width : R; rect_height : R
}.

Section Picking.

(** The canvas rectangle is read from the DOM, and [_buildPickRay] from the
    camera matrices; both are parameters here. *)
Variable rect : Rect.
Variable _buildPickRay : IntroRenderer -> R -> R -> R -> R -> option Ray.

(** Body of the inner loop of [_pickPieceAt]. *)
Definition pickStep (this : IntroRenderer) (ray : Ray) (piece : RenderPiece)
  (best : Z * xnum) (cube : vec3) : Z * xnum :=
  let '(bestPiece, bestT) := best in
  match _rayIntersectCube (origin ray) (direction ray) cube
                          (_cubeSize this * 0.5 + 0.015) with
  | Some t => if xltb t bestT then (pieceIndex piece, t) else (bestPiece, bestT)
  | None => (bestPiece, bestT)
  end.

Definition _pickPieceAt (this : IntroRenderer) (clientX clientY : R) : Z :=
  let localX := clientX - rect_left rect in
  let localY := clientY - rect_top rect in
  if Rltb localX 0 || Rgtb localX (rect_width rect) ||
     Rltb localY 0 || Rgtb localY (rect_height rect)
  then (-1)%Z
  else
    match _buildPickRay this localX localY (rect_width rect)
                        (rect_height rect) with
    | None => (-1)%Z
    | Some ray =>
        let renderPieces := _getRenderPieces this (solution this) None in
        fst (fold_left
               (fun best piece =>
                  fold_left (pickStep this ray piece) (cubes piece) best)
               renderPieces ((-1)%Z, PosInf))
    end.

End Picking.

(* ================================================================= *)
(** ** Dragging a held piece *)





(* ================================================================= *)
(** ** Pointer movement and release *)

(** The [kind] and [id] fields of a press state, under names that the
    parameters [kind] and [id] of the handlers do not hide. *)
Definition stateKind (state : PressState) : PressKind := kind state.
Definition stateId (state : PressState) : Z := id state.

Definition PressKind_eqb (a b : PressKind) : bool :=
  match a, b with
  | mouse, mouse | touch, touch => true
  | _, _ => false
  end.

(** [_recordRecoveryAttempt]; the drag distance is a finite number here. *)
Definition _recordRecoveryAttempt (dragDistancePx : R) (this : IntroRenderer)
  : option IntroRenderer :=
  if Rltb dragDistancePx 10 then Some this
  else if isSome (_reassembleState this) then Some this
  else
    let metrics := _computeBoundingBoxMetrics this in
    let this := set_bboxExcess (excess metrics) this in
    let this :=
      if Rgtb (excess metrics) (_bboxExcessThreshold this) then
        set_recoveryAttemptCount (_recoveryAttemptCount this + 1)%Z this
      else if Rleb (excess metrics) (_bboxSolvedThreshold this) then
        set_recoveryAttemptCount 0 this
      else this in
    _updateStruggleDetection this.


Definition _endHold (kind : PressKind) (id : Z) (this : IntroRenderer)
  : option IntroRenderer :=
  match _pressState this with
  | None => Some this
  | Some state =>
      if negb (PressKind_eqb (stateKind state) kind)
         || negb (stateId state =? id)%Z
      then Some this
      else
        let wasActive := active state in
        let draggedIndex := ps_pieceIndex state in
        let dragDistance := dragDistancePx state in
        (* window.clearTimeout(state.timerId) *)
        let this := set_pressState None this in
        let this := set_draggingPiece (-1) this in
        let this := set_highlightedPiece (-1) this in
        let this := set_dragVelocity zero3 this in
        let this := set_lastDragMoveSec 0 this in
        if wasActive then
          _ <- aget (_pieceVelocities this) draggedIndex ;;
          let this := putVelocity (Z.to_nat draggedIndex) zero3 this in
          this <- _recordRecoveryAttempt dragDistance this ;;
          Some (set_camera (setInputLocked false (camera this)) this)
        else Some this
  end.

(* ================================================================= *)
(** ** The event handlers bound by [_bindInteractionEvents] *)


Section Handlers.

Variable _pickPieceAt : IntroRenderer -> R -> R -> Z.












End Handlers.

(* ================================================================= *)
(** ** The 24 orientations and the other views *)

(** [ROTATIONS]: each entry maps the coordinates of a cell to the rotated
    coordinates. *)
Definition ROTATIONS : list (Z -> Z -> Z -> Z * Z * Z) :=
  [
    (* +Z up, rotations around Z *)
    fun x y z => (x, y, z);
    fun x y z => (- y, x, z);
    fun x y z => (- x, - y, z);
    fun x y z => (y, - x, z);
    (* +Y up *)
    fun x y z => (x, - z, y);
    fun x y z => (z, x, y);
    fun x y z => (- x, z, y);
    fun x y z => (- z, - x, y);
    (* -Z up *)
    fun x y z => (x, - y, - z);
    fun x y z => (y, x, - z);
    fun x y z => (- x, y, - z);
    fun x y z => (- y, - x, - z);
    (* -Y up *)
    fun x y z => (x, z, - y);
    fun x y z => (- z, x, - y);
    fun x y z => (- x, - z, - y);
    fun x y z => (z, - x, - y);
    (* +X up *)
    fun x y z => (z, y, - x);
    fun x y z => (- y, z, - x);
    fun x y z => (- z, - y, - x);
    fun x y z => (y, - z, - x);
    (* -X up *)
    fun x y z => (- z, y, x);
    fun x y z => (- y, - z, x);
    fun x y z => (z, - y, x);
    fun x y z => (y, z, x)
  ]%Z.

(** [rotate(x, y, z)] for a cell [[x, y, z]]. *)
Definition applyRotation (rotate : Z -> Z -> Z -> Z * Z * Z) (cell : Cell)
  : Cell :=
  let '(x, y, z) := cell in rotate x y z.

(** The click handlers of the rotation buttons: the new value of
    [currentRotation]; [%] is the remainder of the truncated division. *)
Definition prevRotation (currentRotation : Z) : Z :=
  Z.rem (currentRotation - 1 + 24) 24.

Definition nextRotation (currentRotation : Z) : Z :=
  Z.rem (currentRotation + 1) 24.

(** The handlers of the solution buttons and arrow keys, for
    [totalSolutions = SOLUTIONS.length]. *)
Definition prevSolution (totalSolutions currentSolution : Z) : Z :=
  Z.rem (currentSolution - 1 + totalSolutions) totalSolutions.

Definition nextSolution (totalSolutions currentSolution : Z) : Z :=
  Z.rem (currentSolution + 1) totalSolutions.

Module BacktrackRenderer.

(** The fields that [setStep] and [render] use. *)
Record t : Set := {
  step : R;
  maxSteps : Z;
  states : list Solution
}.

(** [solution] is [SOLUTIONS[0]]. *)
Definition _generateStates (solution : Solution) (this : t) : t :=
  let states :=
    map (fun i => firstn i solution) (seq 1 (length solution)) in
  {| step := step this;
     maxSteps := Z.of_nat (length states) - 1;
     states := states |}.

Definition new (solution : Solution) : t :=
  _generateStates solution {| step := 0; maxSteps := 100; states := [] |}.

Definition setStep (newStep : R) (this : t) : t :=
  {| step := Rmax 0 (Rmin newStep (IZR (maxSteps this)));
     maxSteps := maxSteps this;
     states := states this |}.

(** The local [state] of [render]: the pieces that are drawn.  An array is
    truthy even when empty, so [||] falls through on [undefined] only. *)
Definition render (this : t) : Solution :=
  let stateIndex :=
    Z.max 0 (Z.min (Zfloor (step this))
                   (Z.of_nat (length (states this)) - 1)) in
  match aget (states this) stateIndex with
  | Some state => state
  | None =>
      match aget (states this) (Z.of_nat (length (states this)) - 1) with
      | Some state => state
      | None => []
      end
  end.

End BacktrackRenderer.

(* ================================================================= *)
(** ** The rotation views *)

(** Piece colors. *)
Definition PIECE_COLORS : list vec3 :=
  [ mk3 0.95 0.30 0.25;   (* red *)
    mk3 0.30 0.75 0.35;   (* green *)
    mk3 0.30 0.45 0.90;   (* blue *)
    mk3 0.95 0.85 0.25;   (* yellow *)
    mk3 0.80 0.35 0.75;   (* magenta *)
    mk3 0.25 0.80 0.80;   (* cyan *)
    mk3 0.95 0.55 0.20 ]. (* orange *)

(** One [gl.drawArrays] call for a cube: the colour attribute and the
    translation of the model matrix.  The vertex buffers are the same in
    every call. *)
Record Draw : Set := { d_color : vec3; d_translation : vec3 }.

(** [for (const x of xs) body(x)], collecting the draw calls of every turn;
    [None] is a thrown exception. *)
Fixpoint forEachDraw {A} (body : A -> option (list Draw)) (xs : list A)
  : option (list Draw) :=
  match xs with
  | [] => Some []
  | x :: rest =>
      first <- body x ;;
      others <- forEachDraw body rest ;;
      Some (first ++ others)
  end.

Module RotationsRenderer.

Record t : Set := { rotationIndex : Z; pieceIndex : Z }.

Definition new : t := {| rotationIndex := 0; pieceIndex := 0 |}.

Definition setRotation (index : Z) (this : t) : t :=
  {| rotationIndex := index; pieceIndex := pieceIndex this |}.

Definition extentStep (acc : BoxAcc) (cell : Cell) : BoxAcc :=
  let '(x, y, z) := cell in
  {| minX := xmin (minX acc) (IZR x);
     minY := xmin (minY acc) (IZR y);
     minZ := xmin (minZ acc) (IZR z);
     maxX := xmax (maxX acc) (IZR x);
     maxY := xmax (maxY acc) (IZR y);
     maxZ := xmax (maxZ acc) (IZR z) |}.

(** [(min + max) / 2]; [None] when it is not a finite number. *)
Definition midpoint (min max : xnum) : option R :=
  match min, max with
  | Fin a, Fin b => Some ((a + b) / 2)
  | _, _ => None
  end.

(** [piece.map(([x, y, z]) => rotate(x, y, z))]: calling an undefined
    [rotate] throws at the first cell. *)
Fixpoint rotatePiece (rotate : option (Z -> Z -> Z -> Z * Z * Z))
  (piece : list Cell) : option (list Cell) :=
  match piece with
  | [] => Some []
  | (x, y, z) :: rest =>
      rotate' <- rotate ;;
      others <- rotatePiece rotate rest ;;
      Some (rotate' x y z :: others)
  end.

(** The draw calls of a frame that [_setupFrame] accepted.  The drawing
    loop runs only over a piece with a cell, and then the three midpoints
    are finite. *)
Definition render (this : t) : option (list Draw) :=
  piece <- aget PIECES (pieceIndex this) ;;
  let color := aget PIECE_COLORS (pieceIndex this) in
  let rotate := aget ROTATIONS (rotationIndex this) in
  rotatedPiece <- rotatePiece rotate piece ;;
  let acc := fold_left extentStep rotatedPiece boxAcc0 in
  let cx := midpoint (minX acc) (maxX acc) in
  let cy := midpoint (minY acc) (maxY acc) in
  let cz := midpoint (minZ acc) (maxZ acc) in
  forEachDraw
    (fun '(x, y, z) =>
       cx <- cx ;; cy <- cy ;; cz <- cz ;;
       color <- color ;;
       Some [ {| d_color := color;
                 d_translation :=
                   mk3 (IZR x - cx) (IZR y - cy) (IZR z - cz) |} ])
    rotatedPiece.

End RotationsRenderer.

Module CanonicalRenderer.

Record t : Set := { rotationIndex : Z }.

Definition new : t := {| rotationIndex := 0 |}.

Definition setRotation (index : Z) (this : t) : t :=
  {| rotationIndex := index |}.

Definition _renderSolution (solution : Solution) (offsetX : R)
  (reflect : bool) (this : t) : option (list Draw) :=
  let rotate := aget ROTATIONS (rotationIndex this) in
  forEachDraw
    (fun '(pieceIndex, cubes) =>
       let color := aget PIECE_COLORS pieceIndex in
       forEachDraw
         (fun '(x, y, z) =>
            (* Center at 1,1,1 then mirror across the x=1 plane (if
               needed), then rotate *)
            let cx := (x - 1)%Z in
            let cy := (y - 1)%Z in
            let cz := (z - 1)%Z in
            let cx := if reflect then (- cx)%Z else cx in
            rotate <- rotate ;;
            let '(rx, ry, rz) := rotate cx cy cz in
            color <- color ;;
            Some [ {| d_color := color;
                      d_translation :=
                        mk3 (IZR rx + offsetX) (IZR ry) (IZR rz) |} ])
         cubes)
    solution.

(** The draw calls of a frame that [_setupFrame] accepted; [solution] is
    [SOLUTIONS[0]].  Original solution (left) and mirror reflection
    (right). *)
Definition render (solution : Solution) (this : t) : option (list Draw) :=
  left <- _renderSolution solution (-2.5) false this ;;
  right <- _renderSolution solution 2.5 true this ;;
  Some (left ++ right).

End CanonicalRenderer.

(* ================================================================= *)
(** ** The constructor's defaults *)

(** The settings of [new IntroRenderer(canvas)] with no option given. *)
Definition defaultSettings : Settings :=
  {| holdMoveThresholdPx := 8;
     _bboxExcessThreshold := 0.025;
     _bboxSolvedThreshold := 0.015;
     _reassemblePieceDuration := 0.5;
     _reassembleStagger := 0.055;
     _movingFrameThreshold := 0.015;
     _settleDelaySec := 0.12;
     _reassembleMinVisibleSec := 0.9;
     _reassembleHideDelaySec := 0.35;
     _reassembleHideExcessThreshold := 0.018;
     _reassembleExplodeShowThreshold := 0.04;
     _reassembleExplodeHideThreshold := 0.02;
     _springStrength := 20;
     _linearDamping := 8;
     _gravityStrength := 0.8;
     _collisionImpulse := 0.22;
     _collisionVelocityScale := 0.5;
     _collisionPush := 0.75;
     _pairRestitution := 0.06;
     _touchEpsilon := 0.03;
     _cubeSize := 0.9 |}.

Definition defaultCamera : OrbitCamera :=
  {| _inputLocked := false; _isDragging := false; _pinchDistance := 0;
     _touchDecided := false; _isPageScrolling := false |}.

(** The renderer as the constructor leaves it, at clock reading [nowSec],
    for the given settings and solution. *)
Definition newIntroRenderer (opts : Settings) (sol : Solution) (nowSec : R)
  : IntroRenderer :=
  {| settings := opts;
     solution := sol;
     nextAddr := 0;
     explodeAmount := 0;
     _timeSec := nowSec;
     _deltaTime := 0;
     camera := defaultCamera;
     draggingPiece := -1;
     highlightedPiece := -1;
     _pieceOffsets := repeat zero3 (length PIECES);
     _pieceVelocities := repeat zero3 (length PIECES);
     _lastMotionOffsets := repeat zero3 (length PIECES);
     _dragVelocity := zero3;
     _lastDragMoveSec := 0;
     _pressState := None;
     _recoveryAttemptCount := 0;
     _bboxExcess := 0;
     _reassembleState := None;
     _reassembleButton := None;
     _reassembleButtonBound := false;
     _reassembleButtonVisible := false;
     _explodeSlider := None;
     _settledStillTime := 0;
     _reassembleVisibleSinceSec := 0;
     _reassembleHideCandidateSinceSec := 0 |}.

(* ================================================================= *)
(** ** Vocabulary of the statements *)

(** Two cubes are apart when, along some axis, their centres differ by more
    than the cube size plus the touch tolerance. *)
Definition apart (this : Settings) (a b : vec3) : Prop :=
  Rabs (c0 b - c0 a) > _cubeSize this + _touchEpsilon this \/
  Rabs (c1 b - c1 a) > _cubeSize this + _touchEpsilon this \/
  Rabs (c2 b - c2 a) > _cubeSize this + _touchEpsilon this.

(** Sum of [f] over a list. *)
Definition sumOver {A} (f : A -> R) (l : list A) : R :=
  fold_right (fun a s => f a + s) 0 l.

(** What one cube pair adds to each normal accumulator. *)
Definition pairWeight (this : Settings) (contact : CubeContact) : R :=
  Rmax 0.005 (cc_penetration contact + _touchEpsilon this).

Definition pairX (this : Settings) (a b : vec3) : R :=
  match _getCubeContact this a b with
  | None => 0
  | Some contact => c0 (cc_normal contact) * pairWeight this contact
  end.

Definition pairY (this : Settings) (a b : vec3) : R :=
  match _getCubeContact this a b with
  | None => 0
  | Some contact => c1 (cc_normal contact) * pairWeight this contact
  end.

Definition pairZ (this : Settings) (a b : vec3) : R :=
  match _getCubeContact this a b with
  | None => 0
  | Some contact => c2 (cc_normal contact) * pairWeight this contact
  end.

(** The accumulators [maxPenetration] and [contactCount] only grow. *)
Definition accLe (acc acc' : ContactAcc) : Prop :=
  maxPenetration acc <= maxPenetration acc' /\
  (contactCount acc <= contactCount acc')%nat.

(** The quadratic form that measures the distance to rest in the settling
    scenario. *)
Definition lyap (x v : R) : R := (v + 4 * x) * (v + 4 * x) + 4 * (x * x).

(** One physics slice without collisions: integrate, then snap to rest. *)
Definition integrateAndTrim (stepDt : R) (this : IntroRenderer)
  : option IntroRenderer :=
  this <- _integratePieceMotion stepDt this ;;
  _trimTinyMotion this.

(** A renderer holding one piece, not dragged, moving along x only, with the
    scenario's constants. *)
Definition singlePiece (this : IntroRenderer) (x v : R) : Prop :=
  _pieceOffsets this = [mk3 x 0 0] /\
  _pieceVelocities this = [mk3 v 0 0] /\
  draggingPiece this = (-1)%Z /\
  _springStrength this = 20 /\
  _linearDamping this = 8 /\
  _gravityStrength this = 0.

Definition scenarioSettings : Settings :=
  {| holdMoveThresholdPx := 8;
     _bboxExcessThreshold := 0.025;
     _bboxSolvedThreshold := 0.015;
     _reassemblePieceDuration := 0.5;
     _reassembleStagger := 0.055;
     _movingFrameThreshold := 0.015;
     _settleDelaySec := 0.12;
     _reassembleMinVisibleSec := 0.9;
     _reassembleHideDelaySec := 0.35;
     _reassembleHideExcessThreshold := 0.018;
     _reassembleExplodeShowThreshold := 0.04;
     _reassembleExplodeHideThreshold := 0.02;
     _springStrength := 20;
     _linearDamping := 8;
     _gravityStrength := 0;
     _collisionImpulse := 0.22;
     _collisionVelocityScale := 0.5;
     _collisionPush := 0.75;
     _pairRestitution := 0.06;
     _touchEpsilon := 0.03;
     _cubeSize := 0.9 |}.

(** An accumulator that has seen a cube: all six bounds are finite and each
    extent is at least [2 * half]. *)
Definition boxedAcc (half : R) (acc : BoxAcc) : Prop :=
  exists mnX mnY mnZ mxX mxY mxZ,
    acc = {| minX := Fin mnX; minY := Fin mnY; minZ := Fin mnZ;
             maxX := Fin mxX; maxY := Fin mxY; maxZ := Fin mxZ |} /\
    2 * half <= mxX - mnX /\ 2 * half <= mxY - mnY /\ 2 * half <= mxZ - mnZ.




(** The order in which [startReassembleAnimation] ranks two entries
    [(pieceIndex, magnitude)]: larger magnitude first, and for equal
    magnitudes the lower piece index first. *)
Definition rankedBefore (e1 e2 : nat * R) : Prop :=
  snd e2 < snd e1 \/ (snd e1 = snd e2 /\ (fst e1 < fst e2)%nat).

(** The [sorted] and [delays] locals of [startReassembleAnimation], as
    functions of the stagger and of the piece offsets. *)
Definition sortedFor (offsets : list vec3) : list (nat * R) :=
  sortByMagnitude
    (combine (seq 0 (length offsets)) (map magnitudeOf offsets)).

Definition delaysFor (stagger : R) (offsets : list vec3) : list R :=
  fold_left
    (fun delays '(rank, entry) =>
       nset delays (fst entry) (INR rank * stagger))
    (combine (seq 0 (length (sortedFor offsets))) (sortedFor offsets))
    (repeat 0 (length PIECES)).




(** The velocity and the offset that one integration slice of length
    [stepDt] gives a free piece: spring towards the solved position and
    gravity along -y, then damping, then the move with the new velocity. *)
Definition pulledVelocity (this : Settings) (stepDt : R)
  (offset velocity : vec3) : vec3 :=
  scale3 (exp (- _linearDamping this * stepDt))
    (add3 velocity
       (scale3 stepDt
          (mk3 (- c0 offset * _springStrength this)
               (- c1 offset * _springStrength this - _gravityStrength this)
               (- c2 offset * _springStrength this)))).

Definition pulledOffset (this : Settings) (stepDt : R)
  (offset velocity : vec3) : vec3 :=
  add3 offset (scale3 stepDt (pulledVelocity this stepDt offset velocity)).

(** Where the spring balances gravity. *)
Definition restOffset (this : Settings) : vec3 :=
  mk3 0 (- (_gravityStrength this / _springStrength this)) 0.



(** The ray meets the slab of one axis at parameter [t]: an axis along
    which the ray is taken as parallel (direction component below 1e-8 in
    absolute value) must have the ray origin between the two planes;
    otherwise the point at [t] must lie between them. *)
Definition inSlab (origin dir min max t : R) : Prop :=
  (Rabs dir < 0.00000001 -> min <= origin <= max) /\
  (0.00000001 <= Rabs dir -> min <= origin + t * dir <= max).

(** The point of the ray at parameter [t >= 0] is in the cube, in the sense
    of [inSlab] along each axis. *)
Definition rayInCube (rayOrigin rayDir cubeCenter : vec3) (halfSize t : R)
  : Prop :=
  0 <= t /\
  inSlab (c0 rayOrigin) (c0 rayDir) (c0 cubeCenter - halfSize)
         (c0 cubeCenter + halfSize) t /\
  inSlab (c1 rayOrigin) (c1 rayDir) (c1 cubeCenter - halfSize)
         (c1 cubeCenter + halfSize) t /\
  inSlab (c2 rayOrigin) (c2 rayDir) (c2 cubeCenter - halfSize)
         (c2 cubeCenter + halfSize) t.

(** [t] is in the interval from [a] up, or up to [b], the bound being
    possibly infinite. *)
Definition aboveX (a : xnum) (t : R) : Prop :=
  match a with NegInf => True | Fin x => x <= t | PosInf => False end.

Definition belowX (b : xnum) (t : R) : Prop :=
  match b with PosInf => True | Fin x => t <= x | NegInf => False end.

Definition axisSlab (t : R) (axis : R * R * R * R) : Prop :=
  let '(origin, dir, min, max) := axis in inSlab origin dir min max t.

Definition axisParallel (axis : R * R * R * R) : Prop :=
  let '(origin, dir, min, max) := axis in Rabs dir < 0.00000001.

Definition axisOrdered (axis : R * R * R * R) : Prop :=
  let '(origin, dir, min, max) := axis in min <= max.

(** The pair [(bestPiece, bestT)] of [_pickPieceAt] after the cubes in
    [seen] have been tested with [test]: either no cube gave a finite
    parameter and the pair is still the initial one, or the pair is the
    piece and the parameter of a cube with the least finite parameter. *)
Definition nearestSoFar (test : vec3 -> option xnum)
  (seen : RenderPiece -> vec3 -> Prop) (best : Z * xnum) : Prop :=
  (best = ((-1)%Z, PosInf) /\
   forall piece cube t, seen piece cube -> test cube <> Some (Fin t)) \/
  (exists piece cube t,
     seen piece cube /\ test cube = Some (Fin t) /\
     best = (pieceIndex piece, Fin t) /\
     forall piece' cube' t',
       seen piece' cube' -> test cube' = Some (Fin t') -> t <= t').

(** The part of the renderer that the pointer handlers and the hold timer
    own: the press state, the dragged and highlighted piece, the camera, the
    allocation counter and the drag bookkeeping. *)
Definition gestureFields (this : IntroRenderer) :=
  (_pressState this, draggingPiece this, highlightedPiece this, camera this,
   nextAddr this, _dragVelocity this, _lastDragMoveSec this).

(** The per-piece arrays of the physics. *)
Definition motionFields (this : IntroRenderer) :=
  (_pieceOffsets this, _pieceVelocities this).









(** Dot and cross product of integer vectors. *)
Definition dotZ (a b : Cell) : Z :=
  let '(ax, ay, az) := a in
  let '(bx, by', bz) := b in
  (ax * bx + ay * by' + az * bz)%Z.

Definition crossZ (a b : Cell) : Cell :=
  let '(ax, ay, az) := a in
  let '(bx, by', bz) := b in
  (ay * bz - az * by', az * bx - ax * bz, ax * by' - ay * bx)%Z.

(** The cells of a solution, in drawing order. *)
Definition cellsOf (solution : Solution) : list Cell :=
  flat_map snd solution.

(** A cell of the 3 x 3 x 3 grid. *)
Definition inGrid (cell : Cell) : Prop :=
  let '(x, y, z) := cell in
  (0 <= x <= 2 /\ 0 <= y <= 2 /\ 0 <= z <= 2)%Z.

(** A solution whose pieces have a colour and lie in the grid. *)
Definition drawable (solution : Solution) : Prop :=
  Forall (fun placement =>
            (0 <= fst placement < 7)%Z /\ Forall inGrid (snd placement))
         solution.

(** The translation that [CanonicalRenderer._renderSolution] gives a
    cell. *)
Definition drawnAt (rotate : Z -> Z -> Z -> Z * Z * Z) (offsetX : R)
  (reflect : bool) (cell : Cell) : vec3 :=
  let '(x, y, z) := cell in
  let '(rx, ry, rz) :=
    rotate (if reflect then - (x - 1) else x - 1)%Z (y - 1)%Z (z - 1)%Z in
  mk3 (IZR rx + offsetX) (IZR ry) (IZR rz).

(** [t] lies in the 3 x 3 x 3 block of cube centres around
    [(cx, 0, 0)]. *)
Definition inBlockAround (cx : R) (t : vec3) : Prop :=
  cx - 1 <= c0 t <= cx + 1 /\ -1 <= c1 t <= 1 /\ -1 <= c2 t <= 1.

(** The places are centred along an axis: they reach as far on one side of
    0 as on the other. *)
Definition balanced (axis : vec3 -> R) (places : list vec3) : Prop :=
  exists h, 0 <= h /\
            Forall (fun place => - h <= axis place <= h) places /\
            In (- h) (map axis places) /\ In h (map axis places).

(** The translation that [RotationsRenderer.render] gives a cell of the
    piece, for the centre [(cx, cy, cz)] of the rotated piece. *)
Definition rotatedAbout (rotate : Z -> Z -> Z -> Z * Z * Z) (cx cy cz : R)
  (cell : Cell) : vec3 :=
  let '(x, y, z) := applyRotation rotate cell in
  mk3 (IZR x - cx) (IZR y - cy) (IZR z - cz).

(* ################################################################# *)
(** * Properties *)

(* ================================================================= *)
(** ** Comparisons *)

Lemma Rltb_true x y : Rltb x y = true <-> x < y.
Proof. unfold Rltb; destruct (Rlt_dec x y); split; intros; try easy. Qed.

Lemma Rltb_false x y : Rltb x y = false <-> y <= x.
Proof.
  unfold Rltb; destruct (Rlt_dec x y); split; intros; try easy; lra.
Qed.

Lemma Rleb_true x y : Rleb x y = true <-> x <= y.
Proof. unfold Rleb; destruct (Rle_dec x y); split; intros; try easy. Qed.

Lemma Rleb_false x y : Rleb x y = false <-> y < x.
Proof.
  unfold Rleb; destruct (Rle_dec x y); split; intros; try easy; lra.
Qed.

Lemma Rgtb_true x y : Rgtb x y = true <-> y < x.
Proof. apply Rltb_true. Qed.

Lemma Rgtb_false x y : Rgtb x y = false <-> x <= y.
Proof. apply Rltb_false. Qed.

Lemma Rgeb_true x y : Rgeb x y = true <-> y <= x.
Proof. apply Rleb_true. Qed.

Lemma Rgeb_false x y : Rgeb x y = false <-> x < y.
Proof. apply Rleb_false. Qed.

(** Case analysis on a comparison, recording the order fact. *)
Ltac cmp_cases :=
  repeat match goal with
  | |- context [Rltb ?x ?y] =>
      let H := fresh "Hlt" in
      destruct (Rltb x y) eqn:H;
      [apply Rltb_true in H | apply Rltb_false in H]
  | |- context [Rleb ?x ?y] =>
      let H := fresh "Hle" in
      destruct (Rleb x y) eqn:H;
      [apply Rleb_true in H | apply Rleb_false in H]
  end.

Ltac case_Rltb x y H :=
  destruct (Rltb x y) eqn:H;
  [apply Rltb_true in H | apply Rltb_false in H].

Ltac case_Rleb x y H :=
  destruct (Rleb x y) eqn:H;
  [apply Rleb_true in H | apply Rleb_false in H].

(* ================================================================= *)
(** ** Contact solver: separated clusters *)

Lemma getCubeContact_apart (this : Settings) (a b : vec3) :
  apart this a b -> _getCubeContact this a b = None.
Proof.
  intros Hap. unfold _getCubeContact.
  assert (Hc : Rltb (_cubeSize this - Rabs (c0 b - c0 a)) (- _touchEpsilon this)
               || Rltb (_cubeSize this - Rabs (c1 b - c1 a))
                       (- _touchEpsilon this)
               || Rltb (_cubeSize this - Rabs (c2 b - c2 a))
                       (- _touchEpsilon this) = true).
  { destruct Hap as [H | [H | H]].
    - replace (Rltb (_cubeSize this - Rabs (c0 b - c0 a))
                    (- _touchEpsilon this)) with true;
        [reflexivity | symmetry; apply Rltb_true; lra].
    - replace (Rltb (_cubeSize this - Rabs (c1 b - c1 a))
                    (- _touchEpsilon this)) with true;
        [apply orb_true_iff; left; apply orb_true_r
        | symmetry; apply Rltb_true; lra].
    - replace (Rltb (_cubeSize this - Rabs (c2 b - c2 a))
                    (- _touchEpsilon this)) with true;
        [apply orb_true_r | symmetry; apply Rltb_true; lra]. }
  cbv zeta. rewrite Hc. reflexivity.
Qed.

Lemma inner_loop_apart (this : Settings) (a : vec3) (cubesB : list vec3) :
  (forall b, In b cubesB -> apart this a b) ->
  forall acc, fold_left (contactStep this a) cubesB acc = acc.
Proof.
  induction cubesB as [| b rest IH]; intros Hap acc; simpl.
  - reflexivity.
  - unfold contactStep at 2.
    rewrite getCubeContact_apart by (apply Hap; now left).
    apply IH. intros b' Hb'. apply Hap. now right.
Qed.

Lemma contactLoop_apart (this : Settings) (cubesA cubesB : list vec3) :
  (forall a b, In a cubesA -> In b cubesB -> apart this a b) ->
  contactLoop this cubesA cubesB = contactAcc0.
Proof.
  unfold contactLoop. generalize contactAcc0.
  induction cubesA as [| a rest IH]; intros acc Hap; simpl.
  - reflexivity.
  - rewrite inner_loop_apart by (intros b Hb; apply Hap; [now left | exact Hb]).
    apply IH. intros a' b Ha' Hb. apply Hap; [now right | exact Hb].
Qed.

(** C1. Two pieces all of whose cube pairs are apart along some axis (by
    more than the cube size plus the tolerance) have no contact:
    [_getPieceContact] returns [null]. *)
Theorem C1_apart_pieces_have_no_contact
  (this : Settings) (pieceA pieceB : RenderPiece) :
  (forall a b, In a (cubes pieceA) -> In b (cubes pieceB) -> apart this a b) ->
  _getPieceContact this pieceA pieceB = None.
Proof.
  intros Hap. unfold _getPieceContact.
  rewrite (contactLoop_apart this _ _ Hap). reflexivity.
Qed.

(** C1, instance: two neighbouring two-cube bars of the solved lattice. *)
Lemma C1_apart_pieces_witness :
  let pieceA := {| pieceIndex := 0; center := mk3 0.5 0 0;
                   cubes := [mk3 0 0 0; mk3 1 0 0] |} in
  let pieceB := {| pieceIndex := 1; center := mk3 0.5 1 0;
                   cubes := [mk3 0 1 0; mk3 1 1 0] |} in
  (forall a b, In a (cubes pieceA) -> In b (cubes pieceB) ->
               apart defaultSettings a b) /\
  _getPieceContact defaultSettings pieceA pieceB = None.
Proof.
  intros pieceA pieceB.
  assert (Hap : forall a b, In a (cubes pieceA) -> In b (cubes pieceB) ->
                            apart defaultSettings a b).
  { intros a b Ha Hb. simpl in Ha, Hb.
    destruct Ha as [<- | [<- | []]]; destruct Hb as [<- | [<- | []]];
      right; left; simpl;
      replace (1 - 0) with 1 by lra; rewrite Rabs_R1; lra. }
  split; [exact Hap |].
  apply (C1_apart_pieces_have_no_contact defaultSettings pieceA pieceB).
  exact Hap.
Defined.

(* ================================================================= *)
(** ** Contact solver: coinciding clusters *)

Lemma sumOver_add {A} (f g : A -> R) (l : list A) :
  sumOver (fun a => f a + g a) l = sumOver f l + sumOver g l.
Proof. induction l as [| a l IH]; simpl; [lra | rewrite IH; lra]. Qed.

Lemma sumOver_nonneg {A} (f : A -> R) (l : list A) :
  (forall a, 0 <= f a) -> 0 <= sumOver f l.
Proof.
  intros Hf. induction l as [| a l IH]; simpl; [lra |].
  specialize (Hf a). lra.
Qed.

Lemma sumOver_zero {A} (f : A -> R) (l : list A) :
  (forall a, f a = 0) -> sumOver f l = 0.
Proof.
  intros Hf. induction l as [| a l IH]; simpl; [lra |].
  rewrite Hf, IH. lra.
Qed.

(** Peeling the first element off a sum over all ordered pairs. *)
Lemma pair_sum_cons {A} (g : A -> A -> R) (x : A) (l : list A) :
  sumOver (fun a => sumOver (g a) (x :: l)) (x :: l) =
  g x x + sumOver (fun b => g x b + g b x) l +
  sumOver (fun a => sumOver (g a) l) l.
Proof.
  simpl. rewrite (sumOver_add (fun a => g a x) (fun a => sumOver (g a) l)).
  rewrite (sumOver_add (g x) (fun b => g b x)). lra.
Qed.

Lemma pair_sum_antisym {A} (g : A -> A -> R) (l : list A) :
  (forall a b, g a b + g b a = 0) ->
  sumOver (fun a => sumOver (g a) l) l = 0.
Proof.
  intros Hg. induction l as [| x l IH]; [reflexivity |].
  rewrite pair_sum_cons, IH, (sumOver_zero _ l) by (intro; apply Hg).
  specialize (Hg x x). lra.
Qed.

Lemma pair_sum_lower {A} (g : A -> A -> R) (w : R) (l : list A) :
  (forall a b, 0 <= g a b + g b a) -> (forall a, w <= g a a) ->
  INR (length l) * w <= sumOver (fun a => sumOver (g a) l) l.
Proof.
  intros Hg Hw. induction l as [| x l IH].
  - simpl. lra.
  - rewrite pair_sum_cons.
    assert (H1 : 0 <= sumOver (fun b => g x b + g b x) l)
      by (apply sumOver_nonneg; intro; apply Hg).
    specialize (Hw x).
    change (length (x :: l)) with (S (length l)). rewrite S_INR. lra.
Qed.

Section ContactFacts.

Variable this : Settings.

Lemma inner_normals (a : vec3) (cubesB : list vec3) (acc : ContactAcc) :
  let r := fold_left (contactStep this a) cubesB acc in
  normalX r = normalX acc + sumOver (pairX this a) cubesB /\
  normalY r = normalY acc + sumOver (pairY this a) cubesB /\
  normalZ r = normalZ acc + sumOver (pairZ this a) cubesB.
Proof.
  revert acc. induction cubesB as [| b rest IH]; intros acc; simpl.
  - repeat split; lra.
  - destruct (IH (contactStep this a acc b)) as (Hx & Hy & Hz).
    rewrite Hx, Hy, Hz. unfold contactStep, pairX, pairY, pairZ, pairWeight.
    destruct (_getCubeContact this a b); simpl; repeat split; lra.
Qed.

Lemma outer_normals (cubesA cubesB : list vec3) :
  let r := contactLoop this cubesA cubesB in
  normalX r = sumOver (fun a => sumOver (pairX this a) cubesB) cubesA /\
  normalY r = sumOver (fun a => sumOver (pairY this a) cubesB) cubesA /\
  normalZ r = sumOver (fun a => sumOver (pairZ this a) cubesB) cubesA.
Proof.
  unfold contactLoop.
  assert (G : forall acc,
    let r := fold_left
               (fun acc a => fold_left (contactStep this a) cubesB acc)
               cubesA acc in
    normalX r = normalX acc +
                sumOver (fun a => sumOver (pairX this a) cubesB) cubesA /\
    normalY r = normalY acc +
                sumOver (fun a => sumOver (pairY this a) cubesB) cubesA /\
    normalZ r = normalZ acc +
                sumOver (fun a => sumOver (pairZ this a) cubesB) cubesA).
  { induction cubesA as [| a rest IH]; intros acc; simpl.
    - repeat split; lra.
    - destruct (IH (fold_left (contactStep this a) cubesB acc))
        as (Hx & Hy & Hz).
      destruct (inner_normals a cubesB acc) as (Ix & Iy & Iz).
      rewrite Hx, Hy, Hz, Ix, Iy, Iz. repeat split; lra. }
  destruct (G contactAcc0) as (Hx & Hy & Hz). simpl in *.
  rewrite Hx, Hy, Hz. repeat split; lra.
Qed.

Lemma accLe_refl acc : accLe acc acc.
Proof. split; [lra | lia]. Qed.

Lemma accLe_trans a b c : accLe a b -> accLe b c -> accLe a c.
Proof. intros [H1 H2] [H3 H4]. split; [lra | lia]. Qed.

Lemma contactStep_le a acc b : accLe acc (contactStep this a acc b).
Proof.
  unfold contactStep. destruct (_getCubeContact this a b); simpl.
  - split; simpl; [apply Rmax_l | lia].
  - apply accLe_refl.
Qed.

Lemma inner_le a cubesB acc :
  accLe acc (fold_left (contactStep this a) cubesB acc).
Proof.
  revert acc. induction cubesB as [| b rest IH]; intros acc; simpl.
  - apply accLe_refl.
  - eapply accLe_trans; [apply contactStep_le | apply IH].
Qed.

Lemma outer_le cubesA cubesB acc :
  accLe acc (fold_left
               (fun acc a => fold_left (contactStep this a) cubesB acc)
               cubesA acc).
Proof.
  revert acc. induction cubesA as [| a rest IH]; intros acc; simpl.
  - apply accLe_refl.
  - eapply accLe_trans; [apply inner_le | apply IH].
Qed.

(** A contacting pair is seen by both accumulators. *)
Lemma inner_hit a cubesB b contact acc :
  In b cubesB -> _getCubeContact this a b = Some contact ->
  let r := fold_left (contactStep this a) cubesB acc in
  cc_penetration contact <= maxPenetration r /\ (0 < contactCount r)%nat.
Proof.
  revert acc. induction cubesB as [| b' rest IH]; intros acc Hin Hc; simpl.
  - destruct Hin.
  - destruct Hin as [-> | Hin].
    + destruct (inner_le a rest (contactStep this a acc b)) as [H1 H2].
      unfold contactStep in H1, H2 |- *. rewrite Hc in *. simpl in *.
      split; [| lia].
      eapply Rle_trans; [apply Rmax_r | exact H1].
    + apply IH; assumption.
Qed.

Lemma outer_hit cubesA cubesB a b contact :
  In a cubesA -> In b cubesB -> _getCubeContact this a b = Some contact ->
  let r := contactLoop this cubesA cubesB in
  cc_penetration contact <= maxPenetration r /\ (0 < contactCount r)%nat.
Proof.
  unfold contactLoop. generalize contactAcc0.
  induction cubesA as [| a' rest IH]; intros acc Ha Hb Hc; simpl.
  - destruct Ha.
  - destruct Ha as [-> | Ha].
    + destruct (inner_hit a cubesB b contact acc Hb Hc) as [H1 H2].
      destruct (outer_le rest cubesB
                  (fold_left (contactStep this a) cubesB acc)) as [H3 H4].
      split; [lra | lia].
    + apply IH; assumption.
Qed.

(** No accumulated penetration exceeds a bound valid for every pair. *)
Lemma inner_bound a cubesB (bound : R) acc :
  (forall b contact, _getCubeContact this a b = Some contact ->
                     cc_penetration contact <= bound) ->
  maxPenetration acc <= bound ->
  maxPenetration (fold_left (contactStep this a) cubesB acc) <= bound.
Proof.
  intros Hb. revert acc.
  induction cubesB as [| b rest IH]; intros acc Hacc; simpl; [exact Hacc |].
  apply IH. unfold contactStep.
  destruct (_getCubeContact this a b) eqn:E; simpl; [| exact Hacc].
  apply Rmax_lub; [exact Hacc | eapply Hb; exact E].
Qed.

Lemma outer_bound cubesA cubesB (bound : R) :
  (forall a b contact, _getCubeContact this a b = Some contact ->
                       cc_penetration contact <= bound) ->
  0 <= bound ->
  maxPenetration (contactLoop this cubesA cubesB) <= bound.
Proof.
  intros Hb H0. unfold contactLoop.
  assert (G : forall acc, maxPenetration acc <= bound ->
    maxPenetration
      (fold_left (fun acc a => fold_left (contactStep this a) cubesB acc)
                 cubesA acc) <= bound).
  { induction cubesA as [| a rest IH]; intros acc Hacc; simpl; [exact Hacc |].
    apply IH. apply inner_bound; [apply Hb | exact Hacc]. }
  apply G. simpl. exact H0.
Qed.

End ContactFacts.

Section CubePairFacts.

Variable this : Settings.

Lemma pairWeight_pos contact : 0 < pairWeight this contact.
Proof.
  unfold pairWeight.
  eapply Rlt_le_trans; [| apply Rmax_l]. lra.
Qed.

(** A cube against itself: full overlap, normal along +x. *)
Lemma getCubeContact_same (a : vec3) :
  0 < _cubeSize this -> 0 <= _touchEpsilon this ->
  _getCubeContact this a a =
  Some {| cc_normal := mk3 1 0 0; cc_penetration := _cubeSize this |}.
Proof.
  intros Hs He. unfold _getCubeContact.
  replace (c0 a - c0 a) with 0 by lra.
  replace (c1 a - c1 a) with 0 by lra.
  replace (c2 a - c2 a) with 0 by lra.
  rewrite Rabs_R0.
  assert (F1 : Rltb (_cubeSize this - 0) (- _touchEpsilon this) = false)
    by (apply Rltb_false; lra).
  assert (F2 : Rltb (_cubeSize this - 0) (_cubeSize this - 0) = false)
    by (apply Rltb_false; lra).
  assert (F3 : Rgeb 0 0 = true) by (apply Rgeb_true; lra).
  cbv zeta. rewrite F1. cbn [orb]. cbv beta iota.
  rewrite F2. cbv beta iota. rewrite F2. cbv beta iota.
  rewrite F3, Rmax_right by lra.
  replace (_cubeSize this - 0) with (_cubeSize this) by lra.
  reflexivity.
Qed.

Lemma getCubeContact_penetration_le (a b : vec3) contact :
  0 <= _cubeSize this ->
  _getCubeContact this a b = Some contact ->
  cc_penetration contact <= _cubeSize this.
Proof.
  intros Hs. unfold _getCubeContact.
  pose proof (Rabs_pos (c0 b - c0 a)) as Hx.
  pose proof (Rabs_pos (c1 b - c1 a)) as Hy.
  pose proof (Rabs_pos (c2 b - c2 a)) as Hz.
  cbv zeta.
  destruct (_ || _ || _); [discriminate |].
  cmp_cases; intros [= <-]; simpl; apply Rmax_lub; lra.
Qed.

(** Swapping the two cubes keeps the chosen axis and flips the sign, unless
    the cubes coincide along it. *)
Lemma pair_swap (a b : vec3) :
  0 <= pairX this a b + pairX this b a /\
  pairY this a b + pairY this b a = 0 /\
  pairZ this a b + pairZ this b a = 0.
Proof.
  unfold pairX, pairY, pairZ, _getCubeContact.
  rewrite (Rabs_minus_sym (c0 a) (c0 b)), (Rabs_minus_sym (c1 a) (c1 b)),
          (Rabs_minus_sym (c2 a) (c2 b)).
  assert (Ax : (0 <= c0 b - c0 a -> Rabs (c0 b - c0 a) = c0 b - c0 a) /\
               (c0 b - c0 a <= 0 -> Rabs (c0 b - c0 a) = - (c0 b - c0 a))).
  { split; intro; [apply Rabs_pos_eq; lra | apply Rabs_left1; lra]. }
  assert (Ay : (0 <= c1 b - c1 a -> Rabs (c1 b - c1 a) = c1 b - c1 a) /\
               (c1 b - c1 a <= 0 -> Rabs (c1 b - c1 a) = - (c1 b - c1 a))).
  { split; intro; [apply Rabs_pos_eq; lra | apply Rabs_left1; lra]. }
  assert (Az : (0 <= c2 b - c2 a -> Rabs (c2 b - c2 a) = c2 b - c2 a) /\
               (c2 b - c2 a <= 0 -> Rabs (c2 b - c2 a) = - (c2 b - c2 a))).
  { split; intro; [apply Rabs_pos_eq; lra | apply Rabs_left1; lra]. }
  destruct Ax as [Ax1 Ax2], Ay as [Ay1 Ay2], Az as [Az1 Az2].
  set (ax := Rabs (c0 b - c0 a)) in *.
  set (ay := Rabs (c1 b - c1 a)) in *.
  set (az := Rabs (c2 b - c2 a)) in *.
  cbv zeta.
  destruct (_ || _ || _); [simpl; repeat split; lra |].
  unfold Rgeb.
  case_Rltb (_cubeSize this - ay) (_cubeSize this - ax) Hyx.
  - case_Rltb (_cubeSize this - az) (_cubeSize this - ay) Hzy;
      cbv beta iota; unfold pairWeight; simpl;
      match goal with
      | |- context [Rmax 0.005 ?e] => generalize (Rmax 0.005 e); intro w
      end.
    + case_Rleb 0 (c2 b - c2 a) H1; case_Rleb 0 (c2 a - c2 b) H2;
        repeat split; try lra.
      all: try (specialize (Az1 ltac:(lra)); specialize (Az2 ltac:(lra)); lra).
    + case_Rleb 0 (c1 b - c1 a) H1; case_Rleb 0 (c1 a - c1 b) H2;
        repeat split; try lra.
      all: try (specialize (Ay1 ltac:(lra)); specialize (Ay2 ltac:(lra)); lra).
  - case_Rltb (_cubeSize this - az) (_cubeSize this - ax) Hzx;
      cbv beta iota; unfold pairWeight; simpl;
      match goal with
      | |- context [Rmax 0.005 ?e] =>
          assert (Hw : 0 < Rmax 0.005 e)
            by (eapply Rlt_le_trans; [| apply Rmax_l]; lra);
          revert Hw; generalize (Rmax 0.005 e); intros w Hw
      end.
    + case_Rleb 0 (c2 b - c2 a) H1; case_Rleb 0 (c2 a - c2 b) H2;
        repeat split; try lra.
      all: try (specialize (Az1 ltac:(lra)); specialize (Az2 ltac:(lra)); lra).
    + case_Rleb 0 (c0 b - c0 a) H1; case_Rleb 0 (c0 a - c0 b) H2;
        repeat split; try lra.
Qed.

End CubePairFacts.

Lemma hypot3_axis (x : R) : 0 <= x -> hypot3 x 0 0 = x.
Proof.
  intros Hx. unfold hypot3.
  replace (x * x + 0 * 0 + 0 * 0) with (x * x) by lra.
  apply sqrt_square. exact Hx.
Qed.

(** C2. Two pieces with the same, non-empty list of cube centres are in
    contact: [_getPieceContact] returns a contact whose penetration is the
    cube size (0.9 in every renderer) and whose normal is the unit vector
    [[1, 0, 0]]. *)
Theorem C2_coinciding_pieces_contact
  (this : Settings) (pieceA pieceB : RenderPiece) :
  0 < _cubeSize this -> 0 <= _touchEpsilon this ->
  cubes pieceA <> [] -> cubes pieceB = cubes pieceA ->
  exists contact,
    _getPieceContact this pieceA pieceB = Some contact /\
    penetration contact = _cubeSize this /\
    normal contact = mk3 1 0 0 /\
    hypot3 (c0 (normal contact)) (c1 (normal contact)) (c2 (normal contact))
    = 1.
Proof.
  intros Hs He Hne Heq. unfold _getPieceContact. rewrite Heq.
  set (l := cubes pieceA) in *.
  destruct (outer_normals this l l) as (Hx & Hy & Hz).
  rewrite pair_sum_antisym in Hy by (intros a b; apply pair_swap).
  rewrite pair_sum_antisym in Hz by (intros a b; apply pair_swap).
  set (w := Rmax 0.005 (_cubeSize this + _touchEpsilon this)).
  assert (Hw : 0.005 <= w) by apply Rmax_l.
  assert (HX : INR (length l) * w <= normalX (contactLoop this l l)).
  { rewrite Hx. apply pair_sum_lower.
    - intros a b. apply pair_swap.
    - intros a. unfold pairX. rewrite getCubeContact_same by assumption.
      unfold pairWeight, w. simpl. lra. }
  destruct l as [| a rest] eqn:El; [contradiction |].
  assert (Hlen : 1 <= INR (length (a :: rest))).
  { change (length (a :: rest)) with (S (length rest)). rewrite S_INR.
    pose proof (pos_INR (length rest)). lra. }
  assert (HX' : 0.005 <= normalX (contactLoop this (a :: rest) (a :: rest)))
    by nra.
  destruct (outer_hit this (a :: rest) (a :: rest) a a _
              (or_introl eq_refl) (or_introl eq_refl)
              (getCubeContact_same this a Hs He)) as [Hlo Hcount].
  simpl in Hlo.
  assert (Hhi : maxPenetration (contactLoop this (a :: rest) (a :: rest))
                <= _cubeSize this).
  { apply outer_bound; [| lra].
    intros x y contact Hc.
    eapply getCubeContact_penetration_le; [lra | exact Hc]. }
  set (acc := contactLoop this (a :: rest) (a :: rest)) in *.
  destruct (Nat.eqb (contactCount acc) 0) eqn:Ec;
    [apply Nat.eqb_eq in Ec; lia |].
  rewrite Hy, Hz, hypot3_axis by lra.
  replace (Rltb (normalX acc) 0.00001) with false
    by (symmetry; apply Rltb_false; lra).
  eexists. split; [reflexivity |]. simpl.
  assert (E1 : normalX acc / normalX acc = 1) by (field; lra).
  assert (E0 : 0 / normalX acc = 0) by (field; lra).
  rewrite E1, E0. repeat split.
  - lra.
  - rewrite hypot3_axis; lra.
Qed.

(** C2, instance: a two-cube bar against itself, default settings. *)
Lemma C2_coinciding_pieces_witness :
  let piece := {| pieceIndex := 0; center := mk3 0.5 0 0;
                  cubes := [mk3 0 0 0; mk3 1 0 0] |} in
  (0 < _cubeSize defaultSettings /\ 0 <= _touchEpsilon defaultSettings /\
   cubes piece <> [] /\ cubes piece = cubes piece) /\
  exists contact,
    _getPieceContact defaultSettings piece piece = Some contact /\
    penetration contact = 0.9 /\
    normal contact = mk3 1 0 0 /\
    hypot3 (c0 (normal contact)) (c1 (normal contact)) (c2 (normal contact))
    = 1.
Proof.
  intros piece.
  assert (H1 : 0 < _cubeSize defaultSettings) by (simpl; lra).
  assert (H2 : 0 <= _touchEpsilon defaultSettings) by (simpl; lra).
  assert (H3 : cubes piece <> []) by (simpl; discriminate).
  split; [repeat split; assumption |].
  exact (C2_coinciding_pieces_contact defaultSettings piece piece
           H1 H2 H3 eq_refl).
Defined.

(* ================================================================= *)
(** ** Arrays and loops *)

Lemma length_nset {A} (arr : list A) (i : nat) (v : A) :
  length (nset arr i v) = length arr.
Proof.
  revert i. induction arr as [| h t IH]; intros [| j]; simpl; auto.
Qed.

Lemma nth_error_nset_eq {A} (arr : list A) (i : nat) (v : A) :
  (i < length arr)%nat -> nth_error (nset arr i v) i = Some v.
Proof.
  revert i. induction arr as [| h t IH]; intros [| j] Hi; simpl in *;
    try lia; auto.
  apply IH. lia.
Qed.

Lemma nth_error_nset_neq {A} (arr : list A) (i j : nat) (v : A) :
  i <> j -> nth_error (nset arr i v) j = nth_error arr j.
Proof.
  revert i j. induction arr as [| h t IH]; intros [| i] [| j] Hij; simpl;
    auto; try congruence.
Qed.

Lemma nth_error_in_range {A} (arr : list A) (i : nat) :
  (i < length arr)%nat -> exists a, nth_error arr i = Some a.
Proof.
  intros Hi. destruct (nth_error arr i) eqn:E; [eauto |].
  apply nth_error_None in E. lia.
Qed.

Lemma all_slots_repeat {A} (arr : list A) (v : A) :
  (forall j, (j < length arr)%nat -> nth_error arr j = Some v) ->
  arr = repeat v (length arr).
Proof.
  induction arr as [| h t IH]; intros H; simpl; [reflexivity |].
  f_equal.
  - specialize (H 0%nat). simpl in H. injection H; [auto | lia].
  - apply IH. intros j Hj. apply (H (S j)). simpl. lia.
Qed.

(** Loop rule: an invariant indexed by the loop counter. *)
Lemma forFrom_seq_invariant {S : Type} (body : nat -> S -> option S)
  (Inv : nat -> S -> Prop) (len start : nat) (s : S) :
  Inv start s ->
  (forall i t, (start <= i < start + len)%nat -> Inv i t ->
     exists t', body i t = Some t' /\ Inv (Datatypes.S i) t') ->
  exists s',
    fold_left (fun acc i => x <- acc ;; body i x) (seq start len) (Some s)
    = Some s' /\ Inv (start + len)%nat s'.
Proof.
  revert start s. induction len as [| len IH]; intros start s H0 Hstep.
  - simpl. exists s. split; [reflexivity |].
    replace (start + 0)%nat with start by lia. exact H0.
  - simpl. destruct (Hstep start s ltac:(lia) H0) as (t & Ht & Hinv).
    rewrite Ht.
    destruct (IH (Datatypes.S start) t Hinv) as (s' & Hs' & Hfin).
    { intros i u Hi. apply Hstep. lia. }
    exists s'. split; [exact Hs' |].
    replace (start + Datatypes.S len)%nat
      with (Datatypes.S start + len)%nat by lia.
    exact Hfin.
Qed.

Lemma forIndex_invariant {S : Type} (body : nat -> S -> option S)
  (Inv : nat -> S -> Prop) (n : nat) (s : S) :
  Inv 0%nat s ->
  (forall i t, (i < n)%nat -> Inv i t ->
     exists t', body i t = Some t' /\ Inv (Datatypes.S i) t') ->
  exists s', forIndex n body s = Some s' /\ Inv n s'.
Proof.
  intros H0 Hstep. unfold forIndex.
  apply (forFrom_seq_invariant body Inv n 0 s H0).
  intros i t Hi. apply Hstep. lia.
Qed.

(* ================================================================= *)
(** ** What the side-effect helpers leave alone *)

Lemma syncExplodeSlider_frame (this : IntroRenderer) :
  let this' := _syncExplodeSlider this in
  explodeAmount this' = explodeAmount this /\
  _reassembleState this' = _reassembleState this /\
  _pieceOffsets this' = _pieceOffsets this /\
  _pieceVelocities this' = _pieceVelocities this /\
  _reassembleButtonVisible this' = _reassembleButtonVisible this /\
  _reassembleVisibleSinceSec this' = _reassembleVisibleSinceSec this /\
  _pressState this' = _pressState this /\
  draggingPiece this' = draggingPiece this.
Proof.
  unfold _syncExplodeSlider. destruct (_explodeSlider this); simpl.
  - destruct (_ =? _)%Z; simpl; repeat split; reflexivity.
  - repeat split; reflexivity.
Qed.

Lemma setReassembleButtonVisible_frame (visible : bool)
  (this : IntroRenderer) :
  let this' := _setReassembleButtonVisible visible this in
  explodeAmount this' = explodeAmount this /\
  _reassembleState this' = _reassembleState this /\
  _pieceOffsets this' = _pieceOffsets this /\
  _pieceVelocities this' = _pieceVelocities this /\
  _pressState this' = _pressState this /\
  draggingPiece this' = draggingPiece this /\
  _reassembleButtonVisible this' = visible.
Proof.
  unfold _setReassembleButtonVisible.
  destruct (Bool.eqb (_reassembleButtonVisible this) visible) eqn:E.
  - apply eqb_prop in E. simpl. repeat split; auto.
  - destruct visible; simpl; destruct (_reassembleButton this); simpl;
      repeat split; reflexivity.
Qed.

(* ================================================================= *)
(** ** Reassembly *)

(** C4. [startReassembleAnimation] called while a reassembly is active
    returns the renderer unchanged: the reassembly state, the piece offsets
    and velocities, the explode amount and the affordance visibility are
    what they were, as is every other field. *)
Theorem C4_start_while_active_changes_nothing
  (this : IntroRenderer) (state : ReassembleState) :
  _reassembleState this = Some state ->
  startReassembleAnimation this = this /\
  _reassembleState (startReassembleAnimation this) = _reassembleState this /\
  _pieceOffsets (startReassembleAnimation this) = _pieceOffsets this /\
  _pieceVelocities (startReassembleAnimation this) = _pieceVelocities this /\
  explodeAmount (startReassembleAnimation this) = explodeAmount this /\
  _reassembleButtonVisible (startReassembleAnimation this)
  = _reassembleButtonVisible this.
Proof.
  intros Hactive.
  assert (E : startReassembleAnimation this = this)
    by (unfold startReassembleAnimation; rewrite Hactive; reflexivity).
  rewrite E. repeat split; reflexivity.
Qed.

Lemma cancelHold_frame (unlockCamera : bool) (this : IntroRenderer) :
  let this' := _cancelHold unlockCamera this in
  settings this' = settings this /\
  _timeSec this' = _timeSec this /\
  explodeAmount this' = explodeAmount this /\
  _reassembleState this' = _reassembleState this /\
  _pieceOffsets this' = _pieceOffsets this /\
  _reassembleButtonVisible this' = _reassembleButtonVisible this.
Proof.
  unfold _cancelHold. destruct (_pressState this) as [ps |].
  - destruct (active ps); simpl.
    + destruct (aget (_pieceVelocities this) (ps_pieceIndex ps));
        rewrite orb_true_r; simpl; repeat split; reflexivity.
    + rewrite orb_false_r. destruct unlockCamera; simpl;
        repeat split; reflexivity.
  - destruct unlockCamera; simpl; repeat split; reflexivity.
Qed.

(** Starting from rest does install a reassembly state. *)
Lemma start_installs_state (this : IntroRenderer) :
  _reassembleState this = None ->
  exists state,
    _reassembleState (startReassembleAnimation this) = Some state /\
    startTime state = _timeSec this /\
    duration state = _reassemblePieceDuration this.
Proof.
  intros Hidle. unfold startReassembleAnimation. rewrite Hidle.
  set (r := if (draggingPiece this >=? 0)%Z then _cancelHold true this
            else this).
  assert (Hr : settings r = settings this /\ _timeSec r = _timeSec this).
  { unfold r. destruct (draggingPiece this >=? 0)%Z; [| split; reflexivity].
    destruct (cancelHold_frame true this) as (H1 & H2 & _). split; assumption. }
  destruct Hr as [Hr1 Hr2]. cbv zeta.
  match goal with
  | |- context [_setReassembleButtonVisible false ?x] =>
      destruct (setReassembleButtonVisible_frame false x)
        as (_ & Hst & _)
  end.
  rewrite Hst. cbn. eexists. split; [reflexivity |]. cbn.
  rewrite Hr1, Hr2. split; reflexivity.
Qed.

(** C4, instance: a second start right after a first one, on a fresh
    renderer. *)
Lemma C4_start_while_active_witness :
  let fresh := newIntroRenderer defaultSettings [] 0 in
  let this := startReassembleAnimation fresh in
  exists state,
    _reassembleState this = Some state /\
    startReassembleAnimation this = this.
Proof.
  intros fresh this.
  destruct (start_installs_state fresh eq_refl) as (state & Hstate & _).
  exists state. split; [exact Hstate |].
  exact (proj1 (C4_start_while_active_changes_nothing this state Hstate)).
Defined.

Lemma past_window_localT (elapsed delay dur : R) :
  0 < dur -> elapsed > delay + dur -> 1 < (elapsed - delay) / dur.
Proof.
  intros Hd He.
  replace ((elapsed - delay) / dur)
    with (1 + (elapsed - delay - dur) / dur) by (field; lra).
  assert (0 < (elapsed - delay - dur) / dur)
    by (apply Rdiv_lt_0_compat; lra).
  lra.
Qed.

(** A piece whose window has passed is put at rest at offset zero, and
    [allDone] is left as it was. *)
Lemma reassemblePieceStep_past_window
  (state : ReassembleState) (elapsed : R) (i : nat)
  (allDone : bool) (this : IntroRenderer) (delay : R) :
  nth_error (delays state) i = Some delay ->
  (i < length (startOffsets state))%nat ->
  (i < length (_pieceVelocities this))%nat ->
  (i < length (_pieceOffsets this))%nat ->
  0 < duration state -> elapsed > delay + duration state ->
  reassemblePieceStep state elapsed i (allDone, this) =
  Some (allDone, putVelocity i zero3 (putOffset i zero3 this)).
Proof.
  intros Hd Hs Hv Ho Hdur Hel. unfold reassemblePieceStep.
  destruct (nth_error_in_range _ _ Hs) as (so & Hso).
  destruct (nth_error_in_range _ _ Hv) as (v & Hvv).
  destruct (nth_error_in_range _ _ Ho) as (o & Hoo).
  rewrite Hd, Hso, Hvv, Hoo. cbn [bind].
  pose proof (past_window_localT elapsed delay (duration state) Hdur Hel)
    as HT.
  replace (Rleb ((elapsed - delay) / duration state) 0) with false
    by (symmetry; apply Rleb_false; lra).
  replace (Rgeb ((elapsed - delay) / duration state) 1) with true
    by (symmetry; apply Rgeb_true; lra).
  reflexivity.
Qed.

(** C3. For an active reassembly on a renderer whose arrays have one slot
    per piece and whose piece duration is positive: once the time elapsed
    since the start exceeds every piece's delay plus the duration, one call
    of [_stepReassembleAnimation] leaves every piece offset at [[0, 0, 0]],
    the explode amount at 0 and no reassembly state. *)
Theorem C3_reassembly_ends_at_rest
  (this : IntroRenderer) (state : ReassembleState) :
  _reassembleState this = Some state ->
  length (_pieceOffsets this) = length PIECES ->
  length (_pieceVelocities this) = length PIECES ->
  length (startOffsets state) = length PIECES ->
  length (delays state) = length PIECES ->
  0 < duration state ->
  (forall delay, In delay (delays state) ->
     _timeSec this - startTime state > delay + duration state) ->
  exists this',
    _stepReassembleAnimation this = Some this' /\
    _pieceOffsets this' = repeat zero3 (length PIECES) /\
    explodeAmount this' = 0 /\
    _reassembleState this' = None.
Proof.
  intros Hactive Hlo Hlv Hls Hld Hdur Hpast.
  unfold _stepReassembleAnimation. rewrite Hactive.
  set (elapsed := _timeSec this - startTime state) in *.
  match goal with
  | |- context [forIndex _ _ (true, ?r)] => set (this1 := r)
  end.
  assert (H1o : _pieceOffsets this1 = _pieceOffsets this).
  { unfold this1.
    match goal with
    | |- context [_syncExplodeSlider ?r] =>
        destruct (syncExplodeSlider_frame r) as (_ & _ & E & _)
    end.
    rewrite E. reflexivity. }
  assert (H1v : _pieceVelocities this1 = _pieceVelocities this).
  { unfold this1.
    match goal with
    | |- context [_syncExplodeSlider ?r] =>
        destruct (syncExplodeSlider_frame r) as (_ & _ & _ & E & _)
    end.
    rewrite E. reflexivity. }
  pose (Inv := fun (i : nat) (st : bool * IntroRenderer) =>
    fst st = true /\
    length (_pieceOffsets (snd st)) = length PIECES /\
    length (_pieceVelocities (snd st)) = length PIECES /\
    forall j, (j < i)%nat -> nth_error (_pieceOffsets (snd st)) j = Some zero3).
  destruct (forIndex_invariant (reassemblePieceStep state elapsed) Inv
              (length PIECES) (true, this1)) as ([allDone this2] & Hloop & Hfin).
  - unfold Inv. simpl. rewrite H1o, H1v. repeat split; auto. intros j Hj. lia.
  - intros i [done t] Hi (Hdone & Hto & Htv & Hzero).
    cbn [fst snd] in *. subst done.
    destruct (nth_error_in_range (delays state) i ltac:(lia)) as (d & Hd).
    eexists. split.
    + apply (reassemblePieceStep_past_window state elapsed i true t d Hd);
        try lia; try exact Hdur.
      apply Hpast. eapply nth_error_In. exact Hd.
    + unfold Inv, putVelocity, putOffset. simpl.
      rewrite !length_nset. repeat split; auto.
      intros j Hj. destruct (Nat.eq_dec i j) as [<- | Hne].
      * apply nth_error_nset_eq. lia.
      * rewrite nth_error_nset_neq by exact Hne. apply Hzero. lia.
  - rewrite Hloop. cbn [bind].
    destruct Hfin as (Hdone & Hto & _ & Hzero).
    cbn [fst snd] in *. subst allDone.
    eexists. split; [reflexivity |].
    match goal with
    | |- context [_setReassembleButtonVisible false ?r] =>
        destruct (setReassembleButtonVisible_frame false r)
          as (Fe & Fs & Fo & _)
    end.
    rewrite Fe, Fs, Fo.
    cbn [explodeAmount _reassembleState _pieceOffsets
         set_recoveryAttemptCount set_bboxExcess].
    match goal with
    | |- context [_syncExplodeSlider ?r] =>
        destruct (syncExplodeSlider_frame r) as (Se & Ss & So & _)
    end.
    rewrite Se, Ss, So.
    cbn [explodeAmount _reassembleState _pieceOffsets
         set_explodeAmount set_reassembleState].
    repeat split.
    rewrite <- Hto. apply all_slots_repeat.
    intros j Hj. apply Hzero. lia.
Qed.

(** *** What [startReassembleAnimation] installs *)

Lemma length_insertByMagnitude (entry : nat * R) (sorted : list (nat * R)) :
  length (insertByMagnitude entry sorted) = S (length sorted).
Proof.
  induction sorted as [| head tail IH]; simpl; [reflexivity |].
  destruct (Rltb (snd head) (snd entry)); simpl; [reflexivity |].
  rewrite IH. reflexivity.
Qed.

Lemma length_sortByMagnitude (entries : list (nat * R)) :
  length (sortByMagnitude entries) = length entries.
Proof.
  unfold sortByMagnitude.
  assert (G : forall acc,
    length (fold_left (fun sorted entry => insertByMagnitude entry sorted)
                      entries acc)
    = (length entries + length acc)%nat).
  { induction entries as [| e rest IH]; intros acc; simpl; [reflexivity |].
    rewrite IH, length_insertByMagnitude. lia. }
  rewrite G. simpl. lia.
Qed.

Lemma Forall_nset {A} (P : A -> Prop) (arr : list A) (i : nat) (v : A) :
  Forall P arr -> P v -> Forall P (nset arr i v).
Proof.
  intros Harr Hv. revert i.
  induction Harr as [| h t Hh Ht IH]; intros [| j]; simpl; auto.
Qed.

(** Every delay written by the ranking loop is at most
    [(count - 1) * stagger], and the array keeps its length. *)
Lemma delays_loop (stagger : R) (count : nat)
  (ranked : list (nat * (nat * R))) (delays0 : list R) :
  0 <= stagger ->
  (forall rank entry, In (rank, entry) ranked -> (rank < count)%nat) ->
  Forall (fun d => d <= INR (count - 1) * stagger) delays0 ->
  let delays :=
    fold_left
      (fun delays '(rank, entry) => nset delays (fst entry) (INR rank * stagger))
      ranked delays0 in
  Forall (fun d => d <= INR (count - 1) * stagger) delays /\
  length delays = length delays0.
Proof.
  intros Hs. revert delays0.
  induction ranked as [| [rank entry] rest IH]; intros delays0 Hrank H0;
    simpl; [split; [exact H0 | reflexivity] |].
  destruct (IH (nset delays0 (fst entry) (INR rank * stagger))) as [H1 H2].
  - intros r e Hin. apply (Hrank r e). now right.
  - apply Forall_nset; [exact H0 |].
    apply Rmult_le_compat_r; [exact Hs |].
    apply le_INR. specialize (Hrank rank entry (or_introl eq_refl)). lia.
  - split; [exact H1 |]. rewrite H2. apply length_nset.
Qed.

Lemma start_state_shape (this : IntroRenderer) :
  _reassembleState this = None ->
  0 <= _reassembleStagger this ->
  exists state,
    _reassembleState (startReassembleAnimation this) = Some state /\
    startTime state = _timeSec this /\
    duration state = _reassemblePieceDuration this /\
    startOffsets state = _pieceOffsets this /\
    length (delays state) = length PIECES /\
    (forall delay, In delay (delays state) ->
       delay <= INR (length (_pieceOffsets this) - 1)
                * _reassembleStagger this) /\
    _pieceOffsets (startReassembleAnimation this) = _pieceOffsets this /\
    length (_pieceVelocities (startReassembleAnimation this))
    = length (_pieceVelocities this).
Proof.
  intros Hidle Hstag. unfold startReassembleAnimation. rewrite Hidle.
  set (r := if (draggingPiece this >=? 0)%Z then _cancelHold true this
            else this).
  assert (Hr : settings r = settings this /\ _timeSec r = _timeSec this /\
               _pieceOffsets r = _pieceOffsets this /\
               length (_pieceVelocities r) = length (_pieceVelocities this)).
  { unfold r. destruct (draggingPiece this >=? 0)%Z;
      [| repeat split; reflexivity].
    destruct (cancelHold_frame true this) as (H1 & H2 & _ & _ & H5 & _).
    repeat split; try assumption.
    unfold _cancelHold. destruct (_pressState this) as [ps |].
    - destruct (active ps); cbn.
      + destruct (aget (_pieceVelocities this) (ps_pieceIndex ps)); cbn;
          [apply length_nset | reflexivity].
      + reflexivity.
    - reflexivity. }
  destruct Hr as (Hr1 & Hr2 & Hr3 & Hr4). cbv zeta.
  rewrite Hr3.
  change (_reassembleStagger r) with (_reassembleStagger (settings r)).
  change (_reassemblePieceDuration r)
    with (_reassemblePieceDuration (settings r)).
  rewrite Hr1, Hr2.
  set (sorted := sortByMagnitude
                   (combine (seq 0 (length (_pieceOffsets this)))
                            (map magnitudeOf (_pieceOffsets this)))).
  assert (Hsorted : length sorted = length (_pieceOffsets this)).
  { unfold sorted. rewrite length_sortByMagnitude, length_combine,
      length_seq, length_map. lia. }
  destruct (delays_loop (_reassembleStagger this)
              (length (_pieceOffsets this))
              (combine (seq 0 (length sorted)) sorted)
              (repeat 0 (length PIECES)) Hstag) as [Hall Hlen].
  { intros rank entry Hin. apply in_combine_l in Hin.
    apply in_seq in Hin. lia. }
  { apply Forall_forall. intros d Hd. apply repeat_spec in Hd. subst d.
    apply Rmult_le_pos; [apply pos_INR | exact Hstag]. }
  rewrite repeat_length in Hlen. rewrite Forall_forall in Hall.
  remember (fold_left
              (fun delays '(rank, entry) =>
                 nset delays (fst entry)
                      (INR rank * _reassembleStagger (settings this)))
              (combine (seq 0 (length sorted)) sorted)
              (repeat 0 (length PIECES))) as delayArray eqn:Edelays.
  clearbody sorted.
  match goal with
  | |- context [_setReassembleButtonVisible false ?x] =>
      destruct (setReassembleButtonVisible_frame false x)
        as (_ & Hst & Ho & Hv & _)
  end.
  rewrite Hst, Ho, Hv.
  cbn [_reassembleState _pieceOffsets _pieceVelocities
       set_recoveryAttemptCount set_pieceVelocities set_reassembleState].
  eexists. split; [reflexivity |].
  cbn [startTime duration startOffsets delays].
  rewrite length_map, Hr4.
  repeat split; try reflexivity; assumption.
Qed.

(** C3, instance: on a renderer with displaced pieces and the explode
    slider up, a reassembly is started at t = 0 and stepped in the frame at
    t = 1 s, after the last window (6 * 0.055 + 0.5 s). *)
Lemma C3_reassembly_ends_witness :
  let displaced :=
    [mk3 1 0 0; mk3 0 2 0; zero3; mk3 0 0 (-1); mk3 1 1 0; zero3;
     mk3 0.5 0 0] in
  let idle :=
    set_explodeAmount 1
      (set_pieceOffsets displaced (newIntroRenderer defaultSettings [] 0)) in
  let this := _setupFrame 1 (startReassembleAnimation idle) in
  exists state,
    _reassembleState this = Some state /\
    (forall delay, In delay (delays state) ->
       _timeSec this - startTime state > delay + duration state) /\
    exists this',
      _stepReassembleAnimation this = Some this' /\
      _pieceOffsets this' = repeat zero3 (length PIECES) /\
      explodeAmount this' = 0 /\
      _reassembleState this' = None.
Proof.
  intros displaced idle this.
  destruct (start_state_shape idle eq_refl)
    as (state & Hst & Hstart & Hdur & Hso & Hld & Hbound & Ho & Hv).
  { cbn. lra. }
  exists state.
  assert (Hpast : forall delay, In delay (delays state) ->
            _timeSec this - startTime state > delay + duration state).
  { intros delay Hin. apply Hbound in Hin. rewrite Hstart, Hdur.
    cbn in Hin |- *. lra. }
  split; [exact Hst |]. split; [exact Hpast |].
  apply (C3_reassembly_ends_at_rest this state Hst).
  - change (_pieceOffsets this)
      with (_pieceOffsets (startReassembleAnimation idle)).
    rewrite Ho. reflexivity.
  - change (_pieceVelocities this)
      with (_pieceVelocities (startReassembleAnimation idle)).
    rewrite Hv. reflexivity.
  - rewrite Hso. reflexivity.
  - exact Hld.
  - rewrite Hdur. cbn. lra.
  - exact Hpast.
Defined.

(* ================================================================= *)
(** ** Sub-stepping of the frame delta *)

Lemma setupFrame_delta (nowSec : R) (this : IntroRenderer) :
  0 <= _deltaTime (_setupFrame nowSec this) <= 0.1 /\
  _reassembleState (_setupFrame nowSec this) = _reassembleState this.
Proof.
  unfold _setupFrame. cbn. split; [| reflexivity].
  split; [apply Rmax_l |].
  apply Rmax_lub; [lra | apply Rmin_l].
Qed.

Lemma div_le_bound (a b c : R) : 0 < b -> a <= c * b -> a / b <= c.
Proof.
  intros Hb Hab. replace c with (c * b / b) by (field; lra).
  unfold Rdiv. apply Rmult_le_compat_r; [| exact Hab].
  left. apply Rinv_0_lt_compat. exact Hb.
Qed.

Lemma substepsOf_range (dt : R) : (1 <= substepsOf dt <= 4)%Z.
Proof. unfold substepsOf. lia. Qed.

Lemma substepsOf_small (dt : R) :
  0 < dt -> dt <= 0.048 -> substepsOf dt = Zceil (dt / 0.012).
Proof.
  intros Hpos Hle. unfold substepsOf.
  pose proof (Zceil_bound (dt / 0.012)) as [Hlo Hhi].
  assert (H0 : 0 < dt / 0.012) by (apply Rdiv_lt_0_compat; lra).
  assert (H4 : dt / 0.012 <= 4).
  { replace 4 with (0.048 / 0.012) by lra.
    unfold Rdiv. apply Rmult_le_compat_r; lra. }
  assert (Hc1 : (0 < Zceil (dt / 0.012))%Z) by (apply lt_IZR; lra).
  assert (Hc4 : (Zceil (dt / 0.012) < 5)%Z) by (apply lt_IZR; lra).
  lia.
Qed.

Lemma stepDtOf_facts (dt : R) :
  0 < dt -> dt <= 0.1 ->
  IZR (substepsOf dt) * stepDtOf dt = dt /\
  stepDtOf dt <= 0.025 /\
  (dt <= 0.048 -> stepDtOf dt <= 0.012).
Proof.
  intros Hpos Hmax. unfold stepDtOf.
  pose proof (substepsOf_range dt) as [H1 H4].
  assert (HR1 : 1 <= IZR (substepsOf dt)) by (apply IZR_le in H1; exact H1).
  assert (Hsmall : dt <= 0.048 -> dt / IZR (substepsOf dt) <= 0.012).
  { intros Hle. rewrite (substepsOf_small dt Hpos Hle) in *.
    pose proof (Zceil_bound (dt / 0.012)) as [_ Hhi].
    assert (Hdt : dt <= 0.012 * IZR (Zceil (dt / 0.012))).
    { replace dt with (0.012 * (dt / 0.012)) at 1 by (field; lra).
      apply Rmult_le_compat_l; lra. }
    apply div_le_bound; lra. }
  repeat split.
  - field. lra.
  - destruct (Rle_dec dt 0.048) as [Hle | Hgt].
    + specialize (Hsmall Hle). lra.
    + assert (E : substepsOf dt = 4%Z).
      { unfold substepsOf.
        pose proof (Zceil_bound (dt / 0.012)) as [_ Hhi].
        assert (H4' : 4 < dt / 0.012).
        { replace 4 with (0.048 / 0.012) by lra.
          unfold Rdiv. apply Rmult_lt_compat_r; lra. }
        assert ((4 < Zceil (dt / 0.012))%Z) by (apply lt_IZR; lra).
        lia. }
      rewrite E. apply div_le_bound; lra.
  - exact Hsmall.
Qed.

(** C6, as the claim states it, fails: a frame delta of 100 ms (what the
    clock clamp yields after any longer pause) is accepted and split into 4
    sub-steps of 25 ms, more than twice 12 ms. *)
Lemma C6_substep_longer_than_12ms :
  let this := _setupFrame 1 (newIntroRenderer defaultSettings [] 0) in
  _deltaTime this = 0.1 /\ 0 < _deltaTime this /\
  substepsOf (_deltaTime this) = 4%Z /\
  stepDtOf (_deltaTime this) = 0.025 /\
  ~ stepDtOf (_deltaTime this) <= 2 * 0.012.
Proof.
  assert (Hdt : _deltaTime (_setupFrame 1 (newIntroRenderer defaultSettings [] 0))
                = 0.1).
  { cbn. rewrite Rmin_left by lra. apply Rmax_right. lra. }
  cbv zeta. rewrite Hdt.
  assert (Hn : substepsOf 0.1 = 4%Z).
  { unfold substepsOf.
    rewrite (Zceil_eq 9 (0.1 / 0.012)) by (split; lra). reflexivity. }
  assert (Hs : stepDtOf 0.1 = 0.025) by (unfold stepDtOf; rewrite Hn; lra).
  rewrite Hs. repeat split; try assumption; lra.
Qed.

(** C6, amended. After the clock update, when no reassembly is active and
    the frame delta [dt] is accepted ([dt > 0]; the clock caps it at 0.1),
    [_beforeRenderSolution] runs the physics body in [substeps] equal
    slices with 1 <= [substeps] <= 4 and [substeps * stepDt = dt]; a slice
    lasts at most 25 ms, and at most 12 ms as long as [dt <= 48 ms]. *)
Theorem C6_frame_is_split_into_1_to_4_substeps
  (before : IntroRenderer) (nowSec : R) :
  let this := _setupFrame nowSec before in
  let dt := _deltaTime this in
  _reassembleState before = None -> 0 < dt ->
  (1 <= substepsOf dt <= 4)%Z /\
  _beforeRenderSolution this =
    (after <- repeatStep (Z.to_nat (substepsOf dt))
                         (physicsSubstep (stepDtOf dt)) this ;;
     _updateStruggleDetection after) /\
  IZR (substepsOf dt) * stepDtOf dt = dt /\
  stepDtOf dt <= 0.025 /\
  (dt <= 0.048 -> stepDtOf dt <= 0.012).
Proof.
  intros this dt Hidle Hpos.
  destruct (setupFrame_delta nowSec before) as [[_ Hmax] Hst].
  fold this in Hmax, Hst. fold dt in Hmax.
  split; [apply substepsOf_range |].
  split.
  - unfold _beforeRenderSolution. rewrite Hst, Hidle. fold dt.
    replace (Rleb dt 0) with false by (symmetry; apply Rleb_false; lra).
    reflexivity.
  - apply stepDtOf_facts; assumption.
Qed.

(** C6, instance: a 60 Hz frame on a fresh renderer. *)
Lemma C6_frame_substeps_witness :
  let before := newIntroRenderer defaultSettings [] 0 in
  let this := _setupFrame (1 / 60) before in
  let dt := _deltaTime this in
  (_reassembleState before = None /\ 0 < dt) /\
  (1 <= substepsOf dt <= 4)%Z /\
  IZR (substepsOf dt) * stepDtOf dt = dt /\
  stepDtOf dt <= 0.012.
Proof.
  intros before this dt.
  assert (Hdt : dt = 1 / 60).
  { unfold dt, this, before. cbn.
    rewrite Rmin_right by lra. rewrite Rmax_right by lra. lra. }
  assert (Hpos : 0 < dt) by lra.
  pose proof (C6_frame_is_split_into_1_to_4_substeps before (1 / 60)
                eq_refl Hpos) as (Hr & _ & Hsum & _ & Hsmall).
  fold this in Hr, Hsum, Hsmall. fold dt in Hr, Hsum, Hsmall.
  assert (H12 : stepDtOf dt <= 0.012) by (apply Hsmall; lra).
  split; [split; [reflexivity | exact Hpos] |].
  split; [exact Hr |]. split; [exact Hsum | exact H12].
Defined.

(* ================================================================= *)
(** ** Bounding-box excess *)

Lemma getPieceOffset_all_zero (this : IntroRenderer) (pieceIndex : Z) :
  (forall offset, In offset (_pieceOffsets this) -> offset = zero3) ->
  _getPieceOffset this pieceIndex = ZERO_OFFSET.
Proof.
  intros Hzero. unfold _getPieceOffset, aget.
  destruct (pieceIndex <? 0)%Z; [reflexivity |].
  destruct (nth_error (_pieceOffsets this) (Z.to_nat pieceIndex)) eqn:E;
    [| reflexivity].
  apply nth_error_In in E. apply Hzero in E. exact E.
Qed.

Lemma renderPieces_all_zero (this : IntroRenderer) (sol : Solution) :
  (forall offset, In offset (_pieceOffsets this) -> offset = zero3) ->
  _getRenderPieces this sol None =
  _getRenderPieces this sol (Some (fun _ => ZERO_OFFSET)).
Proof.
  intros Hzero. unfold _getRenderPieces. apply map_ext.
  intros [pieceIndex cells]. unfold renderOnePiece.
  rewrite (getPieceOffset_all_zero this pieceIndex Hzero). reflexivity.
Qed.

Lemma excess_formula_nonneg (current tight : R) :
  0 <= Rmax 0 ((current - Rmax 0.000001 tight) / Rmax 0.000001 tight).
Proof. apply Rmax_l. Qed.

Lemma excess_formula_same (volume : R) :
  Rmax 0 ((volume - Rmax 0.000001 volume) / Rmax 0.000001 volume) = 0.
Proof.
  apply Rmax_left.
  assert (Hpos : 0 < Rmax 0.000001 volume)
    by (eapply Rlt_le_trans; [| apply Rmax_l]; lra).
  assert (Hle : volume <= Rmax 0.000001 volume) by apply Rmax_r.
  apply div_le_bound; lra.
Qed.

(** C8. The bounding-box excess is never negative; it is 0 whenever every
    user offset is [[0, 0, 0]], whatever the explode amount; and the box of
    no rendered piece has volume 0. *)
Theorem C8_bounding_box_excess (this : IntroRenderer) :
  0 <= excess (_computeBoundingBoxMetrics this) /\
  ((forall offset, In offset (_pieceOffsets this) -> offset = zero3) ->
   excess (_computeBoundingBoxMetrics this) = 0) /\
  _computePiecesBoundingBox this [] = 0.
Proof.
  split; [apply excess_formula_nonneg |]. split.
  - intros Hzero. unfold _computeBoundingBoxMetrics. cbn [excess].
    rewrite (renderPieces_all_zero this (solution this) Hzero).
    apply excess_formula_same.
  - reflexivity.
Qed.

(** C8, instance: the solved layout (all offsets zero) of two bars, with
    the explode slider at 0.7. *)
Lemma C8_bounding_box_excess_witness :
  let sol : Solution :=
    [(0, [(0, 0, 0); (1, 0, 0)]); (1, [(0, 1, 0); (1, 1, 0)])]%Z in
  let this := set_explodeAmount 0.7 (newIntroRenderer defaultSettings sol 0) in
  (forall offset, In offset (_pieceOffsets this) -> offset = zero3) /\
  excess (_computeBoundingBoxMetrics this) = 0.
Proof.
  intros sol this.
  assert (Hzero : forall offset, In offset (_pieceOffsets this) ->
                                 offset = zero3).
  { intros offset Hin. cbn in Hin.
    repeat (destruct Hin as [<- | Hin]; [reflexivity |]). destruct Hin. }
  split; [exact Hzero |].
  exact (proj1 (proj2 (C8_bounding_box_excess this)) Hzero).
Defined.

(* ================================================================= *)
(** ** Hold timer *)

(** C9. When the hold timer fires and the controller's current press state
    is not the object the timer captured (there is none, or it is another
    object), the callback changes nothing: the dragging piece, every piece
    velocity and the camera lock are what they were. *)
Theorem C9_stale_hold_timer_changes_nothing
  (state : nat) (nowMs : R) (this : IntroRenderer) :
  (forall current, _pressState this = Some current ->
                   ps_addr current <> state) ->
  exists this',
    holdTimerCallback state nowMs this = Some this' /\
    this' = this /\
    draggingPiece this' = draggingPiece this /\
    _pieceVelocities this' = _pieceVelocities this /\
    _inputLocked (camera this') = _inputLocked (camera this).
Proof.
  intros Hstale. exists this. split; [| repeat split].
  unfold holdTimerCallback.
  destruct (_pressState this) as [current |]; [| reflexivity].
  specialize (Hstale current eq_refl).
  apply Nat.eqb_neq in Hstale. rewrite Hstale. reflexivity.
Qed.

(** The callback of the current session, fired without pointer movement
    beyond the threshold, does start the drag. *)
Lemma holdTimerCallback_promotes
  (nowMs : R) (this : IntroRenderer) (current : PressState) (velocity : vec3) :
  _pressState this = Some current ->
  hypot2 (lastX current - startX current) (lastY current - startY current)
  <= holdMoveThresholdPx this ->
  aget (_pieceVelocities this) (ps_pieceIndex current) = Some velocity ->
  exists this',
    holdTimerCallback (ps_addr current) nowMs this = Some this' /\
    draggingPiece this' = ps_pieceIndex current /\
    _reassembleState this' = _reassembleState this /\
    _inputLocked (camera this') = true.
Proof.
  intros Hps Hmove Hvel. unfold holdTimerCallback. rewrite Hps.
  rewrite Nat.eqb_refl. cbn [negb].
  replace (Rgtb _ (holdMoveThresholdPx this)) with false
    by (symmetry; apply Rgtb_false; exact Hmove).
  cbn. rewrite Hvel. cbn. eexists. split; [reflexivity |].
  cbn. repeat split.
Qed.

Section HoldFacts.

Variable _pickPieceAt : IntroRenderer -> R -> R -> Z.

(** During a reassembly [_beginHold] returns at once. *)
Lemma beginHold_during_reassembly
  (kind : PressKind) (id : Z) (clientX clientY : R)
  (this : IntroRenderer) (state : ReassembleState) :
  _reassembleState this = Some state ->
  _beginHold _pickPieceAt kind id clientX clientY this = this.
Proof. intros H. unfold _beginHold. rewrite H. reflexivity. Qed.

End HoldFacts.

(** C9, instance: a press on piece 2 is replaced by a second press before
    the first timer fires; the first timer (captured address 0) then finds
    the second session's object (address 1) and does nothing. *)
Lemma C9_stale_hold_timer_witness :
  let pick := fun (_ : IntroRenderer) (_ _ : R) => 2%Z in
  let fresh := newIntroRenderer defaultSettings [] 0 in
  let first := _beginHold pick mouse 0 10 10 fresh in
  let second := _beginHold pick mouse 0 50 50 first in
  (exists current, _pressState first = Some current /\ ps_addr current = 0%nat)
  /\
  (forall current, _pressState second = Some current ->
                   ps_addr current <> 0%nat) /\
  holdTimerCallback 0 300 second = Some second.
Proof.
  intros pick fresh first second.
  assert (Hstale : forall current, _pressState second = Some current ->
                                   ps_addr current <> 0%nat).
  { intros current Hc. cbn in Hc. injection Hc as <-. cbn. discriminate. }
  split; [eexists; split; reflexivity |]. split; [exact Hstale |].
  destruct (C9_stale_hold_timer_changes_nothing 0 300 second Hstale)
    as (this' & Hrun & -> & _).
  exact Hrun.
Defined.

(** C10 fails on the code: a press that is still pending (its timer has not
    fired, so [draggingPiece] is -1) is not cancelled by
    [startReassembleAnimation]; when its timer fires during the animation
    the piece becomes the dragged piece and the camera is locked. *)
Theorem C10_pending_hold_is_promoted_during_reassembly :
  let pick := fun (_ : IntroRenderer) (_ _ : R) => 2%Z in
  let fresh := newIntroRenderer defaultSettings [] 0 in
  let pending := _beginHold pick mouse 0 10 10 fresh in
  let animating := startReassembleAnimation pending in
  draggingPiece pending = (-1)%Z /\
  draggingPiece animating = (-1)%Z /\
  (exists state, _reassembleState animating = Some state) /\
  exists dragging,
    holdTimerCallback 0 300 animating = Some dragging /\
    (exists state, _reassembleState dragging = Some state) /\
    draggingPiece dragging = 2%Z /\
    _inputLocked (camera dragging) = true.
Proof.
  intros pick fresh pending animating.
  assert (Hidle : _reassembleState pending = None) by reflexivity.
  destruct (start_installs_state pending Hidle) as (state & Hstate & _).
  fold animating in Hstate.
  assert (Hps : _pressState animating = _pressState pending).
  { unfold animating, startReassembleAnimation. rewrite Hidle.
    change (draggingPiece pending >=? 0)%Z with false. cbv iota zeta.
    match goal with
    | |- context [_setReassembleButtonVisible false ?r] =>
        destruct (setReassembleButtonVisible_frame false r)
          as (_ & _ & _ & _ & E & _)
    end.
    rewrite E. reflexivity. }
  assert (Hdrag : draggingPiece animating = (-1)%Z).
  { unfold animating, startReassembleAnimation. rewrite Hidle.
    change (draggingPiece pending >=? 0)%Z with false. cbv iota zeta.
    match goal with
    | |- context [_setReassembleButtonVisible false ?r] =>
        destruct (setReassembleButtonVisible_frame false r)
          as (_ & _ & _ & _ & _ & E & _)
    end.
    rewrite E. reflexivity. }
  assert (Hvel : aget (_pieceVelocities animating) 2 = Some zero3).
  { unfold animating, startReassembleAnimation. rewrite Hidle.
    change (draggingPiece pending >=? 0)%Z with false. cbv iota zeta.
    match goal with
    | |- context [_setReassembleButtonVisible false ?r] =>
        destruct (setReassembleButtonVisible_frame false r)
          as (_ & _ & _ & E & _)
    end.
    rewrite E. reflexivity. }
  split; [reflexivity |]. split; [exact Hdrag |].
  split; [exists state; exact Hstate |].
  set (current := {| ps_addr := 0; kind := mouse; id := 0;
                     ps_pieceIndex := 2;
                     startX := 10; startY := 10; lastX := 10; lastY := 10;
                     dragDistancePx := 0; active := false; timerId := 1 |}).
  assert (Hcur : _pressState animating = Some current)
    by (rewrite Hps; reflexivity).
  destruct (holdTimerCallback_promotes 300 animating current zero3 Hcur)
    as (dragging & Hrun & Hd & Hs & Hlock).
  - cbn. unfold hypot2. replace (10 - 10) with 0 by lra.
    replace (0 * 0 + 0 * 0) with 0 by lra. rewrite sqrt_0. lra.
  - exact Hvel.
  - exists dragging. split; [exact Hrun |].
    split; [exists state; rewrite Hs; exact Hstate |].
    split; [exact Hd | exact Hlock].
Qed.

(* ================================================================= *)
(** ** Affordance hysteresis *)

(** [_isAnyPieceMoving] returns, and writes nothing but
    [_lastMotionOffsets], when that array is as long as [_pieceOffsets]. *)
Lemma isAnyPieceMoving_frame (this : IntroRenderer) :
  (length (_pieceOffsets this) <= length (_lastMotionOffsets this))%nat ->
  exists moving lastOffsets,
    _isAnyPieceMoving this =
    Some (moving, set_lastMotionOffsets lastOffsets this).
Proof.
  intros Hlen. unfold _isAnyPieceMoving.
  destruct (draggingPiece this >=? 0)%Z.
  { exists true, (_lastMotionOffsets this). destruct this; reflexivity. }
  destruct (_reassembleState this).
  { exists true, (_lastMotionOffsets this). destruct this; reflexivity. }
  pose (Inv := fun (i : nat) (st : R * IntroRenderer) =>
    snd st = set_lastMotionOffsets (_lastMotionOffsets (snd st)) this /\
    length (_lastMotionOffsets (snd st)) = length (_lastMotionOffsets this)).
  destruct (forIndex_invariant movingStep Inv (length (_pieceOffsets this))
              (0, this)) as ([maxDelta this'] & Hloop & Hsame & _).
  - unfold Inv. cbn [snd]. split; [destruct this |]; reflexivity.
  - intros i [delta t] Hi [Hsame Hl]. cbn [snd] in *.
    assert (Ho : _pieceOffsets t = _pieceOffsets this)
      by (rewrite Hsame; reflexivity).
    unfold movingStep. rewrite Ho.
    destruct (nth_error_in_range (_pieceOffsets this) i Hi) as (cur & Hcur).
    destruct (nth_error_in_range (_lastMotionOffsets t) i ltac:(lia))
      as (prev & Hprev).
    rewrite Hcur, Hprev. cbn [bind]. eexists. split; [reflexivity |].
    unfold Inv. cbn [snd]. split.
    + rewrite Hsame at 2. reflexivity.
    + cbn. rewrite length_nset. exact Hl.
  - rewrite Hloop. cbn [bind]. cbn [snd] in Hsame.
    eexists _, (_lastMotionOffsets this'). rewrite <- Hsame. reflexivity.
Qed.

(** C7, as the claim states it, fails: a reassembly started while the
    affordance is visible hides it at once, however recently it was
    shown. *)
Lemma C7_reassembly_start_hides_at_once :
  let shown :=
    _setReassembleButtonVisible true (newIntroRenderer defaultSettings [] 5) in
  let started := startReassembleAnimation shown in
  _reassembleButtonVisible shown = true /\
  _timeSec started - _reassembleVisibleSinceSec shown
  < _reassembleMinVisibleSec shown /\
  _reassembleButtonVisible started = false.
Proof.
  intros shown started. split; [reflexivity |]. split.
  - assert (E : _timeSec started = 5).
    { unfold started, startReassembleAnimation.
      change (_reassembleState shown) with (@None ReassembleState).
      change (draggingPiece shown >=? 0)%Z with false. reflexivity. }
    rewrite E. cbn. lra.
  - unfold started, startReassembleAnimation.
    change (_reassembleState shown) with (@None ReassembleState).
    cbv iota zeta.
    match goal with
    | |- context [_setReassembleButtonVisible false ?r] =>
        destruct (setReassembleButtonVisible_frame false r)
          as (_ & _ & _ & _ & _ & _ & E)
    end.
    exact E.
Qed.

(** C7, amended. Once the affordance is visible, the struggle-detection
    update does not hide it while less than [_reassembleMinVisibleSec] have
    elapsed since it was shown, whatever the bounding-box excess, the
    motion state (moving pieces, a drag, an active reassembly) and the
    explode amount: the update returns with the affordance visible and its
    shown-since time untouched. *)
Theorem C7_struggle_update_keeps_affordance_visible (this : IntroRenderer) :
  (length (_pieceOffsets this) <= length (_lastMotionOffsets this))%nat ->
  _reassembleButtonVisible this = true ->
  _timeSec this - _reassembleVisibleSinceSec this
  < _reassembleMinVisibleSec this ->
  exists this',
    _updateStruggleDetection this = Some this' /\
    _reassembleButtonVisible this' = true /\
    _reassembleVisibleSinceSec this' = _reassembleVisibleSinceSec this.
Proof.
  intros Hlen Hvis Hearly. unfold _updateStruggleDetection.
  destruct (isPageScrolling (camera this)).
  { exists this. repeat split; auto. }
  cbv zeta.
  match goal with
  | |- context [_isAnyPieceMoving ?r] => set (this1 := r)
  end.
  assert (H1 : settings this1 = settings this /\
               _timeSec this1 = _timeSec this /\
               _reassembleButtonVisible this1 = true /\
               _reassembleVisibleSinceSec this1
               = _reassembleVisibleSinceSec this /\
               _pieceOffsets this1 = _pieceOffsets this /\
               _lastMotionOffsets this1 = _lastMotionOffsets this).
  { unfold this1. destruct (Rleb _ _); cbn; repeat split; auto. }
  destruct H1 as (Hs1 & Ht1 & Hv1 & Hsince1 & Ho1 & Hl1).
  destruct (isAnyPieceMoving_frame this1) as (moving & lastOffsets & Hmov).
  { rewrite Ho1, Hl1. exact Hlen. }
  rewrite Hmov. cbn [bind].
  match goal with
  | |- context [negb (_reassembleButtonVisible ?r)] => set (this2 := r)
  end.
  assert (H2 : settings this2 = settings this /\
               _timeSec this2 = _timeSec this /\
               _reassembleButtonVisible this2 = true /\
               _reassembleVisibleSinceSec this2
               = _reassembleVisibleSinceSec this).
  { unfold this2. destruct moving; cbn; repeat split; auto. }
  destruct H2 as (Hs2 & Ht2 & Hv2 & Hsince2).
  rewrite Hv2. cbn [negb]. rewrite Ht2, Hsince2, Hs2.
  replace (Rltb (_timeSec this - _reassembleVisibleSinceSec this)
                (_reassembleMinVisibleSec this)) with true
    by (symmetry; apply Rltb_true; exact Hearly).
  exists this2. repeat split; assumption.
Qed.

(** C7, instance: the affordance was shown at t = 5 s on an exploded
    layout; at t = 5.5 s the pieces are back (explode amount 0, excess 0),
    yet the update leaves it visible. *)
Lemma C7_struggle_update_witness :
  let shown :=
    _setReassembleButtonVisible true (newIntroRenderer defaultSettings [] 5) in
  let this := set_timeSec 5.5 shown in
  ((length (_pieceOffsets this) <= length (_lastMotionOffsets this))%nat /\
   _reassembleButtonVisible this = true /\
   _timeSec this - _reassembleVisibleSinceSec this
   < _reassembleMinVisibleSec this) /\
  exists this',
    _updateStruggleDetection this = Some this' /\
    _reassembleButtonVisible this' = true /\
    _reassembleVisibleSinceSec this' = 5.
Proof.
  intros shown this.
  assert (H1 : (length (_pieceOffsets this)
                <= length (_lastMotionOffsets this))%nat) by (cbn; lia).
  assert (H2 : _reassembleButtonVisible this = true) by reflexivity.
  assert (H3 : _timeSec this - _reassembleVisibleSinceSec this
               < _reassembleMinVisibleSec this) by (cbn; lra).
  split; [repeat split; assumption |].
  exact (C7_struggle_update_keeps_affordance_visible this H1 H2 H3).
Defined.

(* ================================================================= *)
(** ** Spring integrator: the settling scenario *)

Lemma damping_factor_range :
  13 / 15 <= exp (- 8 * (1 / 60)) <= 15 / 17.
Proof.
  replace (- 8 * (1 / 60)) with (- (2 / 15)) by lra. split.
  - pose proof (exp_ineq1_le (- (2 / 15))). lra.
  - rewrite exp_Ropp.
    pose proof (exp_ineq1_le (2 / 15)) as H.
    replace (15 / 17) with (/ (17 / 15)) by lra.
    apply Rinv_le_contravar; lra.
Qed.

(** One integration step contracts the quadratic form [lyap] by a tenth,
    for every damping factor in the range of the previous lemma. *)
Lemma integration_contracts (d x v : R) :
  13 / 15 <= d <= 15 / 17 ->
  let v' := (v + - x * 20 * (1 / 60)) * d in
  let x' := x + v' * (1 / 60) in
  lyap x' v' <= 0.9 * lyap x v.
Proof.
  intros [H1 H2] v' x'. unfold lyap, x', v'.
  set (A := 18 - (4 - 16 * d / 45) * (4 - 16 * d / 45)
            - 4 * ((1 - d / 180) * (1 - d / 180))).
  set (B := 3.6 - (16 * d / 15) * (4 - 16 * d / 45)
            - 4 * ((1 - d / 180) * (d / 60))).
  set (C := 0.9 - (16 * d / 15) * (16 * d / 15) - 4 * ((d / 60) * (d / 60))).
  assert (HA : 0 < A) by (unfold A; nra).
  assert (HD : 0 <= A * C - B * B) by (unfold A, B, C; nra).
  assert (HW :
    A * (0.9 * ((v + 4 * x) * (v + 4 * x) + 4 * (x * x))
         - (((v + - x * 20 * (1 / 60)) * d
             + 4 * (x + (v + - x * 20 * (1 / 60)) * d * (1 / 60)))
            * ((v + - x * 20 * (1 / 60)) * d
               + 4 * (x + (v + - x * 20 * (1 / 60)) * d * (1 / 60)))
            + 4 * ((x + (v + - x * 20 * (1 / 60)) * d * (1 / 60))
                   * (x + (v + - x * 20 * (1 / 60)) * d * (1 / 60)))))
    = (A * x + B * v) * (A * x + B * v) + (A * C - B * B) * (v * v)).
  { unfold A, B, C. lra. }
  assert (H3 : 0 <= (A * x + B * v) * (A * x + B * v))
    by (pose proof (Rle_0_sqr (A * x + B * v)) as H; exact H).
  assert (H4 : 0 <= (A * C - B * B) * (v * v)).
  { apply Rmult_le_pos; [exact HD |]. pose proof (Rle_0_sqr v) as H. exact H. }
  clearbody A B C.
  match type of HW with
  | A * ?w = _ =>
      assert (HAW : 0 <= A * w) by (rewrite HW; lra);
      assert (Hw : 0 <= w) by nra; lra
  end.
Qed.

Lemma lyap_bounds_offset (x v : R) : 4 * (x * x) <= lyap x v.
Proof.
  unfold lyap. pose proof (Rle_0_sqr (v + 4 * x)) as H.
  unfold Rsqr in H. lra.
Qed.

Lemma lyap_nonneg (x v : R) : 0 <= lyap x v.
Proof.
  pose proof (lyap_bounds_offset x v) as H1.
  pose proof (Rle_0_sqr x) as H2. unfold Rsqr in H2. lra.
Qed.

Lemma hypot3_axis_abs (x : R) : hypot3 x 0 0 = Rabs x.
Proof.
  unfold hypot3. replace (x * x + 0 * 0 + 0 * 0) with (Rsqr x)
    by (unfold Rsqr; lra).
  apply sqrt_Rsqr_abs.
Qed.

Lemma buildPiecesByIndex_alone (this : IntroRenderer) (cells : list Cell) :
  solution this = [(0%Z, cells)] ->
  _buildPiecesByIndex this =
  [Some (renderOnePiece this None (0%Z, cells));
   None; None; None; None; None; None].
Proof.
  intros Hsol. unfold _buildPiecesByIndex, _getRenderPieces.
  rewrite Hsol. cbn [map fold_left].
  set (piece := renderOnePiece this None (0%Z, cells)).
  assert (Hidx : pieceIndex piece = 0%Z).
  { unfold piece, renderOnePiece.
    destruct (centroidSum cells) as [[sx sy] sz]. reflexivity. }
  rewrite Hidx. reflexivity.
Qed.

Lemma hole_of_nat {A} (arr : list (option A)) (i : nat) :
  hole arr (Z.of_nat i) =
  match nth_error arr i with Some (Some a) => Some a | _ => None end.
Proof.
  unfold hole, aget.
  replace (Z.of_nat i <? 0)%Z with false by (symmetry; apply Z.ltb_ge; lia).
  rewrite Nat2Z.id. reflexivity.
Qed.

Lemma of_nat_is_not_minus_one (i : nat) : (Z.of_nat i =? -1)%Z = false.
Proof. apply Z.eqb_neq. lia. Qed.

Lemma resolveDynamicPieceCollisions_alone
  (this : IntroRenderer) (piece : RenderPiece) :
  draggingPiece this = (-1)%Z ->
  _resolveDynamicPieceCollisions
    [Some piece; None; None; None; None; None; None] this = Some this.
Proof.
  intros Hdrag.
  unfold _resolveDynamicPieceCollisions, forIndex, forFrom, pairStep.
  cbn [length seq fold_left Nat.add Nat.sub].
  repeat (cbn [bind];
          rewrite ?Hdrag, ?of_nat_is_not_minus_one, ?hole_of_nat;
          cbn [nth_error]).
  reflexivity.
Qed.

(** With a single piece in the solution and nothing dragged, the collision
    pass of a physics slice finds no pair to resolve: the slice is
    [integrateAndTrim]. *)
Lemma solvePieceCollisions_alone
  (stepDt : R) (this : IntroRenderer) (cells : list Cell) :
  solution this = [(0%Z, cells)] ->
  draggingPiece this = (-1)%Z ->
  _solvePieceCollisions stepDt this = Some this.
Proof.
  intros Hsol Hdrag. unfold _solvePieceCollisions.
  rewrite Hdrag. change (-1 >=? 0)%Z with false. cbv iota. cbn [bind].
  rewrite (buildPiecesByIndex_alone this cells Hsol).
  apply resolveDynamicPieceCollisions_alone. exact Hdrag.
Qed.

Lemma integrate_single (this : IntroRenderer) (x v : R) :
  singlePiece this x v ->
  exists this',
    _integratePieceMotion (1 / 60) this = Some this' /\
    solution this' = solution this /\
    singlePiece this'
      (x + (v + - x * 20 * (1 / 60)) * exp (- 8 * (1 / 60)) * (1 / 60))
      ((v + - x * 20 * (1 / 60)) * exp (- 8 * (1 / 60))).
Proof.
  intros (Ho & Hv & Hd & Hk & Hc & Hg).
  unfold _integratePieceMotion, forIndex. rewrite Ho. cbn [length seq fold_left].
  cbn [bind]. unfold integratePiece. rewrite Hd, Ho, Hv.
  cbn [Z.of_nat Z.eqb nth_error bind c0 c1 c2].
  rewrite Hk, Hc, Hg.
  cbn [bind draggingPiece putOffset putVelocity set_pieceOffsets
       set_pieceVelocities].
  rewrite Hd. cbn [Z.geb Z.compare].
  eexists. split; [reflexivity |]. split; [reflexivity |].
  unfold singlePiece.
  cbn [putOffset putVelocity set_pieceOffsets set_pieceVelocities
       _pieceOffsets _pieceVelocities draggingPiece settings
       _springStrength _linearDamping _gravityStrength].
  rewrite Ho, Hv. cbn [nset].
  repeat split; try assumption; f_equal; f_equal; lra.
Qed.

Lemma trim_single (this : IntroRenderer) (x v : R) :
  singlePiece this x v ->
  exists this',
    _trimTinyMotion this = Some this' /\
    solution this' = solution this /\
    (singlePiece this' x v \/ singlePiece this' 0 0).
Proof.
  intros (Ho & Hv & Hd & Hk & Hc & Hg).
  unfold _trimTinyMotion, forIndex. rewrite Ho. cbn [length seq fold_left].
  cbn [bind]. unfold trimPiece. rewrite Hd, Ho, Hv.
  cbn [Z.of_nat Z.eqb nth_error bind c0 c1 c2].
  destruct (_ && _).
  - eexists. split; [reflexivity |]. split; [reflexivity |].
    right. unfold singlePiece.
    cbn [putOffset putVelocity set_pieceOffsets set_pieceVelocities
         _pieceOffsets _pieceVelocities draggingPiece settings
         _springStrength _linearDamping _gravityStrength].
    rewrite Ho, Hv. cbn [nset]. repeat split; assumption.
  - exists this. split; [reflexivity |]. split; [reflexivity |].
    left. repeat split; assumption.
Qed.

Lemma integrateAndTrim_single (this : IntroRenderer) (x v : R) :
  singlePiece this x v ->
  exists this' x' v',
    integrateAndTrim (1 / 60) this = Some this' /\
    singlePiece this' x' v' /\
    lyap x' v' <= 0.9 * lyap x v.
Proof.
  intros Hs. unfold integrateAndTrim.
  destruct (integrate_single this x v Hs) as (this1 & Hrun1 & _ & Hs1).
  rewrite Hrun1. cbn [bind].
  destruct (trim_single this1 _ _ Hs1) as (this2 & Hrun2 & _ & [Hs2 | Hs2]).
  - do 3 eexists. split; [exact Hrun2 |]. split; [exact Hs2 |].
    apply (integration_contracts _ x v damping_factor_range).
  - exists this2, 0, 0. split; [exact Hrun2 |]. split; [exact Hs2 |].
    pose proof (lyap_nonneg x v). unfold lyap at 1. lra.
Qed.

(** The same slice inside the frame loop, collisions included, when the
    solution holds that one piece. *)
Lemma physicsSubstep_single
  (this : IntroRenderer) (x v : R) (cells : list Cell) :
  singlePiece this x v /\ solution this = [(0%Z, cells)] ->
  exists this' x' v',
    physicsSubstep (1 / 60) this = Some this' /\
    (singlePiece this' x' v' /\ solution this' = [(0%Z, cells)]) /\
    lyap x' v' <= 0.9 * lyap x v.
Proof.
  intros [Hs Hsol]. unfold physicsSubstep.
  destruct (integrate_single this x v Hs) as (this1 & Hrun1 & Hsol1 & Hs1).
  rewrite Hrun1. cbn [bind].
  rewrite (solvePieceCollisions_alone (1 / 60) this1 cells)
    by (try congruence; apply Hs1).
  cbn [bind].
  destruct (trim_single this1 _ _ Hs1)
    as (this2 & Hrun2 & Hsol2 & [Hs2 | Hs2]).
  - do 3 eexists. split; [exact Hrun2 |].
    split; [split; [exact Hs2 | congruence] |].
    apply (integration_contracts _ x v damping_factor_range).
  - exists this2, 0, 0. split; [exact Hrun2 |].
    split; [split; [exact Hs2 | congruence] |].
    pose proof (lyap_nonneg x v). unfold lyap at 1. lra.
Qed.

Section Iteration.

Variable body : IntroRenderer -> option IntroRenderer.
Variable Inv : IntroRenderer -> R -> R -> Prop.

Hypothesis body_contracts :
  forall this x v, Inv this x v ->
  exists this' x' v',
    body this = Some this' /\ Inv this' x' v' /\
    lyap x' v' <= 0.9 * lyap x v.

Lemma contracting_steps (n : nat) (this : IntroRenderer) (x v : R) :
  Inv this x v ->
  exists this' x' v',
    repeatStep n body this = Some this' /\
    Inv this' x' v' /\
    lyap x' v' <= 0.9 ^ n * lyap x v.
Proof.
  revert this x v. induction n as [| n IH]; intros this x v Hs.
  - exists this, x, v. split; [reflexivity |]. split; [exact Hs |].
    simpl. lra.
  - destruct (body_contracts this x v Hs)
      as (this1 & x1 & v1 & Hrun1 & Hs1 & Hl1).
    destruct (IH this1 x1 v1 Hs1) as (this2 & x2 & v2 & Hrun2 & Hs2 & Hl2).
    exists this2, x2, v2. cbn [repeatStep]. rewrite Hrun1. cbn [bind].
    split; [exact Hrun2 |]. split; [exact Hs2 |].
    assert (Hp : 0 <= 0.9 ^ n) by (apply pow_le; lra).
    change (0.9 ^ S n) with (0.9 * 0.9 ^ n).
    assert (0.9 ^ n * lyap x1 v1 <= 0.9 ^ n * (0.9 * lyap x v))
      by (apply Rmult_le_compat_l; assumption).
    lra.
Qed.

End Iteration.

Lemma integrateAndTrim_iterated (n : nat) (this : IntroRenderer) (x v : R) :
  singlePiece this x v ->
  exists this' x' v',
    repeatStep n (integrateAndTrim (1 / 60)) this = Some this' /\
    singlePiece this' x' v' /\
    lyap x' v' <= 0.9 ^ n * lyap x v.
Proof.
  apply (contracting_steps (integrateAndTrim (1 / 60)) singlePiece
           integrateAndTrim_single).
Qed.

Lemma settled_after_three_seconds (x v : R) :
  lyap x v <= 0.9 ^ 180 * lyap 2 0 -> hypot3 x 0 0 < 0.01.
Proof.
  intros Hl. rewrite hypot3_axis_abs.
  pose proof (lyap_bounds_offset x v) as Hx.
  assert (Hsmall : 0.9 ^ 180 * lyap 2 0 < 0.0004)
    by (unfold lyap; simpl; lra).
  assert (Hxx : x * x < 0.0001) by lra.
  unfold Rabs. destruct (Rcase_abs x); nra.
Qed.

(** The scenario run through the frame loop's own slice
    ([physicsSubstep], collisions included) on a one-piece solution. *)
Lemma spring_scenario_in_frame_loop
  (this : IntroRenderer) (cells : list Cell) :
  singlePiece this 2 0 -> solution this = [(0%Z, cells)] ->
  exists final offset,
    repeatStep 180 (physicsSubstep (1 / 60)) this = Some final /\
    _pieceOffsets final = [offset] /\
    hypot3 (c0 offset) (c1 offset) (c2 offset) < 0.01.
Proof.
  intros Hs Hsol.
  destruct (contracting_steps (physicsSubstep (1 / 60))
              (fun r x v => singlePiece r x v /\ solution r = [(0%Z, cells)])
              (fun r x v => physicsSubstep_single r x v cells)
              180 this 2 0 (conj Hs Hsol))
    as (final & x & v & Hrun & ((Hfo & _) & _) & Hl).
  exists final, (mk3 x 0 0). split; [exact Hrun |]. split; [exact Hfo |].
  apply (settled_after_three_seconds x v Hl).
Qed.

(** C5. A single piece, not dragged, at offset [[2, 0, 0]] with zero
    velocity, spring constant 20, damping 8 and gravity 0: running the
    integration step and the snap-to-rest 180 times with dt = 1/60 (three
    seconds) succeeds and leaves an offset of magnitude below 0.01. *)
Theorem C5_spring_scenario_settles (this : IntroRenderer) :
  _springStrength this = 20 ->
  _linearDamping this = 8 ->
  _gravityStrength this = 0 ->
  draggingPiece this = (-1)%Z ->
  _pieceOffsets this = [mk3 2 0 0] ->
  _pieceVelocities this = [mk3 0 0 0] ->
  exists final offset,
    repeatStep 180 (integrateAndTrim (1 / 60)) this = Some final /\
    _pieceOffsets final = [offset] /\
    hypot3 (c0 offset) (c1 offset) (c2 offset) < 0.01.
Proof.
  intros Hk Hc Hg Hd Ho Hv.
  destruct (integrateAndTrim_iterated 180 this 2 0)
    as (final & x & v & Hrun & (Hfo & _) & Hl).
  { repeat split; assumption. }
  exists final, (mk3 x 0 0). split; [exact Hrun |]. split; [exact Hfo |].
  apply (settled_after_three_seconds x v Hl).
Qed.

(** C5, instance: the scenario on a one-piece renderer. *)
Lemma C5_spring_scenario_witness :
  let this :=
    set_pieceVelocities [mk3 0 0 0]
      (set_pieceOffsets [mk3 2 0 0]
         (newIntroRenderer scenarioSettings [] 0)) in
  exists final offset,
    repeatStep 180 (integrateAndTrim (1 / 60)) this = Some final /\
    _pieceOffsets final = [offset] /\
    hypot3 (c0 offset) (c1 offset) (c2 offset) < 0.01.
Proof.
  intros this.
  exact (C5_spring_scenario_settles this eq_refl eq_refl eq_refl eq_refl
           eq_refl eq_refl).
Defined.


(* ################################################################# *)
(** * Further properties of the modelled code *)

(* ================================================================= *)
(** ** Cube and piece contacts *)

Lemma Rmax3_cases (x y z : R) :
  let m := Rmax (Rmax x y) z in
  x <= m /\ y <= m /\ z <= m /\ (m = x \/ m = y \/ m = z).
Proof.
  cbv zeta. unfold Rmax.
  destruct (Rle_dec x y); destruct (Rle_dec _ z); repeat split;
    try lra; auto.
Qed.

(** X1. [_getCubeContact] returns [null] exactly when the two centres are
    apart by more than the cube size plus the tolerance on some axis;
    otherwise the penetration is the cube size minus the largest per-axis
    distance, floored at 0, and the normal is a signed unit axis vector. *)
Theorem X1_cube_contact_characterised (this : Settings) (a b : vec3) :
  (_getCubeContact this a b = None <-> apart this a b) /\
  (forall contact, _getCubeContact this a b = Some contact ->
     cc_penetration contact =
       Rmax 0 (_cubeSize this
               - Rmax (Rmax (Rabs (c0 b - c0 a)) (Rabs (c1 b - c1 a)))
                      (Rabs (c2 b - c2 a))) /\
     In (cc_normal contact)
        [mk3 1 0 0; mk3 (-1) 0 0; mk3 0 1 0; mk3 0 (-1) 0;
         mk3 0 0 1; mk3 0 0 (-1)]).
Proof.
  split.
  - split; [| apply getCubeContact_apart].
    unfold _getCubeContact, apart. cbv zeta.
    case_Rltb (_cubeSize this - Rabs (c0 b - c0 a)) (- _touchEpsilon this) Hx;
      [intros _; left; lra |].
    case_Rltb (_cubeSize this - Rabs (c1 b - c1 a)) (- _touchEpsilon this) Hy;
      [intros _; right; left; lra |].
    case_Rltb (_cubeSize this - Rabs (c2 b - c2 a)) (- _touchEpsilon this) Hz;
      [intros _; right; right; lra |].
    cbn [orb]. destruct (Rltb _ _); destruct (Rltb _ _); discriminate.
  - intros contact. unfold _getCubeContact. cbv zeta.
    destruct (_ || _ || _); [discriminate |].
    pose proof (Rmax3_cases (Rabs (c0 b - c0 a)) (Rabs (c1 b - c1 a))
                            (Rabs (c2 b - c2 a))) as (M1 & M2 & M3 & M4).
    cbv zeta in M1, M2, M3, M4.
    set (ax := Rabs (c0 b - c0 a)) in *.
    set (ay := Rabs (c1 b - c1 a)) in *.
    set (az := Rabs (c2 b - c2 a)) in *.
    set (m := Rmax (Rmax ax ay) az) in *.
    case_Rltb (_cubeSize this - ay) (_cubeSize this - ax) Hyx.
    + case_Rltb (_cubeSize this - az) (_cubeSize this - ay) Hzy;
        intros [= <-]; cbn [cc_penetration cc_normal]; split;
        try (f_equal; lra);
        destruct (Rgeb _ 0); cbn [In]; auto 10.
    + case_Rltb (_cubeSize this - az) (_cubeSize this - ax) Hzx;
        intros [= <-]; cbn [cc_penetration cc_normal]; split;
        try (f_equal; lra);
        destruct (Rgeb _ 0); cbn [In]; auto 10.
Qed.

(** A vector divided by its (non-zero) length has length 1. *)
Lemma hypot3_normalised (x y z : R) :
  0 < hypot3 x y z ->
  hypot3 (x / hypot3 x y z) (y / hypot3 x y z) (z / hypot3 x y z) = 1.
Proof.
  intros Hpos. unfold hypot3 in *.
  assert (Hs : 0 <= x * x + y * y + z * z).
  { pose proof (Rle_0_sqr x). pose proof (Rle_0_sqr y).
    pose proof (Rle_0_sqr z). unfold Rsqr in *. lra. }
  pose proof (sqrt_sqrt _ Hs) as Hsq.
  remember (sqrt (x * x + y * y + z * z)) as len eqn:Elen.
  replace (x / len * (x / len) + y / len * (y / len) + z / len * (z / len))
    with ((x * x + y * y + z * z) / (len * len)) by (field; lra).
  rewrite Hsq.
  assert (Hss : 0 < x * x + y * y + z * z) by nra.
  replace ((x * x + y * y + z * z) / (x * x + y * y + z * z)) with 1
    by (field; lra).
  apply sqrt_1.
Qed.

(** A counted contact comes from a cube pair that is in contact. *)
Lemma inner_count_source (this : Settings) (a : vec3) (cubesB : list vec3)
  (acc : ContactAcc) :
  (contactCount acc
   < contactCount (fold_left (contactStep this a) cubesB acc))%nat ->
  exists b, In b cubesB /\ _getCubeContact this a b <> None.
Proof.
  revert acc. induction cubesB as [| b rest IH]; intros acc Hlt; simpl in Hlt.
  - lia.
  - destruct (_getCubeContact this a b) eqn:E.
    + exists b. split; [now left | congruence].
    + unfold contactStep in Hlt at 2. rewrite E in Hlt.
      destruct (IH acc Hlt) as (b' & Hin & Hc).
      exists b'. split; [now right | exact Hc].
Qed.

Lemma outer_count_source (this : Settings) (cubesA cubesB : list vec3) :
  (0 < contactCount (contactLoop this cubesA cubesB))%nat ->
  exists a b, In a cubesA /\ In b cubesB /\ _getCubeContact this a b <> None.
Proof.
  unfold contactLoop.
  assert (G : forall acc,
    (contactCount acc
     < contactCount
         (fold_left (fun acc a => fold_left (contactStep this a) cubesB acc)
                    cubesA acc))%nat ->
    exists a b, In a cubesA /\ In b cubesB /\
                _getCubeContact this a b <> None).
  { induction cubesA as [| a rest IH]; intros acc Hlt; simpl in Hlt; [lia |].
    destruct (Nat.eq_dec (contactCount acc)
                (contactCount (fold_left (contactStep this a) cubesB acc)))
      as [Heq | Hne].
    - rewrite Heq in Hlt. destruct (IH _ Hlt) as (a' & b & Ha & Hb & Hc).
      exists a', b. repeat split; auto. now right.
    - destruct (inner_le this a cubesB acc) as [_ Hle].
      destruct (inner_count_source this a cubesB acc ltac:(lia))
        as (b & Hb & Hc).
      exists a, b. repeat split; auto. now left. }
  intros H. apply (G contactAcc0). exact H.
Qed.

(** X2. Whatever the two pieces, a contact returned by [_getPieceContact]
    has a normal of length 1, a penetration between 0 and the cube size,
    counts at least one cube pair, and some cube pair of the two pieces is
    indeed not apart. *)
Theorem X2_piece_contact_is_well_formed
  (this : Settings) (pieceA pieceB : RenderPiece) (contact : PieceContact) :
  0 <= _cubeSize this ->
  _getPieceContact this pieceA pieceB = Some contact ->
  hypot3 (c0 (normal contact)) (c1 (normal contact)) (c2 (normal contact)) = 1
  /\ 0 <= penetration contact <= _cubeSize this
  /\ (1 <= contacts contact)%nat
  /\ exists a b, In a (cubes pieceA) /\ In b (cubes pieceB) /\
                 ~ apart this a b.
Proof.
  intros Hs. unfold _getPieceContact.
  set (acc := contactLoop this (cubes pieceA) (cubes pieceB)).
  destruct (Nat.eqb (contactCount acc) 0) eqn:Ec; [discriminate |].
  apply Nat.eqb_neq in Ec.
  case_Rltb (hypot3 (normalX acc) (normalY acc) (normalZ acc)) 0.00001 Hlen;
    [discriminate |].
  intros [= <-]. cbn [normal penetration contacts c0 c1 c2].
  split; [apply hypot3_normalised; lra |].
  split.
  - split.
    + destruct (outer_le this (cubes pieceA) (cubes pieceB) contactAcc0)
        as [H _].
      exact H.
    + apply outer_bound; [| exact Hs].
      intros a b c Hc. eapply getCubeContact_penetration_le; eauto.
  - split; [lia |].
    destruct (outer_count_source this (cubes pieceA) (cubes pieceB))
      as (a & b & Ha & Hb & Hc); [fold acc; lia |].
    exists a, b. repeat split; auto.
    intros Hap. apply Hc. apply getCubeContact_apart. exact Hap.
Qed.

(** A one-cube piece against a piece with the same cube is in contact. *)
Lemma single_cube_self_contact (this : Settings) (pieceA pieceB : RenderPiece)
  (a : vec3) :
  0 < _cubeSize this -> 0 <= _touchEpsilon this ->
  cubes pieceA = [a] -> cubes pieceB = [a] ->
  exists contact, _getPieceContact this pieceA pieceB = Some contact.
Proof.
  intros Hs He HA HB. unfold _getPieceContact, contactLoop.
  rewrite HA, HB. cbn [fold_left]. unfold contactStep.
  rewrite getCubeContact_same by assumption.
  cbn [cc_normal cc_penetration c0 c1 c2 contactAcc0 normalX normalY normalZ
       maxPenetration contactCount Nat.eqb].
  set (w := Rmax 0.005 (_cubeSize this + _touchEpsilon this)).
  assert (Hw : 0.005 <= w) by apply Rmax_l.
  replace (0 + 1 * w) with w by lra. replace (0 + 0 * w) with 0 by lra.
  rewrite hypot3_axis by lra.
  replace (Rltb w 0.00001) with false by (symmetry; apply Rltb_false; lra).
  eexists. reflexivity.
Qed.

(** X2, instance: a one-cube piece against itself, default settings. *)
Lemma X2_piece_contact_witness :
  let piece := {| pieceIndex := 0; center := mk3 0 0 0;
                  cubes := [mk3 0 0 0] |} in
  exists contact,
    _getPieceContact defaultSettings piece piece = Some contact /\
    hypot3 (c0 (normal contact)) (c1 (normal contact)) (c2 (normal contact))
    = 1 /\
    0 <= penetration contact <= 0.9.
Proof.
  intros piece.
  assert (Hs : 0 < _cubeSize defaultSettings) by (simpl; lra).
  assert (He : 0 <= _touchEpsilon defaultSettings) by (simpl; lra).
  destruct (single_cube_self_contact defaultSettings piece piece (mk3 0 0 0)
              Hs He eq_refl eq_refl) as (contact & E).
  exists contact. split; [exact E |].
  destruct (X2_piece_contact_is_well_formed defaultSettings piece piece
              contact (Rlt_le _ _ Hs) E) as (Hn & Hp & _).
  split; [exact Hn | exact Hp].
Defined.

(** A cube displaced along x only, within reach. *)
Lemma getCubeContact_along_x (this : Settings) (a : vec3) (d : R) :
  d <> 0 -> Rabs d <= _cubeSize this + _touchEpsilon this ->
  _getCubeContact this a (mk3 (c0 a + d) (c1 a) (c2 a)) =
  Some {| cc_normal := mk3 (if Rgeb d 0 then 1 else -1) 0 0;
          cc_penetration := Rmax 0 (_cubeSize this - Rabs d) |}.
Proof.
  intros Hd Hreach. unfold _getCubeContact. cbn [c0 c1 c2].
  replace (c0 a + d - c0 a) with d by lra.
  replace (c1 a - c1 a) with 0 by lra.
  replace (c2 a - c2 a) with 0 by lra.
  rewrite Rabs_R0.
  assert (Hpos : 0 < Rabs d) by (apply Rabs_pos_lt; exact Hd).
  assert (F1 : Rltb (_cubeSize this - Rabs d) (- _touchEpsilon this) = false)
    by (apply Rltb_false; lra).
  assert (F2 : Rltb (_cubeSize this - 0) (- _touchEpsilon this) = false)
    by (apply Rltb_false; lra).
  assert (F3 : Rltb (_cubeSize this - 0) (_cubeSize this - Rabs d) = false)
    by (apply Rltb_false; lra).
  cbv zeta. rewrite F1, F2. cbn [orb]. cbv beta iota.
  rewrite F3. cbv beta iota. rewrite F3. cbv beta iota. reflexivity.
Qed.

(** X3. Overlap does not force a contact: a cube with two cubes of the
    other piece placed symmetrically on either side of it along x, both
    within reach, gives two cube contacts whose weighted normals cancel,
    and [_getPieceContact] returns [null]. *)
Theorem X3_opposed_contacts_cancel
  (this : Settings) (pieceA pieceB : RenderPiece) (a : vec3) (h : R) :
  0 < h -> h <= _cubeSize this + _touchEpsilon this ->
  cubes pieceA = [a] ->
  cubes pieceB = [mk3 (c0 a + h) (c1 a) (c2 a);
                  mk3 (c0 a + - h) (c1 a) (c2 a)] ->
  (forall b, In b (cubes pieceB) -> _getCubeContact this a b <> None) /\
  _getPieceContact this pieceA pieceB = None.
Proof.
  intros Hh Hreach HA HB.
  assert (Habs : Rabs h = h) by (apply Rabs_pos_eq; lra).
  assert (Habs' : Rabs (- h) = h) by (rewrite Rabs_Ropp; exact Habs).
  pose proof (getCubeContact_along_x this a h ltac:(lra) ltac:(lra)) as E1.
  pose proof (getCubeContact_along_x this a (- h) ltac:(lra) ltac:(lra))
    as E2.
  split.
  - intros b Hb. rewrite HB in Hb.
    destruct Hb as [<- | [<- | []]]; [rewrite E1 | rewrite E2]; discriminate.
  - unfold _getPieceContact, contactLoop. rewrite HA, HB.
    cbn [fold_left]. unfold contactStep. rewrite E1, E2.
    rewrite Habs, Habs'.
    replace (Rgeb h 0) with true by (symmetry; apply Rgeb_true; lra).
    replace (Rgeb (- h) 0) with false by (symmetry; apply Rgeb_false; lra).
    cbn [cc_normal cc_penetration c0 c1 c2 contactAcc0 normalX normalY
         normalZ maxPenetration contactCount Nat.eqb].
    set (w := Rmax 0.005 (Rmax 0 (_cubeSize this - h) + _touchEpsilon this)).
    replace (0 + 1 * w + -1 * w) with 0 by lra.
    replace (0 + 0 * w + 0 * w) with 0 by lra.
    rewrite hypot3_axis by lra.
    replace (Rltb 0 0.00001) with true by (symmetry; apply Rltb_true; lra).
    reflexivity.
Qed.

(** X3, instance: a cube at the origin between cubes at x = 0.5 and
    x = -0.5. *)
Lemma X3_opposed_contacts_witness :
  let pieceA := {| pieceIndex := 0; center := mk3 0 0 0;
                   cubes := [mk3 0 0 0] |} in
  let pieceB := {| pieceIndex := 1; center := mk3 0 0 0;
                   cubes := [mk3 (0 + 0.5) 0 0; mk3 (0 + - (0.5)) 0 0] |} in
  _getPieceContact defaultSettings pieceA pieceB = None.
Proof.
  intros pieceA pieceB.
  apply (X3_opposed_contacts_cancel defaultSettings pieceA pieceB
           (mk3 0 0 0) 0.5).
  - lra.
  - simpl. lra.
  - reflexivity.
  - reflexivity.
Defined.

(* ================================================================= *)
(** ** Easing *)

Lemma cube_monotone (x y : R) : 0 <= x -> x <= y -> x * x * x <= y * y * y.
Proof.
  intros Hx Hxy.
  assert (H1 : x * x <= y * y) by nra.
  assert (H2 : 0 <= x * x) by nra.
  nra.
Qed.

Lemma easeInOutCubic_range (t : R) : 0 <= _easeInOutCubic t <= 1.
Proof.
  unfold _easeInOutCubic, Rgeb.
  case_Rleb t 0 H0; [lra |].
  case_Rleb 1 t H1; [lra |].
  case_Rltb t 0.5 Hh.
  - pose proof (cube_monotone 0 t ltac:(lra) ltac:(lra)).
    pose proof (cube_monotone t 0.5 ltac:(lra) ltac:(lra)). lra.
  - simpl.
    pose proof (cube_monotone 0 (-2 * t + 2) ltac:(lra) ltac:(lra)).
    pose proof (cube_monotone (-2 * t + 2) 1 ltac:(lra) ltac:(lra)). lra.
Qed.

(** X4. The easing curve [_easeInOutCubic] stays within [0, 1], is 0 at
    (and before) 0 and 1 at (and after) 1, never decreases, and is
    symmetric about the midpoint: ease(t) + ease(1 - t) = 1. *)
Theorem X4_easing_curve (t u : R) :
  0 <= _easeInOutCubic t <= 1 /\
  (t <= 0 -> _easeInOutCubic t = 0) /\
  (1 <= t -> _easeInOutCubic t = 1) /\
  (t <= u -> _easeInOutCubic t <= _easeInOutCubic u) /\
  _easeInOutCubic t + _easeInOutCubic (1 - t) = 1.
Proof.
  split; [apply easeInOutCubic_range |].
  split.
  { intros H. unfold _easeInOutCubic.
    replace (Rleb t 0) with true by (symmetry; apply Rleb_true; lra).
    reflexivity. }
  split.
  { intros H. unfold _easeInOutCubic, Rgeb.
    case_Rleb t 0 H0; [lra |].
    replace (Rleb 1 t) with true by (symmetry; apply Rleb_true; lra).
    reflexivity. }
  split.
  { intros Htu.
    pose proof (easeInOutCubic_range t) as Rt.
    pose proof (easeInOutCubic_range u) as Ru.
    unfold _easeInOutCubic, Rgeb in *.
    case_Rleb t 0 Ht0; [lra |].
    case_Rleb u 0 Hu0; [lra |].
    case_Rleb 1 u Hu1; [lra |].
    case_Rleb 1 t Ht1; [lra |].
    case_Rltb t 0.5 Hth; case_Rltb u 0.5 Huh; try lra.
    - pose proof (cube_monotone t u ltac:(lra) Htu). lra.
    - simpl.
      pose proof (cube_monotone t 0.5 ltac:(lra) ltac:(lra)).
      pose proof (cube_monotone (-2 * u + 2) 1 ltac:(lra) ltac:(lra)). lra.
    - simpl.
      pose proof (cube_monotone (-2 * u + 2) (-2 * t + 2)
                    ltac:(lra) ltac:(lra)). lra. }
  unfold _easeInOutCubic, Rgeb.
  case_Rleb t 0 Ht0.
  { replace (Rleb (1 - t) 0) with false by (symmetry; apply Rleb_false; lra).
    replace (Rleb 1 (1 - t)) with true by (symmetry; apply Rleb_true; lra).
    lra. }
  case_Rleb 1 t Ht1.
  { replace (Rleb (1 - t) 0) with true by (symmetry; apply Rleb_true; lra).
    lra. }
  replace (Rleb (1 - t) 0) with false by (symmetry; apply Rleb_false; lra).
  replace (Rleb 1 (1 - t)) with false by (symmetry; apply Rleb_false; lra).
  case_Rltb t 0.5 Hth.
  - replace (Rltb (1 - t) 0.5) with false
      by (symmetry; apply Rltb_false; lra).
    simpl. lra.
  - case_Rltb (1 - t) 0.5 Hsh; simpl; [lra |].
    assert (t = 0.5) by lra. subst t. lra.
Qed.

(* ================================================================= *)
(** ** Explode slider *)

(** X5. With a slider attached, [setExplode] leaves the slider at an
    integer between 0 and 100; and for an integer [v] in that range
    [setExplode(v / 50)] (what the page's input handler calls) leaves the
    slider showing [v] and the explode amount at [v / 50]. *)
Theorem X5_slider_follows_explode
  (this : IntroRenderer) (slider : Slider) (amount : R) (v : Z) :
  _explodeSlider this = Some slider ->
  (exists shown,
     _explodeSlider (setExplode amount this) = Some shown /\
     (0 <= value shown <= 100)%Z) /\
  ((0 <= v <= 100)%Z ->
   _explodeSlider (setExplode (IZR v / 50) this) = Some {| value := v |} /\
   explodeAmount (setExplode (IZR v / 50) this) = IZR v / 50).
Proof.
  intros Hslider.
  assert (Hsync : forall amt,
    _explodeSlider (setExplode amt this) =
    Some {| value := Zfloor (Rmax 0 (Rmin 2 amt) * 50 + / 2) |}).
  { intros amt. unfold setExplode, _syncExplodeSlider.
    cbn [_explodeSlider explodeAmount set_explodeAmount]. rewrite Hslider.
    destruct (Z.eqb_spec (Zfloor (Rmax 0 (Rmin 2 amt) * 50 + / 2))
                         (value slider)) as [E | E].
    - cbn [_explodeSlider set_explodeAmount]. rewrite Hslider, E.
      destruct slider. reflexivity.
    - reflexivity. }
  split.
  - eexists. split; [apply Hsync |]. cbn [value].
    set (clamped := Rmax 0 (Rmin 2 amount)).
    assert (Hc : 0 <= clamped <= 2).
    { unfold clamped. split; [apply Rmax_l |].
      apply Rmax_lub; [lra | apply Rmin_l]. }
    pose proof (Zfloor_bound (clamped * 50 + / 2)) as [Hlo Hhi].
    split.
    + assert (H : (-1 < Zfloor (clamped * 50 + / 2))%Z)
        by (apply lt_IZR; lra).
      lia.
    + assert (H : (Zfloor (clamped * 50 + / 2) < 101)%Z)
        by (apply lt_IZR; lra).
      lia.
  - intros [Hv0 Hv100]. split.
    + rewrite Hsync. do 2 f_equal.
      apply IZR_le in Hv0. apply IZR_le in Hv100.
      rewrite Rmin_right by lra. rewrite Rmax_right by lra.
      apply Zfloor_eq. lra.
    + unfold setExplode.
      destruct (syncExplodeSlider_frame
                  (set_explodeAmount (IZR v / 50) this)) as (E & _).
      rewrite E. reflexivity.
Qed.

(** X5, instance: the slider at 0, moved by the user to 35. *)
Lemma X5_slider_witness :
  let this :=
    set_explodeSlider (Some {| value := 0 |})
      (newIntroRenderer defaultSettings [] 0) in
  _explodeSlider (setExplode (IZR 35 / 50) this) = Some {| value := 35 |}.
Proof.
  intros this.
  exact (proj1 (proj2 (X5_slider_follows_explode this {| value := 0 |} 0 35
                         eq_refl) ltac:(lia))).
Defined.

(* ================================================================= *)
(** ** Bounding box *)

Lemma boxStep_boxes (half : R) (acc : BoxAcc) (cube : vec3) :
  acc = boxAcc0 \/ boxedAcc half acc -> boxedAcc half (boxStep half acc cube).
Proof.
  intros [-> | (mnX & mnY & mnZ & mxX & mxY & mxZ & -> & Hx & Hy & Hz)];
    unfold boxStep, boxedAcc; cbn.
  - do 6 eexists. split; [reflexivity |]. repeat split; lra.
  - do 6 eexists. split; [reflexivity |].
    pose proof (Rmin_l mnX (c0 cube - half)).
    pose proof (Rmin_l mnY (c1 cube - half)).
    pose proof (Rmin_l mnZ (c2 cube - half)).
    pose proof (Rmax_l mxX (c0 cube + half)).
    pose proof (Rmax_l mxY (c1 cube + half)).
    pose proof (Rmax_l mxZ (c2 cube + half)).
    repeat split; lra.
Qed.

Lemma box_inner_loop (half : R) (cubes : list vec3) (acc : BoxAcc) :
  acc = boxAcc0 \/ boxedAcc half acc ->
  let acc' := fold_left (boxStep half) cubes acc in
  (cubes = [] /\ acc' = acc) \/ boxedAcc half acc'.
Proof.
  revert acc. induction cubes as [| cube rest IH]; intros acc Hacc; simpl.
  - left. split; reflexivity.
  - right. destruct (IH (boxStep half acc cube)) as [[_ E] | Hb].
    + right. apply boxStep_boxes. exact Hacc.
    + rewrite E. apply boxStep_boxes. exact Hacc.
    + exact Hb.
Qed.

Lemma box_outer_loop (half : R) (pieces : list RenderPiece) (acc : BoxAcc) :
  acc = boxAcc0 \/ boxedAcc half acc ->
  let acc' :=
    fold_left (fun acc piece => fold_left (boxStep half) (cubes piece) acc)
              pieces acc in
  ((forall piece, In piece pieces -> cubes piece = []) /\ acc' = acc) \/
  boxedAcc half acc'.
Proof.
  revert acc. induction pieces as [| piece rest IH]; intros acc Hacc; simpl.
  - left. split; [intros p [] | reflexivity].
  - destruct (box_inner_loop half (cubes piece) acc Hacc) as [[He E] | Hb].
    + rewrite E. destruct (IH acc Hacc) as [[Hall E'] | Hb'].
      * left. split; [| exact E'].
        intros p [<- | Hp]; [exact He | apply Hall; exact Hp].
      * right. exact Hb'.
    + destruct (IH _ (or_intror Hb)) as [[_ E'] | Hb'].
      * right. rewrite E'. exact Hb.
      * right. exact Hb'.
Qed.

Lemma box_no_cube (half : R) (pieces : list RenderPiece) (acc : BoxAcc) :
  (forall piece, In piece pieces -> cubes piece = []) ->
  fold_left (fun acc piece => fold_left (boxStep half) (cubes piece) acc)
            pieces acc = acc.
Proof.
  revert acc. induction pieces as [| p rest IH]; intros acc Hall; simpl;
    [reflexivity |].
  rewrite (Hall p (or_introl eq_refl)). simpl.
  apply IH. intros q Hq. apply Hall. now right.
Qed.

(** X6. The bounding-box volume is never negative; it is 0 when no piece
    has a cube, and at least the volume of one cube ([cubeSize] cubed) as
    soon as any piece has one. *)
Theorem X6_bounding_box_volume
  (this : IntroRenderer) (renderPieces : list RenderPiece) :
  0 <= _cubeSize this ->
  0 <= _computePiecesBoundingBox this renderPieces /\
  ((forall piece, In piece renderPieces -> cubes piece = []) ->
   _computePiecesBoundingBox this renderPieces = 0) /\
  ((exists piece, In piece renderPieces /\ cubes piece <> []) ->
   _cubeSize this * _cubeSize this * _cubeSize this
   <= _computePiecesBoundingBox this renderPieces).
Proof.
  intros Hs.
  assert (Hempty : (forall piece, In piece renderPieces -> cubes piece = []) ->
                   _computePiecesBoundingBox this renderPieces = 0).
  { intros Hall. unfold _computePiecesBoundingBox. cbv zeta.
    rewrite (box_no_cube _ renderPieces boxAcc0 Hall). reflexivity. }
  unfold _computePiecesBoundingBox in *. cbv zeta in *.
  destruct (box_outer_loop (_cubeSize this * 0.5) renderPieces boxAcc0
              (or_introl eq_refl)) as [[Hall E] | Hb].
  - cbv zeta in E. rewrite E. cbn. split; [lra |]. split; [reflexivity |].
    intros (piece & Hin & Hne). exfalso. apply Hne. apply Hall. exact Hin.
  - cbv zeta in Hb.
    destruct Hb as (mnX & mnY & mnZ & mxX & mxY & mxZ & E & Hx & Hy & Hz).
    split; [| split; [exact Hempty |]]; rewrite E;
      cbn [minX minY minZ maxX maxY maxZ].
    + pose proof (Rmax_l 0 (mxX - mnX)). pose proof (Rmax_l 0 (mxY - mnY)).
      pose proof (Rmax_l 0 (mxZ - mnZ)).
      apply Rmult_le_pos; [apply Rmult_le_pos |]; assumption.
    + intros _.
      assert (Bx : _cubeSize this <= Rmax 0 (mxX - mnX))
        by (eapply Rle_trans; [| apply Rmax_r]; lra).
      assert (By : _cubeSize this <= Rmax 0 (mxY - mnY))
        by (eapply Rle_trans; [| apply Rmax_r]; lra).
      assert (Bz : _cubeSize this <= Rmax 0 (mxZ - mnZ))
        by (eapply Rle_trans; [| apply Rmax_r]; lra).
      apply Rmult_le_compat; try exact Bz; try lra.
      * apply Rmult_le_pos; exact Hs.
      * apply Rmult_le_compat; lra.
Qed.

(** X6, instance: one cube, default cube size. *)
Lemma X6_bounding_box_witness :
  let this := newIntroRenderer defaultSettings [] 0 in
  let pieces := [{| pieceIndex := 0; center := mk3 0 0 0;
                    cubes := [mk3 0 0 0] |}] in
  0.9 * 0.9 * 0.9 <= _computePiecesBoundingBox this pieces.
Proof.
  intros this pieces.
  assert (Hs : 0 <= _cubeSize this) by (cbn; lra).
  apply (proj2 (proj2 (X6_bounding_box_volume this pieces Hs))).
  eexists. split; [left; reflexivity | discriminate].
Defined.












(* ================================================================= *)
(** ** Reassembly: every step and the ranking of the pieces *)

Lemma scale3_one (v : vec3) : scale3 (1 - 0) v = v.
Proof. destruct v. unfold scale3. cbn. f_equal; lra. Qed.

Lemma scale3_zero (v : vec3) : scale3 (1 - 1) v = zero3.
Proof. destruct v. unfold scale3, zero3. cbn. f_equal; lra. Qed.

Lemma localT_done (elapsed delay dur : R) :
  0 < dur -> (1 <= (elapsed - delay) / dur <-> delay + dur <= elapsed).
Proof.
  intros Hd.
  assert (E : (elapsed - delay) / dur - 1 = (elapsed - delay - dur) / dur)
    by (field; lra).
  split; intros H.
  - destruct (Rle_dec (delay + dur) elapsed) as [|Hn]; [assumption |].
    assert (0 < (delay + dur - elapsed) / dur)
      by (apply Rdiv_lt_0_compat; lra).
    assert ((delay + dur - elapsed) / dur = - ((elapsed - delay - dur) / dur))
      by (field; lra).
    lra.
  - destruct (Req_dec (delay + dur) elapsed) as [<- | Hne].
    + replace ((delay + dur - delay) / dur) with 1 by (field; lra). lra.
    + assert (0 < (elapsed - delay - dur) / dur)
        by (apply Rdiv_lt_0_compat; lra).
      lra.
Qed.

(** What one pass of the per-piece loop does to piece [i]. *)
Lemma reassemblePieceStep_spec
  (state : ReassembleState) (elapsed : R) (i : nat)
  (allDone : bool) (this : IntroRenderer) (delay : R) (start : vec3) :
  nth_error (delays state) i = Some delay ->
  nth_error (startOffsets state) i = Some start ->
  (i < length (_pieceVelocities this))%nat ->
  (i < length (_pieceOffsets this))%nat ->
  reassemblePieceStep state elapsed i (allDone, this) =
  Some (allDone && Rgeb ((elapsed - delay) / duration state) 1,
        putVelocity i zero3
          (putOffset i
             (scale3 (1 - _easeInOutCubic ((elapsed - delay) / duration state))
                     start)
             this)).
Proof.
  intros Hd Hs Hv Ho. unfold reassemblePieceStep.
  destruct (nth_error_in_range _ _ Hv) as (v & Hvv).
  destruct (nth_error_in_range _ _ Ho) as (o & Hoo).
  rewrite Hd, Hs, Hvv, Hoo. cbn [bind].
  unfold _easeInOutCubic, Rgeb.
  case_Rleb ((elapsed - delay) / duration state) 0 H0.
  - replace (Rleb 1 ((elapsed - delay) / duration state)) with false
      by (symmetry; apply Rleb_false; lra).
    rewrite andb_false_r, scale3_one. reflexivity.
  - case_Rleb 1 ((elapsed - delay) / duration state) H1.
    + rewrite andb_true_r, scale3_zero. reflexivity.
    + rewrite andb_false_r. reflexivity.
Qed.

(** The whole step, for a renderer with one array slot per piece. *)
Lemma stepReassembleAnimation_spec
  (this : IntroRenderer) (state : ReassembleState) :
  _reassembleState this = Some state ->
  length (_pieceOffsets this) = length PIECES ->
  length (_pieceVelocities this) = length PIECES ->
  length (startOffsets state) = length PIECES ->
  length (delays state) = length PIECES ->
  0 < duration state ->
  let elapsed := _timeSec this - startTime state in
  exists this',
    _stepReassembleAnimation this = Some this' /\
    (forall i delay start,
       nth_error (delays state) i = Some delay ->
       nth_error (startOffsets state) i = Some start ->
       nth_error (_pieceOffsets this') i =
         Some (scale3
                 (1 - _easeInOutCubic ((elapsed - delay) / duration state))
                 start) /\
       nth_error (_pieceVelocities this') i = Some zero3) /\
    ((forall delay, In delay (delays state) ->
                    delay + duration state <= elapsed) ->
     _reassembleState this' = None /\ explodeAmount this' = 0) /\
    ((exists delay, In delay (delays state) /\
                    elapsed < delay + duration state) ->
     _reassembleState this' = Some state /\
     explodeAmount this' =
       startExplodeAmount state
       * (1 - _easeInOutCubic
                (Rmin 1 (Rmax 0 (elapsed / totalDuration state))))).
Proof.
  intros Hactive Hlo Hlv Hls Hld Hdur elapsed.
  unfold _stepReassembleAnimation. rewrite Hactive. fold elapsed.
  match goal with
  | |- context [forIndex _ _ (true, ?r)] => set (this1 := r)
  end.
  assert (H1 : _pieceOffsets this1 = _pieceOffsets this /\
               _pieceVelocities this1 = _pieceVelocities this /\
               _reassembleState this1 = Some state /\
               explodeAmount this1 =
                 startExplodeAmount state
                 * (1 - _easeInOutCubic
                          (Rmin 1 (Rmax 0 (elapsed / totalDuration state))))).
  { unfold this1.
    match goal with
    | |- context [_syncExplodeSlider ?r] =>
        destruct (syncExplodeSlider_frame r) as (E1 & E2 & E3 & E4 & _)
    end.
    rewrite E1, E2, E3, E4. cbn. rewrite Hactive. repeat split. }
  destruct H1 as (H1o & H1v & H1s & H1e).
  pose (expected := fun (delay : R) (start : vec3) =>
    scale3 (1 - _easeInOutCubic ((elapsed - delay) / duration state)) start).
  pose (Inv := fun (i : nat) (st : bool * IntroRenderer) =>
    length (_pieceOffsets (snd st)) = length PIECES /\
    length (_pieceVelocities (snd st)) = length PIECES /\
    _reassembleState (snd st) = Some state /\
    explodeAmount (snd st) = explodeAmount this1 /\
    (forall j delay start, (j < i)%nat ->
       nth_error (delays state) j = Some delay ->
       nth_error (startOffsets state) j = Some start ->
       nth_error (_pieceOffsets (snd st)) j = Some (expected delay start) /\
       nth_error (_pieceVelocities (snd st)) j = Some zero3) /\
    (fst st = true <->
     forall j delay, (j < i)%nat -> nth_error (delays state) j = Some delay ->
                     delay + duration state <= elapsed)).
  destruct (forIndex_invariant (reassemblePieceStep state elapsed) Inv
              (length PIECES) (true, this1))
    as ([allDone this2] & Hloop & Hfin).
  - unfold Inv. cbn [fst snd]. rewrite H1o, H1v.
    repeat split; auto; intros; lia.
  - intros i [done t] Hi (Hto & Htv & Hts & Hte & Hpieces & Hdone).
    cbn [fst snd] in *.
    destruct (nth_error_in_range (delays state) i ltac:(lia)) as (d & Hd).
    destruct (nth_error_in_range (startOffsets state) i ltac:(lia))
      as (s & Hs).
    eexists. split.
    + apply (reassemblePieceStep_spec state elapsed i done t d s Hd Hs); lia.
    + unfold Inv, putVelocity, putOffset. cbn.
      rewrite !length_nset.
      split; [exact Hto |]. split; [exact Htv |]. split; [exact Hts |].
      split; [exact Hte |]. split; [| split].
      * intros j delay start Hj Hdj Hsj.
        destruct (Nat.eq_dec i j) as [<- | Hne].
        -- rewrite !nth_error_nset_eq by lia. unfold expected.
           split; [congruence | reflexivity].
        -- rewrite !nth_error_nset_neq by exact Hne.
           apply (Hpieces j delay start); auto. lia.
      * intros Hb j delay Hj Hdj. apply andb_true_iff in Hb as [Hb1 Hb2].
        destruct (Nat.eq_dec i j) as [<- | Hne].
        -- assert (delay = d) by congruence. subst delay.
           apply Rgeb_true in Hb2. apply (localT_done _ _ _ Hdur). exact Hb2.
        -- apply (proj1 Hdone Hb1 j delay); auto. lia.
      * intros Hall. apply andb_true_iff. split.
        -- apply (proj2 Hdone). intros j delay Hj. apply Hall. lia.
        -- apply Rgeb_true. apply (localT_done _ _ _ Hdur).
           apply (Hall i d); auto.
  - rewrite Hloop. cbn [bind].
    destruct Hfin as (Hto & Htv & Hts & Hte & Hpieces & Hdone).
    cbn [fst snd] in *.
    assert (Hslots : forall i delay start,
              nth_error (delays state) i = Some delay ->
              nth_error (startOffsets state) i = Some start ->
              nth_error (_pieceOffsets this2) i = Some (expected delay start)
              /\ nth_error (_pieceVelocities this2) i = Some zero3).
    { intros i delay start Hd Hs. apply Hpieces; auto.
      assert (i < length (delays state))%nat
        by (apply nth_error_Some; congruence).
      lia. }
    destruct allDone.
    + eexists. split; [reflexivity |].
      match goal with
      | |- context [_setReassembleButtonVisible false ?r] =>
          destruct (setReassembleButtonVisible_frame false r)
            as (Fe & Fs & Fo & Fv & _)
      end.
      rewrite Fe, Fs, Fo, Fv.
      cbn [explodeAmount _reassembleState _pieceOffsets _pieceVelocities
           set_recoveryAttemptCount set_bboxExcess].
      match goal with
      | |- context [_syncExplodeSlider ?r] =>
          destruct (syncExplodeSlider_frame r) as (Se & Ss & So & Sv & _)
      end.
      rewrite Se, Ss, So, Sv.
      cbn [explodeAmount _reassembleState _pieceOffsets _pieceVelocities
           set_explodeAmount set_reassembleState].
      split; [exact Hslots |]. split; [intros _; split; reflexivity |].
      intros (delay & Hin & Hlate). exfalso.
      apply In_nth_error in Hin as (j & Hj).
      assert (Hjn : (j < length PIECES)%nat).
      { assert (j < length (delays state))%nat
          by (apply nth_error_Some; congruence).
        lia. }
      pose proof (proj1 Hdone eq_refl j delay Hjn Hj). lra.
    + exists this2. split; [reflexivity |].
      split; [exact Hslots |]. split.
      * intros Hall. exfalso.
        assert (false = true); [| discriminate].
        apply (proj2 Hdone). intros j delay Hj Hdj. apply Hall.
        eapply nth_error_In. exact Hdj.
      * intros _. split; [exact Hts |]. rewrite Hte. exact H1e.
Qed.

(** X8. One call of [_stepReassembleAnimation] on an active reassembly
    (one array slot per piece, positive duration) returns; afterwards every
    piece is at rest at its start offset scaled by
    [1 - ease((elapsed - delay) / duration)], a factor between 0 and 1; the
    reassembly state is dropped and the explode amount set to 0 exactly
    when every piece's window has passed, and otherwise the state is kept
    and the explode amount is the start amount eased over the total
    duration. *)
Theorem X8_reassembly_step
  (this : IntroRenderer) (state : ReassembleState) :
  _reassembleState this = Some state ->
  length (_pieceOffsets this) = length PIECES ->
  length (_pieceVelocities this) = length PIECES ->
  length (startOffsets state) = length PIECES ->
  length (delays state) = length PIECES ->
  0 < duration state ->
  let elapsed := _timeSec this - startTime state in
  exists this',
    _stepReassembleAnimation this = Some this' /\
    (forall i delay start,
       nth_error (delays state) i = Some delay ->
       nth_error (startOffsets state) i = Some start ->
       exists k,
         0 <= k <= 1 /\
         k = 1 - _easeInOutCubic ((elapsed - delay) / duration state) /\
         nth_error (_pieceOffsets this') i = Some (scale3 k start) /\
         nth_error (_pieceVelocities this') i = Some zero3) /\
    ((forall delay, In delay (delays state) ->
                    delay + duration state <= elapsed) ->
     _reassembleState this' = None /\ explodeAmount this' = 0) /\
    ((exists delay, In delay (delays state) /\
                    elapsed < delay + duration state) ->
     _reassembleState this' = Some state /\
     explodeAmount this' =
       startExplodeAmount state
       * (1 - _easeInOutCubic
                (Rmin 1 (Rmax 0 (elapsed / totalDuration state))))).
Proof.
  intros Hactive Hlo Hlv Hls Hld Hdur elapsed.
  destruct (stepReassembleAnimation_spec this state Hactive Hlo Hlv Hls Hld
              Hdur) as (this' & Hrun & Hslots & Hdone & Hbusy).
  exists this'. split; [exact Hrun |]. split; [| split; assumption].
  intros i delay start Hd Hs.
  destruct (Hslots i delay start Hd Hs) as [Ho Hv].
  eexists. split; [| split; [reflexivity | split; [exact Ho | exact Hv]]].
  pose proof (easeInOutCubic_range ((elapsed - delay) / duration state)).
  lra.
Qed.

(** X8, instance: the state of the C3 instance, stepped half-way (t = 0.4):
    the first piece, whose delay is 0, is in flight. *)
Lemma X8_reassembly_step_witness :
  let state :=
    {| startTime := 0;
       startOffsets := repeat (mk3 1 0 0) 7;
       delays := [0; 0.055; 0.11; 0.165; 0.22; 0.275; 0.33];
       duration := 0.5;
       totalDuration := 0.83;
       startExplodeAmount := 1 |} in
  let this :=
    set_reassembleState (Some state)
      (set_explodeAmount 1
         (set_pieceOffsets (repeat (mk3 1 0 0) 7)
            (newIntroRenderer defaultSettings [] 0.4))) in
  exists this',
    _stepReassembleAnimation this = Some this' /\
    _reassembleState this' = Some state /\
    nth_error (_pieceVelocities this') 0 = Some zero3.
Proof.
  intros state this.
  destruct (X8_reassembly_step this state eq_refl eq_refl eq_refl eq_refl
              eq_refl ltac:(simpl; lra))
    as (this' & Hrun & Hslots & _ & Hbusy).
  exists this'. split; [exact Hrun |]. split.
  - apply Hbusy. exists 0. split; [left; reflexivity |]. cbn. lra.
  - destruct (Hslots 0%nat 0 (mk3 1 0 0) eq_refl eq_refl)
      as (k & _ & _ & _ & Hv).
    exact Hv.
Defined.

(** *** Ranking by displacement *)

Lemma insertByMagnitude_sorted (entry : nat * R) (sorted : list (nat * R)) :
  StronglySorted rankedBefore sorted ->
  (forall x, In x sorted -> (fst x < fst entry)%nat) ->
  StronglySorted rankedBefore (insertByMagnitude entry sorted) /\
  Permutation (insertByMagnitude entry sorted) (entry :: sorted).
Proof.
  induction sorted as [| head tail IH]; intros Hsorted Hidx; simpl.
  - split; [repeat constructor | apply Permutation_refl].
  - apply StronglySorted_inv in Hsorted as [Htail Hhead].
    rewrite Forall_forall in Hhead.
    case_Rltb (snd head) (snd entry) Hlt.
    + split; [| apply Permutation_refl].
      constructor; [constructor; [exact Htail | apply Forall_forall; exact Hhead] |].
      apply Forall_forall. intros x [<- | Hx].
      * left. exact Hlt.
      * left. destruct (Hhead x Hx) as [H | [H _]]; lra.
    + destruct (IH Htail) as [IHs IHp].
      { intros x Hx. apply Hidx. now right. }
      split.
      * constructor; [exact IHs |].
        apply Forall_forall. intros x Hx.
        apply (Permutation_in _ IHp) in Hx. destruct Hx as [<- | Hx].
        -- destruct (Rle_lt_or_eq_dec _ _ Hlt) as [H | H].
           ++ left. exact H.
           ++ right. split; [symmetry; exact H |].
              apply Hidx. now left.
        -- apply Hhead. exact Hx.
      * eapply Permutation_trans; [apply perm_skip; exact IHp |].
        apply perm_swap.
Qed.

Lemma sort_loop_sorted (magnitudes : list R) (first : nat)
  (sorted : list (nat * R)) :
  StronglySorted rankedBefore sorted ->
  (forall x, In x sorted -> (fst x < first)%nat) ->
  let entries := combine (seq first (length magnitudes)) magnitudes in
  let result :=
    fold_left (fun sorted entry => insertByMagnitude entry sorted)
              entries sorted in
  StronglySorted rankedBefore result /\
  Permutation result (entries ++ sorted).
Proof.
  revert first sorted.
  induction magnitudes as [| m rest IH]; intros first sorted Hs Hidx; simpl.
  - split; [exact Hs | apply Permutation_refl].
  - destruct (insertByMagnitude_sorted (first, m) sorted Hs Hidx)
      as [Hs1 Hp1].
    destruct (IH (S first) (insertByMagnitude (first, m) sorted) Hs1)
      as [Hs2 Hp2].
    { intros x Hx. apply (Permutation_in _ Hp1) in Hx.
      destruct Hx as [<- | Hx]; [simpl; lia |].
      specialize (Hidx x Hx). lia. }
    split; [exact Hs2 |].
    eapply Permutation_trans; [exact Hp2 |].
    eapply Permutation_trans;
      [apply Permutation_app_head; exact Hp1 |].
    apply Permutation_sym. apply Permutation_middle.
Qed.

Lemma sortedFor_facts (offsets : list vec3) :
  StronglySorted rankedBefore (sortedFor offsets) /\
  Permutation (sortedFor offsets)
    (combine (seq 0 (length offsets)) (map magnitudeOf offsets)) /\
  length (sortedFor offsets) = length offsets.
Proof.
  unfold sortedFor, sortByMagnitude.
  pose proof (sort_loop_sorted (map magnitudeOf offsets) 0 []
                (SSorted_nil _) ltac:(intros x [])) as [Hs Hp].
  cbv zeta in Hs, Hp. rewrite length_map in Hs, Hp.
  rewrite app_nil_r in Hp.
  split; [exact Hs |]. split; [exact Hp |].
  rewrite (Permutation_length Hp), length_combine, length_seq, length_map.
  lia.
Qed.

Lemma combine_seq_nth {A} (l : list A) (first p : nat) (x : A) :
  In (p, x) (combine (seq first (length l)) l) <->
  (first <= p)%nat /\ nth_error l (p - first) = Some x.
Proof.
  revert first. induction l as [| h t IH]; intros first; simpl.
  - split; [intros [] |]. intros [_ H]. destruct (p - first)%nat; discriminate.
  - split.
    + intros [E | Hin].
      * injection E as <- <-. split; [lia |].
        replace (first - first)%nat with 0%nat by lia. reflexivity.
      * apply IH in Hin as [Hle Hn]. split; [lia |].
        replace (p - first)%nat with (S (p - S first)) by lia. exact Hn.
    + intros [Hle Hn]. destruct (Nat.eq_dec p first) as [-> | Hne].
      * left. replace (first - first)%nat with 0%nat in Hn by lia.
        simpl in Hn. congruence.
      * right. apply IH. split; [lia |].
        replace (p - first)%nat with (S (p - S first)) in Hn by lia.
        exact Hn.
Qed.


(** A write loop over distinct slots: each slot keeps what its own entry
    wrote. *)
Lemma delays_loop_slots (stagger : R)
  (ranked : list (nat * (nat * R))) (delays0 : list R) :
  NoDup (map (fun x => fst (snd x)) ranked) ->
  (forall x, In x ranked -> (fst (snd x) < length delays0)%nat) ->
  let delays :=
    fold_left
      (fun delays '(rank, entry) => nset delays (fst entry) (INR rank * stagger))
      ranked delays0 in
  (forall rank entry, In (rank, entry) ranked ->
     nth_error delays (fst entry) = Some (INR rank * stagger)) /\
  (forall slot, ~ In slot (map (fun x => fst (snd x)) ranked) ->
     nth_error delays slot = nth_error delays0 slot).
Proof.
  revert delays0.
  induction ranked as [| [rank0 entry0] rest IH]; intros delays0 Hnd Hlen;
    simpl.
  - split; [intros r e [] | reflexivity].
  - simpl in Hnd. apply NoDup_cons_iff in Hnd as [Hnotin Hnd].
    destruct (IH (nset delays0 (fst entry0) (INR rank0 * stagger)) Hnd)
      as [Hin Hout].
    { intros x Hx. rewrite length_nset. apply Hlen. now right. }
    split.
    + intros rank entry [E | Hr].
      * injection E as <- <-. rewrite (Hout _ Hnotin).
        apply nth_error_nset_eq.
        apply (Hlen (rank0, entry0)). now left.
      * apply Hin. exact Hr.
    + intros slot Hslot.
      rewrite Hout by (intros H; apply Hslot; now right).
      apply nth_error_nset_neq. intros E. apply Hslot. left.
      simpl. exact E.
Qed.

Lemma map_fst_combine_seq {A} (l : list A) (first : nat) :
  map fst (combine (seq first (length l)) l) = seq first (length l).
Proof.
  revert first. induction l as [| h t IH]; intros first; simpl;
    [reflexivity |].
  rewrite IH. reflexivity.
Qed.

Lemma map_snd_combine_seq {A B} (f : A -> B) (l : list A) (first : nat) :
  map (fun x : nat * A => f (snd x)) (combine (seq first (length l)) l)
  = map f l.
Proof.
  revert first. induction l as [| h t IH]; intros first; simpl;
    [reflexivity |].
  rewrite IH. reflexivity.
Qed.

(** The delays computed by [startReassembleAnimation]: the piece at
    position [rank] of the sorted list is delayed by [rank] times the
    stagger. *)
Lemma delaysFor_slots (stagger : R) (offsets : list vec3) (rank : nat)
  (entry : nat * R) :
  length offsets = length PIECES ->
  nth_error (sortedFor offsets) rank = Some entry ->
  nth_error (delaysFor stagger offsets) (fst entry)
  = Some (INR rank * stagger).
Proof.
  intros Hlen Hrank.
  destruct (sortedFor_facts offsets) as (Hs & Hp & Hl).
  assert (Hfst : map fst (combine (seq 0 (length offsets))
                                  (map magnitudeOf offsets))
                 = seq 0 (length offsets)).
  { rewrite <- (length_map magnitudeOf offsets) at 1.
    rewrite map_fst_combine_seq, length_map. reflexivity. }
  destruct (delays_loop_slots stagger
              (combine (seq 0 (length (sortedFor offsets)))
                       (sortedFor offsets))
              (repeat 0 (length PIECES))) as [Hslots _].
  - rewrite map_snd_combine_seq.
    apply (Permutation_NoDup
             (Permutation_sym (Permutation_map fst Hp))).
    rewrite Hfst. apply seq_NoDup.
  - intros [r e] Hin. cbn [fst snd]. apply in_combine_r in Hin.
    apply (Permutation_in _ Hp) in Hin.
    apply (in_map fst) in Hin. rewrite Hfst in Hin.
    apply in_seq in Hin. rewrite repeat_length. cbn [fst] in *. lia.
  - apply (Hslots rank entry).
    apply combine_seq_nth. split; [lia |].
    rewrite Nat.sub_0_r. exact Hrank.
Qed.

(** Every piece has a position in the sorted list. *)
Lemma sortedFor_rank (offsets : list vec3) (i : nat) (offset : vec3) :
  nth_error offsets i = Some offset ->
  exists rank,
    (rank < length offsets)%nat /\
    nth_error (sortedFor offsets) rank = Some (i, magnitudeOf offset).
Proof.
  intros Hi.
  destruct (sortedFor_facts offsets) as (Hs & Hp & Hl).
  assert (Hentry : In (i, magnitudeOf offset)
                      (combine (seq 0 (length offsets))
                               (map magnitudeOf offsets))).
  { rewrite <- (length_map magnitudeOf offsets).
    apply combine_seq_nth. split; [lia |].
    rewrite Nat.sub_0_r, nth_error_map, Hi. reflexivity. }
  apply (Permutation_in _ (Permutation_sym Hp)) in Hentry.
  apply In_nth_error in Hentry as (rank & Hrank).
  assert (Hrl : (rank < length (sortedFor offsets))%nat)
    by (apply nth_error_Some; congruence).
  exists rank. split; [lia | exact Hrank].
Qed.

(** What [_setReassembleButtonVisible] leaves alone besides the fields of
    [setReassembleButtonVisible_frame]. *)
Lemma setReassembleButtonVisible_keeps (visible : bool)
  (this : IntroRenderer) :
  let this' := _setReassembleButtonVisible visible this in
  settings this' = settings this /\
  _timeSec this' = _timeSec this /\
  _recoveryAttemptCount this' = _recoveryAttemptCount this /\
  _bboxExcess this' = _bboxExcess this /\
  camera this' = camera this /\
  _explodeSlider this' = _explodeSlider this.
Proof.
  unfold _setReassembleButtonVisible.
  destruct (Bool.eqb (_reassembleButtonVisible this) visible).
  - repeat split; reflexivity.
  - destruct visible; simpl; destruct (_reassembleButton this); simpl;
      repeat split; reflexivity.
Qed.

Lemma map_const_repeat {A B} (b : B) (l : list A) :
  map (fun _ => b) l = repeat b (length l).
Proof.
  induction l as [| a l IH]; simpl; [reflexivity | now rewrite IH].
Qed.

(** [startReassembleAnimation] on an idle renderer, field by field. *)
Lemma start_from_idle (this : IntroRenderer) :
  _reassembleState this = None ->
  let this' := startReassembleAnimation this in
  let delays := delaysFor (_reassembleStagger this) (_pieceOffsets this) in
  _reassembleState this' =
    Some {| startTime := _timeSec this;
            startOffsets := _pieceOffsets this;
            delays := delays;
            duration := _reassemblePieceDuration this;
            totalDuration :=
              totalDurationOf (_reassemblePieceDuration this) delays;
            startExplodeAmount := explodeAmount this |} /\
  _pieceOffsets this' = _pieceOffsets this /\
  _pieceVelocities this' = repeat zero3 (length (_pieceVelocities this)) /\
  explodeAmount this' = explodeAmount this /\
  _recoveryAttemptCount this' = 0%Z /\
  _reassembleButtonVisible this' = false /\
  settings this' = settings this /\
  _timeSec this' = _timeSec this.
Proof.
  intros Hidle this' delays. unfold this', startReassembleAnimation.
  rewrite Hidle.
  set (r := if (draggingPiece this >=? 0)%Z then _cancelHold true this
            else this).
  assert (Hr : settings r = settings this /\ _timeSec r = _timeSec this /\
               explodeAmount r = explodeAmount this /\
               _pieceOffsets r = _pieceOffsets this /\
               length (_pieceVelocities r) = length (_pieceVelocities this)).
  { unfold r. destruct (draggingPiece this >=? 0)%Z;
      [| repeat split; reflexivity].
    destruct (cancelHold_frame true this) as (H1 & H2 & H3 & _ & H5 & _).
    repeat split; try assumption.
    unfold _cancelHold. destruct (_pressState this) as [ps |].
    - destruct (active ps); cbn.
      + destruct (aget (_pieceVelocities this) (ps_pieceIndex ps)); cbn;
          [apply length_nset | reflexivity].
      + reflexivity.
    - reflexivity. }
  destruct Hr as (Hr1 & Hr2 & Hr3 & Hr4 & Hr5). cbv zeta.
  match goal with
  | |- context [_setReassembleButtonVisible false ?x] =>
      destruct (setReassembleButtonVisible_frame false x)
        as (F1 & F2 & F3 & F4 & _ & _ & F7);
      destruct (setReassembleButtonVisible_keeps false x)
        as (K1 & K2 & K3 & _)
  end.
  rewrite F1, F2, F3, F4, F7, K1, K2, K3.
  cbn [_reassembleState _pieceOffsets _pieceVelocities explodeAmount
       _recoveryAttemptCount settings _timeSec
       set_reassembleState set_pieceVelocities set_recoveryAttemptCount].
  change (_reassembleStagger r) with (_reassembleStagger (settings r)).
  change (_reassemblePieceDuration r)
    with (_reassemblePieceDuration (settings r)).
  rewrite Hr1, Hr2, Hr3, Hr4, map_const_repeat, Hr5.
  repeat split; reflexivity.
Qed.




(** *** How long a reassembly lasts *)

Lemma fold_Rmax_bounds (rest : list R) (first : R) :
  first <= fold_left Rmax rest first /\
  (forall d, In d rest -> d <= fold_left Rmax rest first) /\
  (forall bound, first <= bound -> (forall d, In d rest -> d <= bound) ->
     fold_left Rmax rest first <= bound).
Proof.
  revert first. induction rest as [| h t IH]; intros first; simpl.
  - split; [lra |]. split; [intros d [] | intros bound H _; exact H].
  - destruct (IH (Rmax first h)) as (IH1 & IH2 & IH3).
    pose proof (Rmax_l first h). pose proof (Rmax_r first h).
    split; [lra |]. split.
    + intros d [<- | Hd]; [lra | apply IH2; exact Hd].
    + intros bound Hf Hb. apply IH3.
      * apply Rmax_lub; [exact Hf | apply Hb; now left].
      * intros d Hd. apply Hb. now right.
Qed.

Lemma totalDurationOf_max (pieceDuration longest : R) (delays : list R) :
  0 <= longest -> In longest delays ->
  (forall d, In d delays -> d <= longest) ->
  totalDurationOf pieceDuration delays = pieceDuration + longest.
Proof.
  intros Hpos Hin Hmax. destruct delays as [| first rest]; [destruct Hin |].
  unfold totalDurationOf.
  destruct (fold_Rmax_bounds rest first) as (B1 & B2 & B3).
  assert (E : fold_left Rmax rest first = longest).
  { apply Rle_antisym.
    - apply B3; [apply Hmax; now left |].
      intros d Hd. apply Hmax. now right.
    - destruct Hin as [<- | Hin]; [exact B1 | apply B2; exact Hin]. }
  rewrite E. apply Rmax_right. lra.
Qed.

(** The delays of a reassembly of the seven pieces: the largest is six
    staggers, and it is the delay of some piece. *)
Lemma delaysFor_longest (stagger : R) (offsets : list vec3) :
  length offsets = length PIECES -> 0 <= stagger ->
  length (delaysFor stagger offsets) = length PIECES /\
  In (6 * stagger) (delaysFor stagger offsets) /\
  (forall d, In d (delaysFor stagger offsets) -> d <= 6 * stagger).
Proof.
  intros Hlen Hstag.
  destruct (sortedFor_facts offsets) as (Hs & Hp & Hl).
  assert (Hlength : length (delaysFor stagger offsets) = length PIECES).
  { unfold delaysFor.
    generalize (combine (seq 0 (length (sortedFor offsets)))
                        (sortedFor offsets)).
    intros ranked.
    assert (G : forall delays0 : list R,
              length (fold_left
                        (fun delays '(rank, entry) =>
                           nset delays (fst entry) (INR rank * stagger))
                        ranked delays0) = length delays0).
    { induction ranked as [| [rank entry] rest IH]; intros delays0; simpl;
        [reflexivity |].
      rewrite IH. apply length_nset. }
    rewrite G. apply repeat_length. }
  split; [exact Hlength |]. split.
  - destruct (nth_error (sortedFor offsets) 6) as [entry |] eqn:Hlast.
    + pose proof (delaysFor_slots stagger offsets 6 entry Hlen Hlast) as E.
      apply nth_error_In in E.
      replace (INR 6) with 6 in E by (simpl; lra). exact E.
    + apply nth_error_None in Hlast. rewrite Hl, Hlen in Hlast.
      simpl in Hlast. lia.
  - intros d Hd. apply In_nth_error in Hd as (i & Hi).
    assert (Hilt : (i < length offsets)%nat).
    { rewrite Hlen, <- Hlength. apply nth_error_Some. congruence. }
    destruct (nth_error offsets i) as [offset |] eqn:Hoff;
      [| apply nth_error_None in Hoff; lia].
    destruct (sortedFor_rank offsets i offset Hoff) as (rank & Hr & Hrank).
    pose proof (delaysFor_slots stagger offsets rank _ Hlen Hrank) as E.
    cbn [fst] in E. assert (d = INR rank * stagger) by congruence. subst d.
    apply Rmult_le_compat_r; [exact Hstag |].
    replace 6 with (INR 6) by (simpl; lra).
    apply le_INR. rewrite Hlen in Hr. simpl in Hr. lia.
Qed.

(** X10. A reassembly started on an idle renderer with one offset and one
    velocity per piece, a non-negative stagger and a positive piece duration
    lasts exactly the piece duration plus six staggers: that is the recorded
    total duration; a frame whose clock reading is earlier than the start
    plus that time leaves the reassembly active, and a frame whose reading
    is at or after it ends the reassembly with the explode amount at 0 and
    every piece at offset and velocity [[0, 0, 0]]. *)
Theorem X10_reassembly_lasts_duration_plus_six_staggers
  (this : IntroRenderer) (nowSec : R) :
  _reassembleState this = None ->
  length (_pieceOffsets this) = length PIECES ->
  length (_pieceVelocities this) = length PIECES ->
  0 <= _reassembleStagger this ->
  0 < _reassemblePieceDuration this ->
  let total := _reassemblePieceDuration this + 6 * _reassembleStagger this in
  let started := startReassembleAnimation this in
  exists state this',
    _reassembleState started = Some state /\
    totalDuration state = total /\
    _stepReassembleAnimation (_setupFrame nowSec started) = Some this' /\
    (nowSec - _timeSec this < total ->
     _reassembleState this' = Some state) /\
    (total <= nowSec - _timeSec this ->
     _reassembleState this' = None /\
     explodeAmount this' = 0 /\
     forall i, (i < length PIECES)%nat ->
       nth_error (_pieceOffsets this') i = Some zero3 /\
       nth_error (_pieceVelocities this') i = Some zero3).
Proof.
  intros Hidle Hlo Hlv Hstag Hdur total started.
  destruct (start_from_idle this Hidle)
    as (Hstate & Hoffs & Hvels & _ & _ & _ & _ & _).
  fold started in Hstate, Hoffs, Hvels.
  destruct (delaysFor_longest (_reassembleStagger this) (_pieceOffsets this)
              Hlo Hstag) as (Hdl & Hin & Hmax).
  match type of Hstate with _ = Some ?s => set (state := s) in * end.
  set (frame := _setupFrame nowSec started).
  assert (Hframe : _reassembleState frame = Some state /\
                   _pieceOffsets frame = _pieceOffsets this /\
                   _pieceVelocities frame
                   = repeat zero3 (length (_pieceVelocities this)) /\
                   _timeSec frame = nowSec).
  { unfold frame, _setupFrame. cbn. auto. }
  destruct Hframe as (Fs & Fo & Fv & Ft).
  destruct (stepReassembleAnimation_spec frame state Fs)
    as (this' & Hstep & Hpieces & Hdone & Hrunning).
  - rewrite Fo. exact Hlo.
  - rewrite Fv, repeat_length. exact Hlv.
  - exact Hlo.
  - exact Hdl.
  - exact Hdur.
  - rewrite Ft in Hpieces, Hdone, Hrunning.
    cbn [startTime duration delays startOffsets state] in *.
    exists state, this'. split; [exact Hstate |]. split.
    { cbn [totalDuration state]. apply totalDurationOf_max.
      - lra.
      - exact Hin.
      - exact Hmax. }
    split; [exact Hstep |]. split.
    + intros Hearly. apply Hrunning.
      exists (6 * _reassembleStagger this). split; [exact Hin |].
      unfold total in Hearly. lra.
    + intros Hlate.
      assert (Hall : forall delay,
                In delay (delaysFor (_reassembleStagger this)
                                    (_pieceOffsets this)) ->
                delay + _reassemblePieceDuration this
                <= nowSec - _timeSec this).
      { intros delay Hd. specialize (Hmax delay Hd).
        unfold total in Hlate. lra. }
      destruct (Hdone Hall) as [Hnone Hexp].
      split; [exact Hnone |]. split; [exact Hexp |].
      intros i Hi.
      destruct (nth_error (delaysFor (_reassembleStagger this)
                                     (_pieceOffsets this)) i)
        as [delay |] eqn:Hdelay;
        [| apply nth_error_None in Hdelay; lia].
      destruct (nth_error (_pieceOffsets this) i) as [start |] eqn:Hstart;
        [| apply nth_error_None in Hstart; lia].
      destruct (Hpieces i delay start Hdelay Hstart) as [Ho Hv].
      split; [| exact Hv].
      rewrite Ho. f_equal.
      assert (Hease : _easeInOutCubic
                        ((nowSec - _timeSec this - delay)
                         / _reassemblePieceDuration this) = 1).
      { unfold _easeInOutCubic, Rgeb.
        assert (1 <= (nowSec - _timeSec this - delay)
                     / _reassemblePieceDuration this).
        { apply localT_done; [exact Hdur |].
          apply Hall. eapply nth_error_In. exact Hdelay. }
        case_Rleb ((nowSec - _timeSec this - delay)
                   / _reassemblePieceDuration this) 0 H0; [lra |].
        case_Rleb 1 ((nowSec - _timeSec this - delay)
                     / _reassemblePieceDuration this) H1; [reflexivity | lra]. }
      rewrite Hease. apply scale3_zero.
Qed.

(** X10, instance: a freshly constructed renderer with the default
    settings, and a frame one second after the start. *)
Lemma X10_reassembly_lasts_witness :
  let this := newIntroRenderer defaultSettings [] 0 in
  let total := _reassemblePieceDuration this + 6 * _reassembleStagger this in
  let started := startReassembleAnimation this in
  exists state this',
    _reassembleState started = Some state /\
    totalDuration state = total /\
    _stepReassembleAnimation (_setupFrame 1 started) = Some this' /\
    (1 - _timeSec this < total ->
     _reassembleState this' = Some state) /\
    (total <= 1 - _timeSec this ->
     _reassembleState this' = None /\
     explodeAmount this' = 0 /\
     forall i, (i < length PIECES)%nat ->
       nth_error (_pieceOffsets this') i = Some zero3 /\
       nth_error (_pieceVelocities this') i = Some zero3).
Proof.
  intros this.
  apply (X10_reassembly_lasts_duration_plus_six_staggers this 1).
  - reflexivity.
  - reflexivity.
  - reflexivity.
  - cbn. lra.
  - cbn. lra.
Defined.

(* ================================================================= *)
(** ** Motion and struggle detection *)

Lemma hypot3_nonneg (x y z : R) : 0 <= hypot3 x y z.
Proof. unfold hypot3. apply sqrt_pos. Qed.












(* ================================================================= *)
(** ** The motion integrator and the snap to rest *)

Lemma offsets_velocities_only (t this : IntroRenderer)
  (offsets velocities : list vec3) :
  t = set_pieceOffsets (_pieceOffsets t)
        (set_pieceVelocities (_pieceVelocities t) this) ->
  set_pieceOffsets offsets (set_pieceVelocities velocities t)
  = set_pieceOffsets offsets (set_pieceVelocities velocities this).
Proof. intros E. rewrite E. reflexivity. Qed.

(** The per-piece loop of [_integratePieceMotion]. *)
Lemma integrate_loop (stepDt : R) (this : IntroRenderer) :
  length (_pieceVelocities this) = length (_pieceOffsets this) ->
  exists offsets velocities,
    forIndex (length (_pieceOffsets this))
             (integratePiece stepDt (exp (- _linearDamping this * stepDt)))
             this
    = Some (set_pieceOffsets offsets (set_pieceVelocities velocities this)) /\
    length offsets = length (_pieceOffsets this) /\
    length velocities = length (_pieceOffsets this) /\
    forall i offset velocity,
      nth_error (_pieceOffsets this) i = Some offset ->
      nth_error (_pieceVelocities this) i = Some velocity ->
      if (Z.of_nat i =? draggingPiece this)%Z then
        nth_error offsets i = Some offset /\
        nth_error velocities i = Some velocity
      else
        nth_error offsets i = Some (pulledOffset this stepDt offset velocity) /\
        nth_error velocities i
        = Some (pulledVelocity this stepDt offset velocity).
Proof.
  intros Hlen.
  set (n := length (_pieceOffsets this)).
  set (damping := exp (- _linearDamping this * stepDt)).
  pose (Inv := fun (k : nat) (t : IntroRenderer) =>
    t = set_pieceOffsets (_pieceOffsets t)
          (set_pieceVelocities (_pieceVelocities t) this) /\
    length (_pieceOffsets t) = n /\
    length (_pieceVelocities t) = n /\
    (forall j, (k <= j)%nat ->
       nth_error (_pieceOffsets t) j = nth_error (_pieceOffsets this) j /\
       nth_error (_pieceVelocities t) j
       = nth_error (_pieceVelocities this) j) /\
    (forall i offset velocity, (i < k)%nat ->
       nth_error (_pieceOffsets this) i = Some offset ->
       nth_error (_pieceVelocities this) i = Some velocity ->
       if (Z.of_nat i =? draggingPiece this)%Z then
         nth_error (_pieceOffsets t) i = Some offset /\
         nth_error (_pieceVelocities t) i = Some velocity
       else
         nth_error (_pieceOffsets t) i
         = Some (pulledOffset this stepDt offset velocity) /\
         nth_error (_pieceVelocities t) i
         = Some (pulledVelocity this stepDt offset velocity))).
  destruct (forIndex_invariant (integratePiece stepDt damping) Inv n this)
    as (this' & Hloop & Hsame & Hlo & Hlv & _ & Hdone).
  - unfold Inv. split; [destruct this; reflexivity |].
    split; [reflexivity |]. split; [exact Hlen |].
    split; [intros; split; reflexivity | intros; lia].
  - intros k t Hk (Hsame & Hlo & Hlv & Hrest & Hdone).
    assert (Hd : draggingPiece t = draggingPiece this)
      by (rewrite Hsame; reflexivity).
    assert (Hs : settings t = settings this)
      by (rewrite Hsame; reflexivity).
    unfold integratePiece. rewrite Hd.
    destruct (nth_error_in_range (_pieceOffsets this) k Hk) as (o & Ho).
    destruct (nth_error_in_range (_pieceVelocities this) k ltac:(lia))
      as (v & Hv).
    destruct (Hrest k (Nat.le_refl k)) as [Hok Hvk].
    destruct (Z.of_nat k =? draggingPiece this)%Z eqn:Hdrag.
    + eexists. split; [reflexivity |].
      unfold Inv. split; [exact Hsame |]. split; [exact Hlo |].
      split; [exact Hlv |]. split.
      * intros j Hj. apply Hrest. lia.
      * intros i oi vi Hi Hoi Hvi.
        destruct (Nat.eq_dec i k) as [-> | Hne].
        -- rewrite Hdrag. rewrite Hok, Hvk. split; assumption.
        -- apply Hdone; [lia | assumption | assumption].
    + rewrite Hok, Hvk, Ho, Hv. cbn [bind].
      change (_springStrength t) with (_springStrength (settings t)).
      change (_gravityStrength t) with (_gravityStrength (settings t)).
      rewrite Hs.
      eexists. split; [reflexivity |].
      unfold Inv.
      cbn [putOffset putVelocity _pieceOffsets _pieceVelocities
           set_pieceOffsets set_pieceVelocities].
      split; [apply (offsets_velocities_only _ _ _ _ Hsame) |].
      split; [rewrite length_nset; exact Hlo |].
      split; [rewrite length_nset; exact Hlv |].
      split.
      * intros j Hj. rewrite !nth_error_nset_neq by lia. apply Hrest. lia.
      * intros i oi vi Hi Hoi Hvi.
        destruct (Nat.eq_dec i k) as [-> | Hne].
        -- rewrite Hdrag. rewrite !nth_error_nset_eq by lia.
           assert (oi = o) by congruence. assert (vi = v) by congruence.
           subst oi vi. unfold pulledOffset, pulledVelocity, scale3, add3.
           cbn [c0 c1 c2]. fold damping.
           split; f_equal; f_equal; lra.
        -- rewrite !nth_error_nset_neq by lia.
           apply Hdone; [lia | assumption | assumption].
  - exists (_pieceOffsets this'), (_pieceVelocities this').
    rewrite Hloop. split; [f_equal; exact Hsame |].
    split; [exact Hlo |]. split; [exact Hlv |].
    intros i o v Ho Hv. apply Hdone; try assumption.
    apply nth_error_Some. congruence.
Qed.

Lemma aget_of_nat {A} (arr : list A) (i : nat) :
  aget arr (Z.of_nat i) = nth_error arr i.
Proof.
  unfold aget. destruct (Z.ltb_spec (Z.of_nat i) 0); [lia |].
  rewrite Nat2Z.id. reflexivity.
Qed.

(** X14. [_integratePieceMotion] on a renderer with one velocity per piece
    offset, whose dragged piece (if any) is one of the pieces, returns, and
    writes nothing but the piece offsets, the piece velocities and the drag
    velocity.  The dragged piece keeps its offset and gets the drag
    velocity, itself decayed by [exp (-18 * stepDt)]; every other piece gets
    the velocity and the offset of one spring, gravity and damping slice
    computed from its own old offset and velocity alone. *)
Theorem X14_integrator_moves_free_pieces_only
  (stepDt : R) (this : IntroRenderer) :
  length (_pieceVelocities this) = length (_pieceOffsets this) ->
  (draggingPiece this < Z.of_nat (length (_pieceOffsets this)))%Z ->
  let dragVelocity :=
    if (draggingPiece this >=? 0)%Z
    then scale3 (exp (-18 * stepDt)) (_dragVelocity this)
    else _dragVelocity this in
  exists offsets velocities,
    _integratePieceMotion stepDt this
    = Some (set_dragVelocity dragVelocity
              (set_pieceOffsets offsets
                 (set_pieceVelocities velocities this))) /\
    length offsets = length (_pieceOffsets this) /\
    length velocities = length (_pieceOffsets this) /\
    forall i offset velocity,
      nth_error (_pieceOffsets this) i = Some offset ->
      nth_error (_pieceVelocities this) i = Some velocity ->
      if (Z.of_nat i =? draggingPiece this)%Z then
        nth_error offsets i = Some offset /\
        nth_error velocities i = Some dragVelocity
      else
        nth_error offsets i = Some (pulledOffset this stepDt offset velocity) /\
        nth_error velocities i
        = Some (pulledVelocity this stepDt offset velocity).
Proof.
  intros Hlen Hdrag dragVelocity.
  destruct (integrate_loop stepDt this Hlen)
    as (offsets & velocities & Hloop & Hlo & Hlv & Hpieces).
  unfold _integratePieceMotion. rewrite Hloop. cbn [bind].
  cbn [draggingPiece set_pieceOffsets set_pieceVelocities].
  unfold dragVelocity.
  destruct (draggingPiece this >=? 0)%Z eqn:Hd.
  - cbn [_pieceVelocities _dragVelocity draggingPiece set_dragVelocity
         set_pieceOffsets set_pieceVelocities].
    assert (Hidx : draggingPiece this = Z.of_nat (Z.to_nat (draggingPiece this)))
      by lia.
    set (k := Z.to_nat (draggingPiece this)) in *.
    destruct (nth_error_in_range velocities k ltac:(lia)) as (old & Hold).
    assert (Hget : aget velocities (draggingPiece this) = Some old)
      by (rewrite Hidx, aget_of_nat; exact Hold).
    rewrite Hget. cbn [bind].
    exists offsets,
      (nset velocities k (scale3 (exp (-18 * stepDt)) (_dragVelocity this))).
    split; [reflexivity |]. split; [exact Hlo |].
    split; [rewrite length_nset; exact Hlv |].
    intros i o v Ho Hv. specialize (Hpieces i o v Ho Hv).
    destruct (Z.of_nat i =? draggingPiece this)%Z eqn:Hi.
    + assert (i = k) by lia. subst i.
      split; [apply Hpieces |]. apply nth_error_nset_eq. lia.
    + rewrite nth_error_nset_neq by lia. exact Hpieces.
  - exists offsets, velocities.
    split; [destruct this; reflexivity |]. split; [exact Hlo |].
    split; [exact Hlv |].
    intros i o v Ho Hv. specialize (Hpieces i o v Ho Hv).
    destruct (Z.eqb_spec (Z.of_nat i) (draggingPiece this)) as [Hi | Hi];
      [| exact Hpieces].
    exfalso. destruct (Z.geb_spec (draggingPiece this) 0);
      [discriminate | lia].
Qed.

(** X14, instance: a freshly constructed renderer and a slice of 1/60 s. *)
Lemma X14_integrator_witness :
  let this := newIntroRenderer defaultSettings [] 0 in
  exists offsets velocities,
    _integratePieceMotion (1 / 60) this
    = Some (set_dragVelocity (_dragVelocity this)
              (set_pieceOffsets offsets
                 (set_pieceVelocities velocities this))) /\
    length offsets = length (_pieceOffsets this) /\
    length velocities = length (_pieceOffsets this) /\
    forall i offset velocity,
      nth_error (_pieceOffsets this) i = Some offset ->
      nth_error (_pieceVelocities this) i = Some velocity ->
      if (Z.of_nat i =? draggingPiece this)%Z then
        nth_error offsets i = Some offset /\
        nth_error velocities i = Some (_dragVelocity this)
      else
        nth_error offsets i
        = Some (pulledOffset this (1 / 60) offset velocity) /\
        nth_error velocities i
        = Some (pulledVelocity this (1 / 60) offset velocity).
Proof.
  intros this.
  apply (X14_integrator_moves_free_pieces_only (1 / 60) this).
  - reflexivity.
  - reflexivity.
Defined.

Lemma vec3_eq (a b : vec3) :
  a = b <-> c0 a = c0 b /\ c1 a = c1 b /\ c2 a = c2 b.
Proof.
  split; [intros ->; auto |]. destruct a, b. cbn. intros (-> & -> & ->).
  reflexivity.
Qed.

(** The only state that one slice of the integrator leaves alone is rest at
    the offset where the spring balances gravity. *)
Lemma pulled_fixed_point (this : Settings) (stepDt : R)
  (offset velocity : vec3) :
  _springStrength this <> 0 -> stepDt <> 0 ->
  (pulledOffset this stepDt offset velocity = offset /\
   pulledVelocity this stepDt offset velocity = velocity
   <->
   offset = restOffset this /\ velocity = zero3).
Proof.
  intros Hk Hdt.
  pose proof (exp_pos (- _linearDamping this * stepDt)) as Hdamp.
  unfold pulledOffset, pulledVelocity, restOffset, zero3, add3, scale3.
  set (damping := exp (- _linearDamping this * stepDt)) in *.
  set (k := _springStrength this) in *.
  set (g := _gravityStrength this) in *.
  rewrite !vec3_eq. cbn [c0 c1 c2].
  destruct offset as [x y z], velocity as [vx vy vz]. cbn [c0 c1 c2].
  split.
  - intros ((Hx & Hy & Hz) & (Hvx & Hvy & Hvz)).
    rewrite Hvx in Hx. rewrite Hvy in Hy. rewrite Hvz in Hz.
    assert (vx = 0) by nra. assert (vy = 0) by nra. assert (vz = 0) by nra.
    subst vx vy vz.
    assert (E0 : - x * k * stepDt = 0) by nra.
    assert (E1 : (- y * k - g) * stepDt = 0) by nra.
    assert (E2 : - z * k * stepDt = 0) by nra.
    assert (x * k = 0) by nra. assert (y * k + g = 0) by nra.
    assert (z * k = 0) by nra.
    assert (x = 0) by nra. assert (z = 0) by nra.
    assert (y = - (g / k)) by (field_simplify_eq; [lra | exact Hk]).
    auto.
  - intros ((-> & -> & ->) & (-> & -> & ->)).
    assert (E : - - (g / k) * k - g = 0) by (field; exact Hk).
    rewrite E. repeat split; lra.
Qed.

(** X15. With a non-zero spring strength and a non-zero slice length, a
    piece that is not dragged is left exactly where it is, at the velocity
    it has, by [_integratePieceMotion] if and only if it is at rest at the
    offset [[0, -gravity / spring, 0]]. *)
Theorem X15_pieces_rest_where_spring_balances_gravity
  (stepDt : R) (this : IntroRenderer) (i : nat) (offset velocity : vec3) :
  length (_pieceVelocities this) = length (_pieceOffsets this) ->
  (draggingPiece this < Z.of_nat (length (_pieceOffsets this)))%Z ->
  _springStrength this <> 0 -> stepDt <> 0 ->
  Z.of_nat i <> draggingPiece this ->
  nth_error (_pieceOffsets this) i = Some offset ->
  nth_error (_pieceVelocities this) i = Some velocity ->
  exists this',
    _integratePieceMotion stepDt this = Some this' /\
    (nth_error (_pieceOffsets this') i = Some offset /\
     nth_error (_pieceVelocities this') i = Some velocity
     <->
     offset = restOffset this /\ velocity = zero3).
Proof.
  intros Hlen Hdrag Hk Hdt Hfree Ho Hv.
  destruct (integrate_loop stepDt this Hlen)
    as (offsets & velocities & Hloop & Hlo & Hlv & Hpieces).
  specialize (Hpieces i offset velocity Ho Hv).
  destruct (Z.eqb_spec (Z.of_nat i) (draggingPiece this)); [contradiction |].
  destruct Hpieces as [Hnewo Hnewv].
  unfold _integratePieceMotion. rewrite Hloop. cbn [bind].
  cbn [draggingPiece set_pieceOffsets set_pieceVelocities].
  assert (Hfinal : exists velocities',
    nth_error velocities' i
    = Some (pulledVelocity this stepDt offset velocity) /\
    (if (draggingPiece this >=? 0)%Z
     then
       let this0 :=
         set_dragVelocity
           (scale3 (exp (-18 * stepDt))
              (_dragVelocity
                 (set_pieceOffsets offsets
                    (set_pieceVelocities velocities this))))
           (set_pieceOffsets offsets (set_pieceVelocities velocities this)) in
       _ <- aget (_pieceVelocities this0) (draggingPiece this0) ;;
       Some (putVelocity (Z.to_nat (draggingPiece this0))
               (_dragVelocity this0) this0)
     else Some (set_pieceOffsets offsets
                  (set_pieceVelocities velocities this)))
    = Some (set_dragVelocity
              (if (draggingPiece this >=? 0)%Z
               then scale3 (exp (-18 * stepDt)) (_dragVelocity this)
               else _dragVelocity this)
              (set_pieceOffsets offsets
                 (set_pieceVelocities velocities' this)))).
  { destruct (draggingPiece this >=? 0)%Z eqn:Hd.
    - cbv zeta.
      cbn [_pieceVelocities _dragVelocity draggingPiece set_dragVelocity
           set_pieceOffsets set_pieceVelocities].
      assert (Hidx : draggingPiece this
                     = Z.of_nat (Z.to_nat (draggingPiece this))) by lia.
      set (k := Z.to_nat (draggingPiece this)) in *.
      destruct (nth_error_in_range velocities k ltac:(lia)) as (old & Hold).
      assert (Hget : aget velocities (draggingPiece this) = Some old)
        by (rewrite Hidx, aget_of_nat; exact Hold).
      rewrite Hget. cbn [bind].
      eexists. split; [| reflexivity].
      rewrite nth_error_nset_neq by lia. exact Hnewv.
    - exists velocities. split; [exact Hnewv |].
      destruct this; reflexivity. }
  destruct Hfinal as (velocities' & Hnewv' & Hrun).
  cbv zeta in Hrun. rewrite Hrun. eexists. split; [reflexivity |].
  cbn [_pieceOffsets _pieceVelocities set_dragVelocity set_pieceOffsets
       set_pieceVelocities].
  rewrite Hnewo, Hnewv'.
  rewrite <- (pulled_fixed_point this stepDt offset velocity Hk Hdt).
  split; intros [H1 H2]; split; congruence.
Qed.

(** X15, instance: a freshly constructed renderer (every piece at offset and
    velocity zero, gravity 0.8, spring 20): no piece is at rest. *)
Lemma X15_rest_offset_witness :
  let this := newIntroRenderer defaultSettings [] 0 in
  exists this',
    _integratePieceMotion (1 / 60) this = Some this' /\
    (nth_error (_pieceOffsets this') 0 = Some zero3 /\
     nth_error (_pieceVelocities this') 0 = Some zero3
     <->
     zero3 = restOffset this /\ zero3 = zero3).
Proof.
  intros this.
  apply (X15_pieces_rest_where_spring_balances_gravity
           (1 / 60) this 0 zero3 zero3).
  - reflexivity.
  - reflexivity.
  - cbn. lra.
  - lra.
  - cbn. lia.
  - reflexivity.
  - reflexivity.
Defined.






(* ================================================================= *)
(** ** Picking: the ray against one cube *)

Lemma xmax_above (a : xnum) (r t : R) :
  aboveX (xmax a r) t <-> aboveX a t /\ r <= t.
Proof.
  destruct a as [| x |]; cbn; [tauto | | tauto].
  split.
  - intros H. pose proof (Rmax_l x r). pose proof (Rmax_r x r). lra.
  - intros [H1 H2]. apply Rmax_lub; assumption.
Qed.

Lemma xmin_below (b : xnum) (r t : R) :
  belowX (xmin b r) t <-> belowX b t /\ t <= r.
Proof.
  destruct b as [| x |]; cbn; [tauto | | tauto].
  split.
  - intros H. pose proof (Rmin_l x r). pose proof (Rmin_r x r). lra.
  - intros [H1 H2]. apply Rmin_glb; assumption.
Qed.

Lemma xltb_empty (a b : xnum) :
  a <> PosInf -> b <> NegInf ->
  (xltb b a = true <-> forall t, ~ (aboveX a t /\ belowX b t)).
Proof.
  intros Ha Hb.
  destruct a as [| x |], b as [| y |]; cbn; try contradiction.
  - split; [discriminate |]. intros H. exfalso. apply (H y). split; [exact I | lra].
  - split; [discriminate |]. intros H. exfalso. apply (H 0). split; exact I.
  - rewrite Rltb_true. split.
    + intros Hlt t [H1 H2]. lra.
    + intros H. destruct (Rlt_dec y x) as [|Hn]; [assumption |].
      exfalso. apply (H x). lra.
  - split; [discriminate |]. intros H. exfalso. apply (H x). split; [lra | exact I].
Qed.

(** The two planes of an axis, along a ray that is not parallel to them,
    bound the parameter from both sides. *)
Lemma slab_interval (origin dir min max t : R) :
  dir <> 0 -> min <= max ->
  (Rmin ((min - origin) * (1 / dir)) ((max - origin) * (1 / dir)) <= t /\
   t <= Rmax ((min - origin) * (1 / dir)) ((max - origin) * (1 / dir))
   <-> min <= origin + t * dir <= max).
Proof.
  intros Hd Hord.
  set (t1 := (min - origin) * (1 / dir)).
  set (t2 := (max - origin) * (1 / dir)).
  assert (E1 : t1 * dir = min - origin) by (unfold t1; field; exact Hd).
  assert (E2 : t2 * dir = max - origin) by (unfold t2; field; exact Hd).
  destruct (Rdichotomy _ _ Hd) as [Hneg | Hpos].
  - assert (t2 <= t1) by nra.
    rewrite Rmin_right, Rmax_left by assumption.
    split; intros [H1 H2]; split; nra.
  - assert (t1 <= t2) by nra.
    rewrite Rmin_left, Rmax_right by assumption.
    split; intros [H1 H2]; split; nra.
Qed.

Lemma slabStep_spec (a b : xnum) (axis : R * R * R * R) :
  a <> PosInf -> b <> NegInf -> axisOrdered axis ->
  match slabStep (a, b) axis with
  | Some (a', b') =>
      a' <> PosInf /\ b' <> NegInf /\
      (forall t, aboveX a' t /\ belowX b' t
                 <-> (aboveX a t /\ belowX b t) /\ axisSlab t axis) /\
      (a' = NegInf <-> a = NegInf /\ axisParallel axis) /\
      (b' = PosInf <-> b = PosInf /\ axisParallel axis)
  | None =>
      forall t, ~ ((aboveX a t /\ belowX b t) /\ axisSlab t axis)
  end.
Proof.
  intros Ha Hb Hord. destruct axis as [[[o d] mn] mx].
  unfold slabStep, axisSlab, axisParallel, axisOrdered, inSlab in *.
  case_Rltb (Rabs d) 0.00000001 Hpar.
  - unfold Rgtb.
    case_Rltb o mn Hlow; cbn [orb].
    { intros t [_ [H _]]. specialize (H Hpar). lra. }
    case_Rltb mx o Hhigh.
    { intros t [_ [H _]]. specialize (H Hpar). lra. }
    split; [exact Ha |]. split; [exact Hb |]. split.
    + intros t. split; [| tauto]. intros H. split; [exact H |].
      split; intros; lra.
    + split; tauto.
  - assert (Hd : d <> 0).
    { intros ->. rewrite Rabs_R0 in Hpar. lra. }
    cbv zeta.
    set (near := Rmin ((mn - o) * (1 / d)) ((mx - o) * (1 / d))).
    set (far := Rmax ((mn - o) * (1 / d)) ((mx - o) * (1 / d))).
    assert (Hint : forall t, near <= t /\ t <= far
                             <-> mn <= o + t * d <= mx)
      by (intros t; apply slab_interval; assumption).
    assert (Ha' : xmax a near <> PosInf) by (destruct a; cbn; congruence).
    assert (Hb' : xmin b far <> NegInf) by (destruct b; cbn; congruence).
    assert (Hboth : forall t,
              aboveX (xmax a near) t /\ belowX (xmin b far) t
              <-> (aboveX a t /\ belowX b t) /\
                  ((Rabs d < 0.00000001 -> mn <= o <= mx) /\
                   (0.00000001 <= Rabs d -> mn <= o + t * d <= mx))).
    { intros t. rewrite xmax_above, xmin_below. specialize (Hint t).
      split.
      - intros [[H1 H2] [H3 H4]]. split; [tauto |].
        split; [intros; lra | intros _; apply Hint; tauto].
      - intros [[H1 H2] [_ H3]]. specialize (H3 Hpar).
        apply Hint in H3. tauto. }
    destruct (xltb (xmin b far) (xmax a near)) eqn:Hempty.
    + pose proof (proj1 (xltb_empty _ _ Ha' Hb') Hempty) as Hno.
      intros t H. apply (Hno t). apply Hboth. exact H.
    + split; [exact Ha' |]. split; [exact Hb' |]. split; [exact Hboth |].
      split.
      * split; [destruct a; cbn; discriminate | intros [_ H]; lra].
      * split; [destruct b; cbn; discriminate | intros [_ H]; lra].
Qed.

Lemma slabs_none (axes : list (R * R * R * R)) :
  fold_left (fun acc axis => acc <- acc ;; slabStep acc axis) axes None
  = None.
Proof. induction axes as [| axis rest IH]; [reflexivity | exact IH]. Qed.

Lemma slabs_spec (axes : list (R * R * R * R)) (a b : xnum) :
  a <> PosInf -> b <> NegInf -> Forall axisOrdered axes ->
  match fold_left (fun acc axis => acc <- acc ;; slabStep acc axis)
                  axes (Some (a, b)) with
  | Some (a', b') =>
      a' <> PosInf /\ b' <> NegInf /\
      (forall t, aboveX a' t /\ belowX b' t
                 <-> (aboveX a t /\ belowX b t) /\
                     Forall (axisSlab t) axes) /\
      (a' = NegInf <-> a = NegInf /\ Forall axisParallel axes) /\
      (b' = PosInf <-> b = PosInf /\ Forall axisParallel axes)
  | None =>
      forall t, ~ ((aboveX a t /\ belowX b t) /\ Forall (axisSlab t) axes)
  end.
Proof.
  revert a b. induction axes as [| axis rest IH]; intros a b Ha Hb Hord.
  - cbn. split; [exact Ha |]. split; [exact Hb |]. split.
    + intros t. split; [intros H; split; [exact H | constructor] | tauto].
    + split; split; try tauto; intros H; (split; [exact H | constructor]).
  - apply Forall_cons_iff in Hord as [Hord1 Hord].
    cbn [fold_left bind].
    pose proof (slabStep_spec a b axis Ha Hb Hord1) as Hstep.
    destruct (slabStep (a, b) axis) as [[a1 b1] |].
    + destruct Hstep as (Ha1 & Hb1 & Hint1 & Hneg1 & Hpos1).
      specialize (IH a1 b1 Ha1 Hb1 Hord).
      destruct (fold_left _ rest (Some (a1, b1))) as [[a2 b2] |].
      * destruct IH as (Ha2 & Hb2 & Hint2 & Hneg2 & Hpos2).
        split; [exact Ha2 |]. split; [exact Hb2 |]. split.
        -- intros t. rewrite Hint2, Hint1, Forall_cons_iff. tauto.
        -- rewrite Hneg2, Hneg1, Hpos2, Hpos1, Forall_cons_iff. tauto.
      * intros t [Hab Hall]. apply Forall_cons_iff in Hall as [H1 Hrest].
        apply (IH t). split; [| exact Hrest]. apply Hint1. tauto.
    + rewrite slabs_none. intros t [Hab Hall].
      apply Forall_cons_iff in Hall as [H1 _]. apply (Hstep t). tauto.
Qed.

(** X17. [_rayIntersectCube] for a cube of non-negative half size.  It
    returns [null] exactly when no point of the ray at a parameter [t >= 0]
    is in the cube.  A finite result [t] is the parameter of a point of the
    ray in the cube: the first one, or, when the ray origin itself is in the
    cube, the last one.  The result is never [-Infinity]; it is [Infinity]
    only when all three direction components are below 1e-8 in absolute
    value, the origin being in the cube. *)
Theorem X17_ray_cube_test (rayOrigin rayDir cubeCenter : vec3) (halfSize : R) :
  0 <= halfSize ->
  let hit := rayInCube rayOrigin rayDir cubeCenter halfSize in
  match _rayIntersectCube rayOrigin rayDir cubeCenter halfSize with
  | None => forall t, ~ hit t
  | Some NegInf => False
  | Some (Fin t) =>
      hit t /\
      ((forall t', hit t' -> t <= t') \/
       (hit 0 /\ forall t', hit t' -> t' <= t))
  | Some PosInf =>
      (Rabs (c0 rayDir) < 0.00000001 /\ Rabs (c1 rayDir) < 0.00000001 /\
       Rabs (c2 rayDir) < 0.00000001) /\
      forall t, 0 <= t -> hit t
  end.
Proof.
  intros Hhalf hit. unfold _rayIntersectCube. cbv zeta.
  match goal with
  | |- context [fold_left _ ?l _] => set (axes := l)
  end.
  assert (Hord : Forall axisOrdered axes).
  { unfold axes. rewrite !Forall_cons_iff. cbn [axisOrdered].
    repeat split; try lra. constructor. }
  assert (Hhit : forall t, hit t <-> 0 <= t /\ Forall (axisSlab t) axes).
  { intros t. unfold hit, rayInCube, axes.
    rewrite !Forall_cons_iff. cbn [axisSlab].
    split.
    - intros (H0 & H1 & H2 & H3).
      split; [exact H0 |]. split; [exact H1 |]. split; [exact H2 |].
      split; [exact H3 | constructor].
    - intros (H0 & H1 & H2 & H3 & _).
      split; [exact H0 |]. split; [exact H1 |]. split; [exact H2 | exact H3]. }
  assert (Hpar : Forall axisParallel axes <->
                 Rabs (c0 rayDir) < 0.00000001 /\
                 Rabs (c1 rayDir) < 0.00000001 /\
                 Rabs (c2 rayDir) < 0.00000001).
  { unfold axes. rewrite !Forall_cons_iff. cbn [axisParallel].
    split.
    - intros (H1 & H2 & H3 & _). auto.
    - intros (H1 & H2 & H3).
      split; [exact H1 |]. split; [exact H2 |].
      split; [exact H3 | constructor]. }
  pose proof (slabs_spec axes NegInf PosInf ltac:(discriminate)
                ltac:(discriminate) Hord) as Hslabs.
  destruct (fold_left _ axes (Some (NegInf, PosInf))) as [[tMin tMax] |];
    cbn [bind].
  2: { intros t Ht. apply Hhit in Ht as [_ Hall].
       apply (Hslabs t). cbn. tauto. }
  destruct Hslabs as (Hmin & Hmax & Hint & Hneg & Hpos).
  assert (Hfeasible : forall t, hit t <->
                                0 <= t /\ aboveX tMin t /\ belowX tMax t).
  { intros t. rewrite Hhit, Hint. cbn. tauto. }
  destruct (xltb tMax (Fin 0)) eqn:Hbehind; cbn [orb].
  { intros t Ht. apply Hfeasible in Ht as (H0 & _ & Hb).
    destruct tMax as [| y |]; cbn in *; try discriminate.
    - contradiction.
    - apply Rltb_true in Hbehind. lra. }
  destruct (xltb tMax tMin) eqn:Hempty.
  { pose proof (proj1 (xltb_empty _ _ Hmin Hmax) Hempty) as Hno.
    intros t Ht. apply Hfeasible in Ht as (_ & Hlo & Hhi).
    apply (Hno t). tauto. }
  assert (Hnonempty : forall t, aboveX tMin t -> belowX tMax t -> hit t \/ t < 0).
  { intros t H1 H2. destruct (Rle_dec 0 t); [left | right; lra].
    apply Hfeasible. tauto. }
  destruct (xltb tMin (Fin 0)) eqn:Hinside; cbn [negb].
  - (* the origin is past the entry planes: the exit parameter *)
    assert (Hzero_lo : aboveX tMin 0).
    { destruct tMin as [| x |]; cbn in *; try exact I; try contradiction.
      apply Rltb_true in Hinside. lra. }
    destruct tMax as [| y |]; [contradiction | |].
    + cbn in Hbehind. apply Rltb_false in Hbehind.
      assert (Hy : hit y).
      { apply Hfeasible. split; [lra |]. split; [| cbn; lra].
        destruct tMin as [| x |]; cbn in *; try exact I; try contradiction.
        apply Rltb_false in Hempty. lra. }
      split; [exact Hy |]. right. split.
      * apply Hfeasible. cbn. split; [lra |]. split; [exact Hzero_lo | lra].
      * intros t' Ht'. apply Hfeasible in Ht' as (_ & _ & H). exact H.
    + assert (Hall : Forall axisParallel axes) by (apply Hpos; reflexivity).
      split; [apply Hpar; exact Hall |].
      intros t Ht. apply Hfeasible. split; [exact Ht |].
      split; [| exact I].
      assert (tMin = NegInf) by (apply Hneg; split; [reflexivity | exact Hall]).
      subst tMin. exact I.
  - (* the entry parameter *)
    destruct tMin as [| x |]; [discriminate | | contradiction].
    cbn in Hinside. apply Rltb_false in Hinside.
    assert (Hx : hit x).
    { apply Hfeasible. split; [lra |]. split; [cbn; lra |].
      destruct tMax as [| y |]; cbn in *; try exact I; try contradiction.
      apply Rltb_false in Hempty. lra. }
    split; [exact Hx |]. left.
    intros t' Ht'. apply Hfeasible in Ht' as (_ & H & _). exact H.
Qed.

(** X17, instance: a ray along z from (0, 0, -5) against the unit cube at
    the origin. *)
Lemma X17_ray_cube_witness :
  0 <= 0.5 /\
  let hit := rayInCube (mk3 0 0 (-5)) (mk3 0 0 1) zero3 0.5 in
  match _rayIntersectCube (mk3 0 0 (-5)) (mk3 0 0 1) zero3 0.5 with
  | None => forall t, ~ hit t
  | Some NegInf => False
  | Some (Fin t) =>
      hit t /\
      ((forall t', hit t' -> t <= t') \/
       (hit 0 /\ forall t', hit t' -> t' <= t))
  | Some PosInf =>
      (Rabs (c0 (mk3 0 0 1)) < 0.00000001 /\
       Rabs (c1 (mk3 0 0 1)) < 0.00000001 /\
       Rabs (c2 (mk3 0 0 1)) < 0.00000001) /\
      forall t, 0 <= t -> hit t
  end.
Proof.
  split; [lra |].
  apply (X17_ray_cube_test (mk3 0 0 (-5)) (mk3 0 0 1) zero3 0.5). lra.
Defined.

(* ================================================================= *)
(** ** Picking: the nearest piece under the pointer *)

Lemma slabs_upper_bound (axes : list (R * R * R * R)) (a b a' b' : xnum) :
  b <> NegInf ->
  fold_left (fun acc axis => acc <- acc ;; slabStep acc axis)
            axes (Some (a, b)) = Some (a', b') ->
  b' <> NegInf.
Proof.
  revert a b. induction axes as [| axis rest IH]; intros a b Hb Hrun.
  - cbn in Hrun. congruence.
  - cbn [fold_left bind] in Hrun.
    destruct (slabStep (a, b) axis) as [[a1 b1] |] eqn:Hstep;
      [| rewrite slabs_none in Hrun; discriminate].
    apply (IH a1 b1); [| exact Hrun].
    destruct axis as [[[o d] mn] mx]. unfold slabStep in Hstep.
    destruct (Rltb (Rabs d) 0.00000001).
    + destruct (_ || _); [discriminate |]. congruence.
    + cbv zeta in Hstep. destruct (xltb _ _); [discriminate |].
      injection Hstep as _ <-. destruct b; cbn; congruence.
Qed.

Lemma rayIntersectCube_never_neginf
  (rayOrigin rayDir cubeCenter : vec3) (halfSize : R) :
  _rayIntersectCube rayOrigin rayDir cubeCenter halfSize <> Some NegInf.
Proof.
  unfold _rayIntersectCube. cbv zeta.
  destruct (fold_left _ _ (Some (NegInf, PosInf))) as [[tMin tMax] |] eqn:Hrun;
    cbn [bind]; [| discriminate].
  apply slabs_upper_bound in Hrun; [| discriminate].
  destruct (_ || _); [discriminate |].
  destruct tMin as [| x |]; cbn [xltb negb].
  - congruence.
  - destruct (Rltb x 0); cbn [negb]; congruence.
  - discriminate.
Qed.

Lemma nearestSoFar_ext (test : vec3 -> option xnum)
  (seen seen' : RenderPiece -> vec3 -> Prop) (best : Z * xnum) :
  (forall piece cube, seen piece cube <-> seen' piece cube) ->
  nearestSoFar test seen best -> nearestSoFar test seen' best.
Proof.
  intros Hext [[Hbest Hnone] | (p & c & t & Hseen & Ht & Hbest & Hleast)].
  - left. split; [exact Hbest |]. intros p c t Hs.
    apply (Hnone p c t). apply Hext. exact Hs.
  - right. exists p, c, t. split; [apply Hext; exact Hseen |].
    split; [exact Ht |]. split; [exact Hbest |].
    intros p' c' t' Hs. apply (Hleast p' c' t'). apply Hext. exact Hs.
Qed.

Lemma pickStep_nearest (this : IntroRenderer) (ray : Ray)
  (piece : RenderPiece) (cube : vec3)
  (seen : RenderPiece -> vec3 -> Prop) (best : Z * xnum) :
  let test := fun cube =>
    _rayIntersectCube (origin ray) (direction ray) cube
                      (_cubeSize this * 0.5 + 0.015) in
  nearestSoFar test seen best ->
  nearestSoFar test
    (fun piece' cube' => seen piece' cube' \/ (piece' = piece /\ cube' = cube))
    (pickStep this ray piece best cube).
Proof.
  intros test Hinv. unfold pickStep. destruct best as [bestPiece bestT].
  fold (test cube).
  pose proof (rayIntersectCube_never_neginf (origin ray) (direction ray) cube
                (_cubeSize this * 0.5 + 0.015)) as Hneg.
  fold (test cube) in Hneg.
  destruct (test cube) as [[| t |] |] eqn:Htest.
  - congruence.
  - destruct Hinv as [[Hbest Hnone] | (p & c & t0 & Hseen & Ht0 & Hbest & Hleast)].
    + injection Hbest as -> ->. cbn [xltb].
      right. exists piece, cube, t.
      split; [right; split; reflexivity |]. split; [exact Htest |].
      split; [reflexivity |].
      intros p' c' t' [Hs | [-> ->]] Ht'.
      * exfalso. exact (Hnone p' c' t' Hs Ht').
      * assert (t' = t) by congruence. lra.
    + injection Hbest as -> ->. cbn [xltb].
      case_Rltb t t0 Hlt.
      * right. exists piece, cube, t.
        split; [right; split; reflexivity |]. split; [exact Htest |].
        split; [reflexivity |].
        intros p' c' t' [Hs | [-> ->]] Ht'.
        -- pose proof (Hleast p' c' t' Hs Ht'). lra.
        -- assert (t' = t) by congruence. lra.
      * right. exists p, c, t0.
        split; [left; exact Hseen |]. split; [exact Ht0 |].
        split; [reflexivity |].
        intros p' c' t' [Hs | [-> ->]] Ht'.
        -- exact (Hleast p' c' t' Hs Ht').
        -- assert (t' = t) by congruence. lra.
  - assert (Hsame : (if xltb PosInf bestT then (pieceIndex piece, PosInf)
                     else (bestPiece, bestT)) = (bestPiece, bestT))
      by (destruct bestT; reflexivity).
    rewrite Hsame.
    destruct Hinv as [[Hbest Hnone] | (p & c & t0 & Hseen & Ht0 & Hbest & Hleast)].
    + left. split; [exact Hbest |].
      intros p' c' t' [Hs | [-> ->]]; [exact (Hnone p' c' t' Hs) | congruence].
    + right. exists p, c, t0.
      split; [left; exact Hseen |]. split; [exact Ht0 |].
      split; [exact Hbest |].
      intros p' c' t' [Hs | [-> ->]] Ht'; [| congruence].
      exact (Hleast p' c' t' Hs Ht').
  - destruct Hinv as [[Hbest Hnone] | (p & c & t0 & Hseen & Ht0 & Hbest & Hleast)].
    + left. split; [exact Hbest |].
      intros p' c' t' [Hs | [-> ->]]; [exact (Hnone p' c' t' Hs) | congruence].
    + right. exists p, c, t0.
      split; [left; exact Hseen |]. split; [exact Ht0 |].
      split; [exact Hbest |].
      intros p' c' t' [Hs | [-> ->]] Ht'; [| congruence].
      exact (Hleast p' c' t' Hs Ht').
Qed.

Lemma pick_cubes_nearest (this : IntroRenderer) (ray : Ray)
  (piece : RenderPiece) (cubeList : list vec3)
  (seen : RenderPiece -> vec3 -> Prop) (best : Z * xnum) :
  let test := fun cube =>
    _rayIntersectCube (origin ray) (direction ray) cube
                      (_cubeSize this * 0.5 + 0.015) in
  nearestSoFar test seen best ->
  nearestSoFar test
    (fun piece' cube' =>
       seen piece' cube' \/ (piece' = piece /\ In cube' cubeList))
    (fold_left (pickStep this ray piece) cubeList best).
Proof.
  intros test. revert seen best.
  induction cubeList as [| cube rest IH]; intros seen best Hinv.
  - cbn. eapply nearestSoFar_ext; [| exact Hinv].
    intros p c. cbn. tauto.
  - cbn [fold_left].
    pose proof (pickStep_nearest this ray piece cube seen best Hinv) as Hstep.
    apply IH in Hstep.
    eapply nearestSoFar_ext; [| exact Hstep].
    intros p c. cbn. split.
    + intros [[H | [-> ->]] | [-> H]]; auto.
    + intros [H | [-> [<- | H]]]; auto.
Qed.

Lemma pick_pieces_nearest (this : IntroRenderer) (ray : Ray)
  (pieces : list RenderPiece)
  (seen : RenderPiece -> vec3 -> Prop) (best : Z * xnum) :
  let test := fun cube =>
    _rayIntersectCube (origin ray) (direction ray) cube
                      (_cubeSize this * 0.5 + 0.015) in
  nearestSoFar test seen best ->
  nearestSoFar test
    (fun piece' cube' =>
       seen piece' cube' \/ (In piece' pieces /\ In cube' (cubes piece')))
    (fold_left
       (fun best piece =>
          fold_left (pickStep this ray piece) (cubes piece) best)
       pieces best).
Proof.
  intros test. revert seen best.
  induction pieces as [| piece rest IH]; intros seen best Hinv.
  - cbn. eapply nearestSoFar_ext; [| exact Hinv].
    intros p c. cbn. tauto.
  - cbn [fold_left].
    pose proof (pick_cubes_nearest this ray piece (cubes piece) seen best Hinv)
      as Hstep.
    apply IH in Hstep.
    eapply nearestSoFar_ext; [| exact Hstep].
    intros p c. cbn. split.
    + intros [[H | [-> H]] | [H1 H2]]; auto.
    + intros [H | [[<- | H1] H2]]; auto.
Qed.

(** X18. [_pickPieceAt] returns -1 when the pointer is outside the canvas
    rectangle or no pick ray can be built.  Otherwise, when no cube of any
    render piece is met by the ray at a finite parameter it returns -1, and
    when some cube is, it returns the index of a piece that has a cube met
    at the least finite parameter among all cubes of all pieces. *)
Theorem X18_pick_is_the_nearest_piece
  (rect : Rect)
  (_buildPickRay : IntroRenderer -> R -> R -> R -> R -> option Ray)
  (this : IntroRenderer) (clientX clientY : R) :
  let picked := _pickPieceAt rect _buildPickRay this clientX clientY in
  let localX := clientX - rect_left rect in
  let localY := clientY - rect_top rect in
  let pieces := _getRenderPieces this (solution this) None in
  (localX < 0 \/ rect_width rect < localX \/
   localY < 0 \/ rect_height rect < localY ->
   picked = (-1)%Z) /\
  (_buildPickRay this localX localY (rect_width rect) (rect_height rect)
   = None ->
   picked = (-1)%Z) /\
  (forall ray,
     0 <= localX <= rect_width rect -> 0 <= localY <= rect_height rect ->
     _buildPickRay this localX localY (rect_width rect) (rect_height rect)
     = Some ray ->
     let test := fun cube =>
       _rayIntersectCube (origin ray) (direction ray) cube
                         (_cubeSize this * 0.5 + 0.015) in
     ((forall piece cube t,
         In piece pieces -> In cube (cubes piece) ->
         test cube <> Some (Fin t)) ->
      picked = (-1)%Z) /\
     (forall piece cube t,
        In piece pieces -> In cube (cubes piece) ->
        test cube = Some (Fin t) ->
        exists nearest cube' t',
          In nearest pieces /\ In cube' (cubes nearest) /\
          test cube' = Some (Fin t') /\
          picked = pieceIndex nearest /\
          forall piece'' cube'' t'',
            In piece'' pieces -> In cube'' (cubes piece'') ->
            test cube'' = Some (Fin t'') -> t' <= t'')).
Proof.
  intros picked localX localY pieces.
  unfold picked, _pickPieceAt. fold localX localY. unfold Rgtb.
  split; [| split].
  - intros Hout.
    assert (Hc : Rltb localX 0 || Rltb (rect_width rect) localX
                 || Rltb localY 0 || Rltb (rect_height rect) localY = true).
    { rewrite !orb_true_iff, !Rltb_true. tauto. }
    rewrite Hc. reflexivity.
  - intros Hnone. rewrite Hnone. destruct (_ || _); reflexivity.
  - intros ray Hx Hy Hray.
    pose (test := fun cube : vec3 =>
            _rayIntersectCube (origin ray) (direction ray) cube
                              (_cubeSize this * 0.5 + 0.015)).
    assert (Hc : Rltb localX 0 || Rltb (rect_width rect) localX
                 || Rltb localY 0 || Rltb (rect_height rect) localY = false).
    { rewrite !orb_false_iff, !Rltb_false. repeat split; lra. }
    rewrite Hc, Hray. cbv zeta. fold pieces.
    pose proof (pick_pieces_nearest this ray pieces (fun _ _ => False)
                  ((-1)%Z, PosInf)) as Hnear.
    cbv zeta in Hnear. fold test in Hnear.
    specialize (Hnear ltac:(left; split; [reflexivity | intros; contradiction])).
    destruct Hnear as [[Hbest Hnone] | (p & c & t & Hseen & Ht & Hbest & Hleast)].
    + rewrite Hbest. cbn [fst]. split; [reflexivity |].
      intros piece cube t Hp Hcube Ht. exfalso.
      apply (Hnone piece cube t); [right; split; assumption | exact Ht].
    + rewrite Hbest. cbn [fst].
      destruct Hseen as [[] | [Hp Hcube]].
      split.
      * intros Hnone. exfalso. exact (Hnone p c t Hp Hcube Ht).
      * intros _ _ _ _ _ _. exists p, c, t.
        split; [exact Hp |]. split; [exact Hcube |]. split; [exact Ht |].
        split; [reflexivity |].
        intros p' c' t' Hp' Hc' Ht'. apply (Hleast p' c' t'); [| exact Ht'].
        right. split; assumption.
Qed.

(* ================================================================= *)
(** ** Dragging *)




Lemma aget_some_index {A} (arr : list A) (i : Z) (a : A) :
  aget arr i = Some a ->
  (0 <= i)%Z /\ nth_error arr (Z.to_nat i) = Some a.
Proof.
  unfold aget. destruct (Z.ltb_spec i 0) as [Hneg | Hpos];
    [discriminate |].
  intros Hget. split; [lia | exact Hget].
Qed.



(* ================================================================= *)
(** ** The hold gesture *)



Lemma aget_in_range {A} (arr : list A) (i : Z) :
  (0 <= i < Z.of_nat (length arr))%Z -> exists a, aget arr i = Some a.
Proof.
  intros Hi. unfold aget. destruct (Z.ltb_spec i 0); [lia |].
  apply nth_error_in_range. lia.
Qed.

Lemma PressKind_eqb_refl (kind : PressKind) : PressKind_eqb kind kind = true.
Proof. destruct kind; reflexivity. Qed.



Lemma setReassembleButtonVisible_gesture (visible : bool)
  (this : IntroRenderer) :
  gestureFields (_setReassembleButtonVisible visible this)
  = gestureFields this /\
  motionFields (_setReassembleButtonVisible visible this)
  = motionFields this.
Proof.
  unfold _setReassembleButtonVisible.
  destruct (Bool.eqb (_reassembleButtonVisible this) visible);
    [split; reflexivity |].
  destruct visible; cbn; destruct (_reassembleButton this);
    split; reflexivity.
Qed.

(** [_updateStruggleDetection] returns, and leaves the gesture state and the
    piece arrays alone, when [_lastMotionOffsets] has a slot for every
    piece offset. *)
Lemma updateStruggleDetection_frame (this : IntroRenderer) :
  (length (_pieceOffsets this) <= length (_lastMotionOffsets this))%nat ->
  exists this',
    _updateStruggleDetection this = Some this' /\
    gestureFields this' = gestureFields this /\
    motionFields this' = motionFields this /\
    _reassembleState this' = _reassembleState this /\
    settings this' = settings this /\
    length (_lastMotionOffsets this') = length (_lastMotionOffsets this).
Proof.
  intros Hlen. unfold _updateStruggleDetection.
  destruct (isPageScrolling (camera this)).
  { exists this. repeat split; reflexivity. }
  cbv zeta.
  match goal with
  | |- context [_isAnyPieceMoving ?r] => set (this1 := r)
  end.
  assert (H1 : gestureFields this1 = gestureFields this /\
               motionFields this1 = motionFields this /\
               _reassembleState this1 = _reassembleState this /\
               settings this1 = settings this /\
               _lastMotionOffsets this1 = _lastMotionOffsets this).
  { unfold this1. destruct (Rleb _ _); repeat split; reflexivity. }
  destruct H1 as (Hg1 & Hm1 & Hr1 & Hs1 & Hl1).
  assert (Ho1 : _pieceOffsets this1 = _pieceOffsets this).
  { unfold motionFields in Hm1. congruence. }
  pose proof (isAnyPieceMoving_frame this1) as Hmoving.
  rewrite Ho1, Hl1 in Hmoving.
  destruct (Hmoving Hlen) as (moving & lastOffsets & Hmov).
  assert (Hll : length lastOffsets = length (_lastMotionOffsets this)).
  { clear - Hmov Hl1 Ho1 Hlen. unfold _isAnyPieceMoving in Hmov.
    destruct (draggingPiece this1 >=? 0)%Z.
    { injection Hmov as _ E.
      apply (f_equal _lastMotionOffsets) in E. cbn in E. congruence. }
    destruct (_reassembleState this1).
    { injection Hmov as _ E.
      apply (f_equal _lastMotionOffsets) in E. cbn in E. congruence. }
    pose (Inv := fun (i : nat) (st : R * IntroRenderer) =>
      _pieceOffsets (snd st) = _pieceOffsets this1 /\
      length (_lastMotionOffsets (snd st))
      = length (_lastMotionOffsets this1)).
    destruct (forIndex_invariant movingStep Inv
                (length (_pieceOffsets this1)) (0, this1))
      as ([maxDelta t] & Hloop & _ & Hlt).
    - split; reflexivity.
    - intros i [delta t] Hi [Ho Hl]. cbn [snd] in *.
      unfold movingStep. rewrite Ho.
      destruct (nth_error_in_range (_pieceOffsets this1) i Hi) as (cur & Hc).
      destruct (nth_error_in_range (_lastMotionOffsets t) i
                  ltac:(rewrite Hl, Hl1, <- Ho1 in *; lia)) as (prev & Hp).
      rewrite Hc, Hp. cbn [bind]. eexists. split; [reflexivity |].
      split; cbn; [exact Ho | rewrite length_nset; exact Hl].
    - rewrite Hloop in Hmov. cbn [bind] in Hmov. injection Hmov as _ E.
      apply (f_equal _lastMotionOffsets) in E. cbn in E, Hlt. congruence. }
  rewrite Hmov. cbn [bind].
  match goal with
  | |- context [negb (_reassembleButtonVisible ?r)] => set (this2 := r)
  end.
  assert (H2 : gestureFields this2 = gestureFields this /\
               motionFields this2 = motionFields this /\
               _reassembleState this2 = _reassembleState this /\
               settings this2 = settings this /\
               length (_lastMotionOffsets this2)
               = length (_lastMotionOffsets this)).
  { unfold this2. destruct moving; cbn [_lastMotionOffsets
      set_settledStillTime set_lastMotionOffsets];
      (split; [exact Hg1 |]); (split; [exact Hm1 |]);
      (split; [exact Hr1 |]); (split; [exact Hs1 | exact Hll]). }
  destruct H2 as (Hg2 & Hm2 & Hr2 & Hs2 & Hl2).
  destruct (setReassembleButtonVisible_gesture true this2) as [Gt Mt].
  destruct (setReassembleButtonVisible_gesture false this2) as [Gf Mf].
  destruct (setReassembleButtonVisible_frame true this2)
    as (_ & Rt & _).
  destruct (setReassembleButtonVisible_frame false this2)
    as (_ & Rf & _).
  destruct (setReassembleButtonVisible_keeps true this2) as (St & _).
  destruct (setReassembleButtonVisible_keeps false this2) as (Sf & _).
  assert (Lt : _lastMotionOffsets (_setReassembleButtonVisible true this2)
               = _lastMotionOffsets this2).
  { unfold _setReassembleButtonVisible.
    destruct (Bool.eqb _ _); [reflexivity |].
    cbn. destruct (_reassembleButton this2); reflexivity. }
  assert (Lf : _lastMotionOffsets (_setReassembleButtonVisible false this2)
               = _lastMotionOffsets this2).
  { unfold _setReassembleButtonVisible.
    destruct (Bool.eqb _ _); [reflexivity |].
    cbn. destruct (_reassembleButton this2); reflexivity. }
  repeat match goal with
         | |- context [if ?c then _ else _] => destruct c
         end;
    eexists; (split; [reflexivity |]);
    rewrite ?Gt, ?Mt, ?Gf, ?Mf, ?Rt, ?Rf, ?St, ?Sf, ?Lt, ?Lf;
    (split; [exact Hg2 |]); (split; [exact Hm2 |]);
    (split; [exact Hr2 |]); (split; [exact Hs2 | exact Hl2]).
Qed.

Lemma recordRecoveryAttempt_frame (dragDistance : R) (this : IntroRenderer) :
  (length (_pieceOffsets this) <= length (_lastMotionOffsets this))%nat ->
  exists this',
    _recordRecoveryAttempt dragDistance this = Some this' /\
    gestureFields this' = gestureFields this /\
    motionFields this' = motionFields this /\
    _reassembleState this' = _reassembleState this /\
    settings this' = settings this /\
    length (_lastMotionOffsets this') = length (_lastMotionOffsets this).
Proof.
  intros Hlen. unfold _recordRecoveryAttempt.
  destruct (Rltb dragDistance 10).
  { exists this. repeat split; reflexivity. }
  destruct (isSome (_reassembleState this)).
  { exists this. repeat split; reflexivity. }
  cbv zeta.
  match goal with
  | |- context [_updateStruggleDetection ?r] => set (this1 := r)
  end.
  assert (H1 : gestureFields this1 = gestureFields this /\
               motionFields this1 = motionFields this /\
               _reassembleState this1 = _reassembleState this /\
               settings this1 = settings this /\
               _lastMotionOffsets this1 = _lastMotionOffsets this).
  { unfold this1. destruct (Rgtb _ _); [| destruct (Rleb _ _)];
      repeat split; reflexivity. }
  destruct H1 as (Hg1 & Hm1 & Hr1 & Hs1 & Hl1).
  destruct (updateStruggleDetection_frame this1)
    as (this' & Hrun & Hg & Hm & Hr & Hs & Hl).
  { unfold motionFields in Hm1. rewrite Hl1.
    replace (_pieceOffsets this1) with (_pieceOffsets this) by congruence.
    exact Hlen. }
  exists this'. split; [exact Hrun |].
  repeat split; congruence.
Qed.

(** X21. Releasing the pointer.  A release of another pointer than the one
    of the current press changes nothing.  A release of the pressing
    pointer, on a renderer with a motion slot for every piece offset,
    returns and ends the press: no press state, no dragged or highlighted
    piece, drag velocity zero; the piece offsets are kept.  If the press was
    an active drag (and the dragged piece has a velocity slot), the piece is
    left at velocity zero and the camera input is unlocked; if the press was
    still pending, velocities and camera are untouched. *)
Theorem X21_release_ends_the_press
  (pointer : PressKind) (pointerId : Z) (this : IntroRenderer)
  (state : PressState) :
  _pressState this = Some state ->
  (length (_pieceOffsets this) <= length (_lastMotionOffsets this))%nat ->
  (active state = true ->
   (0 <= ps_pieceIndex state
    < Z.of_nat (length (_pieceVelocities this)))%Z) ->
  (pointer <> kind state \/ pointerId <> id state ->
   _endHold pointer pointerId this = Some this) /\
  exists this',
    _endHold (kind state) (id state) this = Some this' /\
    _pressState this' = None /\
    draggingPiece this' = (-1)%Z /\
    highlightedPiece this' = (-1)%Z /\
    _dragVelocity this' = zero3 /\
    _pieceOffsets this' = _pieceOffsets this /\
    (active state = true ->
     _pieceVelocities this'
     = nset (_pieceVelocities this) (Z.to_nat (ps_pieceIndex state)) zero3 /\
     _inputLocked (camera this') = false) /\
    (active state = false ->
     _pieceVelocities this' = _pieceVelocities this /\
     camera this' = camera this).
Proof.
  intros Hps Hlen Hslot. split.
  - intros Hother. unfold _endHold. rewrite Hps. unfold stateKind, stateId.
    assert (Hc : negb (PressKind_eqb (kind state) pointer)
                 || negb (id state =? pointerId)%Z = true).
    { apply orb_true_iff. destruct Hother as [Hk | Hi].
      - left. destruct (kind state), pointer; try reflexivity;
          exfalso; apply Hk; reflexivity.
      - right. apply negb_true_iff. apply Z.eqb_neq. congruence. }
    rewrite Hc. reflexivity.
  - unfold _endHold. rewrite Hps. unfold stateKind, stateId.
    rewrite PressKind_eqb_refl, Z.eqb_refl. cbn [negb orb]. cbv zeta.
    destruct (active state) eqn:Hactive.
    + cbn [_pieceVelocities set_pressState set_draggingPiece
           set_highlightedPiece set_dragVelocity set_lastDragMoveSec].
      destruct (aget_in_range (_pieceVelocities this) (ps_pieceIndex state)
                  (Hslot eq_refl)) as (velocity & Hvel).
      rewrite Hvel. cbn [bind].
      match goal with
      | |- context [_recordRecoveryAttempt _ ?r] => set (released := r)
      end.
      destruct (recordRecoveryAttempt_frame (dragDistancePx state) released)
        as (this' & Hrun & Hg & Hm & _).
      { exact Hlen. }
      rewrite Hrun. cbn [bind]. eexists. split; [reflexivity |].
      unfold gestureFields, motionFields in Hg, Hm.
      injection Hg as G1 G2 G3 G4 G5 G6 G7. injection Hm as M1 M2.
      cbn [_pressState draggingPiece highlightedPiece _dragVelocity
           _pieceOffsets _pieceVelocities camera set_camera].
      rewrite G1, G2, G3, G6, M1, M2.
      repeat split; try reflexivity; intros; discriminate.
    + eexists. split; [reflexivity |].
      cbn. repeat split; try reflexivity; intros; discriminate.
Qed.

(** X21, instance: a pending press on piece 2 of a fresh renderer. *)
Lemma X21_release_witness :
  let pick := fun (_ : IntroRenderer) (_ _ : R) => 2%Z in
  let this := _beginHold pick mouse 0 10 10
                (newIntroRenderer defaultSettings [] 0) in
  exists state,
    _pressState this = Some state /\
    (touch <> kind state \/ 0%Z <> id state ->
     _endHold touch 0 this = Some this) /\
    exists this',
      _endHold (kind state) (id state) this = Some this' /\
      _pressState this' = None /\
      draggingPiece this' = (-1)%Z /\
      highlightedPiece this' = (-1)%Z /\
      _dragVelocity this' = zero3 /\
      _pieceOffsets this' = _pieceOffsets this /\
      (active state = true ->
       _pieceVelocities this'
       = nset (_pieceVelocities this) (Z.to_nat (ps_pieceIndex state)) zero3 /\
       _inputLocked (camera this') = false) /\
      (active state = false ->
       _pieceVelocities this' = _pieceVelocities this /\
       camera this' = camera this).
Proof.
  intros pick this. eexists. split; [reflexivity |].
  apply (X21_release_ends_the_press touch 0 this).
  - reflexivity.
  - cbn. lia.
  - intros H. discriminate H.
Defined.

(* ================================================================= *)
(** ** A frame returns, and leaves the gesture alone *)





















(* ================================================================= *)
(** ** The gesture state machine *)

















(* ================================================================= *)
(** ** Collisions: what one piece gains the other loses *)








(* ================================================================= *)
(** ** The 24 orientations *)

Ltac each_rotation H :=
  cbn [ROTATIONS In] in H;
  repeat (destruct H as [<- | H]); [.. | contradiction].

Ltac cell_eq :=
  cbn; first [reflexivity | rewrite !pair_equal_spec; lia].

(** Tries [ROTATIONS[k]] as the rotation [h] of a goal
    [exists h, In h ROTATIONS /\ forall x y z, ...]: first at the cell
    (1, 2, 3), then in general. *)
Ltac candidate k :=
  exists (nth k ROTATIONS (fun x y z => (x, y, z)));
  split;
  [ apply nth_In; cbn; lia
  | match goal with
    | |- forall x y z, @?P x y z =>
        assert (P 1%Z 2%Z 3%Z) by (vm_compute; reflexivity)
    end;
    intros x y z; cell_eq ].

Ltac find_rotation :=
  first [ candidate 0%nat | candidate 1%nat | candidate 2%nat
        | candidate 3%nat | candidate 4%nat | candidate 5%nat
        | candidate 6%nat | candidate 7%nat | candidate 8%nat
        | candidate 9%nat | candidate 10%nat | candidate 11%nat
        | candidate 12%nat | candidate 13%nat | candidate 14%nat
        | candidate 15%nat | candidate 16%nat | candidate 17%nat
        | candidate 18%nat | candidate 19%nat | candidate 20%nat
        | candidate 21%nat | candidate 22%nat | candidate 23%nat ].

Lemma rotations_closed (f g : Z -> Z -> Z -> Z * Z * Z) :
  In f ROTATIONS -> In g ROTATIONS ->
  exists h, In h ROTATIONS /\
            forall x y z, h x y z = applyRotation f (g x y z).
Proof.
  intros Hf Hg. each_rotation Hf; each_rotation Hg; find_rotation.
Qed.

Lemma rotations_inverse (f : Z -> Z -> Z -> Z * Z * Z) :
  In f ROTATIONS ->
  exists g, In g ROTATIONS /\
            forall x y z, applyRotation g (f x y z) = (x, y, z).
Proof.
  intros Hf.
  assert (H : exists g, In g ROTATIONS /\
                        forall x y z, (x, y, z) = applyRotation g (f x y z)).
  { each_rotation Hf;
      first [ candidate 0%nat | candidate 1%nat | candidate 2%nat
            | candidate 3%nat | candidate 4%nat | candidate 5%nat
            | candidate 6%nat | candidate 7%nat | candidate 8%nat
            | candidate 9%nat | candidate 10%nat | candidate 11%nat
            | candidate 12%nat | candidate 13%nat | candidate 14%nat
            | candidate 15%nat | candidate 16%nat | candidate 17%nat
            | candidate 18%nat | candidate 19%nat | candidate 20%nat
            | candidate 21%nat | candidate 22%nat | candidate 23%nat ]. }
  destruct H as (g & Hg & Heq). exists g. split; [exact Hg |].
  intros x y z. symmetry. apply Heq.
Qed.

Lemma rotations_images_distinct :
  NoDup (map (fun rotate => rotate 1%Z 2%Z 3%Z) ROTATIONS).
Proof.
  cbn [ROTATIONS map].
  repeat (constructor;
          [ cbn [In]; intros H;
            repeat (destruct H as [H | H]; [discriminate H |]); exact H |]).
  constructor.
Qed.

(** X24. [ROTATIONS] holds the rotation group of the cube: 24 entries, no
    two of them the same map; each keeps dot products and cross products
    (so it is a rotation, not a reflection); the composition of two entries
    is an entry, and so is the inverse of an entry. *)
Theorem X24_rotations_form_the_cube_group :
  length ROTATIONS = 24%nat /\
  (forall i j f g,
     nth_error ROTATIONS i = Some f -> nth_error ROTATIONS j = Some g ->
     (forall x y z, f x y z = g x y z) -> i = j) /\
  (forall f, In f ROTATIONS ->
     forall a b,
       dotZ (applyRotation f a) (applyRotation f b) = dotZ a b /\
       crossZ (applyRotation f a) (applyRotation f b)
       = applyRotation f (crossZ a b)) /\
  (forall f g, In f ROTATIONS -> In g ROTATIONS ->
     exists h, In h ROTATIONS /\
               forall cell, applyRotation h cell
                            = applyRotation f (applyRotation g cell)) /\
  (forall f, In f ROTATIONS ->
     exists g, In g ROTATIONS /\
               forall cell, applyRotation g (applyRotation f cell) = cell).
Proof.
  split; [reflexivity |]. split; [| split; [| split]].
  - intros i j f g Hi Hj Hsame.
    pose proof rotations_images_distinct as Hnd.
    rewrite NoDup_nth_error in Hnd. apply Hnd.
    + rewrite length_map. apply nth_error_Some. congruence.
    + rewrite !nth_error_map, Hi, Hj. cbn [option_map].
      rewrite Hsame. reflexivity.
  - intros f Hf [[ax ay] az] [[bx by'] bz].
    each_rotation Hf;
      (split;
         [cbn; ring | cbn; repeat (apply pair_equal_spec; split); ring]).
  - intros f g Hf Hg.
    destruct (rotations_closed f g Hf Hg) as (h & Hh & Heq).
    exists h. split; [exact Hh |].
    intros [[x y] z]. cbn [applyRotation]. apply Heq.
  - intros f Hf.
    destruct (rotations_inverse f Hf) as (g & Hg & Heq).
    exists g. split; [exact Hg |].
    intros [[x y] z]. cbn [applyRotation]. apply Heq.
Qed.

(** X25. The previous and next buttons keep the current rotation (or
    solution) a valid index: from an index in [0, total) both handlers give
    an index in [0, total), each undoes the other, the last index is
    followed by the first and the first preceded by the last; with 24 for
    the rotations, [ROTATIONS[currentRotation]] is therefore always
    defined. *)
Theorem X25_navigation_wraps_around (totalSolutions current : Z) :
  (0 <= current < totalSolutions)%Z ->
  ((0 <= prevSolution totalSolutions current < totalSolutions)%Z /\
   (0 <= nextSolution totalSolutions current < totalSolutions)%Z /\
   prevSolution totalSolutions (nextSolution totalSolutions current)
   = current /\
   nextSolution totalSolutions (prevSolution totalSolutions current)
   = current /\
   nextSolution totalSolutions (totalSolutions - 1) = 0%Z /\
   prevSolution totalSolutions 0 = (totalSolutions - 1)%Z) /\
  (totalSolutions = 24%Z ->
   prevRotation current = prevSolution 24 current /\
   nextRotation current = nextSolution 24 current /\
   (exists rotate,
      nth_error ROTATIONS (Z.to_nat (prevRotation current)) = Some rotate) /\
   (exists rotate,
      nth_error ROTATIONS (Z.to_nat (nextRotation current)) = Some rotate)).
Proof.
  intros Hrange.
  assert (Hprev : forall c, (0 <= c < totalSolutions)%Z ->
            prevSolution totalSolutions c
            = (if (c =? 0)%Z then totalSolutions - 1 else c - 1)%Z).
  { intros c Hc. unfold prevSolution.
    rewrite Z.rem_mod_nonneg by lia.
    destruct (Z.eqb_spec c 0) as [-> | Hne].
    - rewrite Z.mod_small by lia. lia.
    - replace (c - 1 + totalSolutions)%Z
        with (c - 1 + 1 * totalSolutions)%Z by lia.
      rewrite Z.mod_add by lia. apply Z.mod_small. lia. }
  assert (Hnext : forall c, (0 <= c < totalSolutions)%Z ->
            nextSolution totalSolutions c
            = (if (c =? totalSolutions - 1)%Z then 0 else c + 1)%Z).
  { intros c Hc. unfold nextSolution.
    rewrite Z.rem_mod_nonneg by lia.
    destruct (Z.eqb_spec c (totalSolutions - 1)) as [-> | Hne].
    - replace (totalSolutions - 1 + 1)%Z with (0 + 1 * totalSolutions)%Z
        by lia.
      rewrite Z.mod_add by lia. apply Z.mod_small. lia.
    - apply Z.mod_small. lia. }
  assert (Hp : (0 <= prevSolution totalSolutions current
                < totalSolutions)%Z).
  { rewrite Hprev by exact Hrange. destruct (Z.eqb_spec current 0); lia. }
  assert (Hn : (0 <= nextSolution totalSolutions current
                < totalSolutions)%Z).
  { rewrite Hnext by exact Hrange.
    destruct (Z.eqb_spec current (totalSolutions - 1)); lia. }
  split.
  - split; [exact Hp |]. split; [exact Hn |]. split; [| split; [| split]].
    + rewrite Hprev by exact Hn. rewrite Hnext by exact Hrange.
      destruct (Z.eqb_spec current (totalSolutions - 1)) as [-> | Hne].
      * rewrite Z.eqb_refl. reflexivity.
      * destruct (Z.eqb_spec (current + 1) 0); lia.
    + rewrite Hnext by exact Hp. rewrite Hprev by exact Hrange.
      destruct (Z.eqb_spec current 0) as [-> | Hne].
      * rewrite Z.eqb_refl. reflexivity.
      * destruct (Z.eqb_spec (current - 1) (totalSolutions - 1)); lia.
    + rewrite Hnext by lia. rewrite Z.eqb_refl. reflexivity.
    + rewrite Hprev by lia. reflexivity.
  - intros ->. split; [reflexivity |]. split; [reflexivity |].
    split; apply nth_error_in_range;
      change (length ROTATIONS) with 24%nat;
      [change (prevRotation current) with (prevSolution 24 current)
      | change (nextRotation current) with (nextSolution 24 current)]; lia.
Qed.

(** X25, instance: the first of the 24 rotations. *)
Lemma X25_navigation_witness :
  ((0 <= prevSolution 24 0 < 24)%Z /\
   (0 <= nextSolution 24 0 < 24)%Z /\
   prevSolution 24 (nextSolution 24 0) = 0%Z /\
   nextSolution 24 (prevSolution 24 0) = 0%Z /\
   nextSolution 24 (24 - 1) = 0%Z /\
   prevSolution 24 0 = (24 - 1)%Z) /\
  (24%Z = 24%Z ->
   prevRotation 0 = prevSolution 24 0 /\
   nextRotation 0 = nextSolution 24 0 /\
   (exists rotate,
      nth_error ROTATIONS (Z.to_nat (prevRotation 0)) = Some rotate) /\
   (exists rotate,
      nth_error ROTATIONS (Z.to_nat (nextRotation 0)) = Some rotate)).
Proof.
  apply (X25_navigation_wraps_around 24 0). lia.
Defined.

(* ================================================================= *)
(** ** The backtracking view *)

Lemma generateStates_nth (solution : Solution) (k : nat) :
  (k < length solution)%nat ->
  nth_error (BacktrackRenderer.states (BacktrackRenderer.new solution)) k
  = Some (firstn (k + 1) solution).
Proof.
  intros Hk. unfold BacktrackRenderer.new, BacktrackRenderer._generateStates.
  cbn [BacktrackRenderer.states].
  rewrite nth_error_map, nth_error_seq.
  destruct (Nat.ltb_spec k (length solution)) as [_ | Hge]; [| lia].
  cbn [option_map]. rewrite (Nat.add_comm 1 k). reflexivity.
Qed.

Lemma generateStates_length (solution : Solution) :
  length (BacktrackRenderer.states (BacktrackRenderer.new solution))
  = length solution.
Proof.
  unfold BacktrackRenderer.new, BacktrackRenderer._generateStates.
  cbn [BacktrackRenderer.states]. rewrite length_map. apply length_seq.
Qed.

Lemma clamped_floor_le (s : R) (last : Z) :
  (0 <= last)%Z -> (Zfloor (Rmax 0 (Rmin s (IZR last))) <= last)%Z.
Proof.
  intros Hlen. apply Z.le_trans with (Zfloor (IZR last)).
  - apply Zfloor_le.
    apply Rmax_lub; [apply IZR_le; exact Hlen | apply Rmin_r].
  - rewrite ZfloorZ. lia.
Qed.

(** X26. The backtracking view draws a prefix of the solution.  After
    [setStep(s)] on a fresh renderer, [render] draws the first [k + 1]
    placements, where [k] is the floor of [s] clamped to
    [0 .. solution.length - 1]; it never draws a blank screen for a
    solution that is not empty, draws one placement for [s <= 0] and the
    whole solution for [s >= solution.length - 1]. *)
Theorem X26_backtrack_view_draws_a_prefix (solution : Solution) (s : R) :
  let last := (Z.of_nat (length solution) - 1)%Z in
  let this := BacktrackRenderer.setStep s (BacktrackRenderer.new solution) in
  let k := Zfloor (Rmax 0 (Rmin s (IZR last))) in
  (0 <= k)%Z /\
  BacktrackRenderer.step this = Rmax 0 (Rmin s (IZR last)) /\
  BacktrackRenderer.render this = firstn (Z.to_nat k + 1) solution /\
  (solution <> [] ->
     (k <= last)%Z /\
     BacktrackRenderer.render this <> [] /\
     (s <= 0 -> BacktrackRenderer.render this = firstn 1 solution) /\
     (IZR last <= s -> BacktrackRenderer.render this = solution)).
Proof.
  intros last this k.
  assert (Hmax : BacktrackRenderer.maxSteps (BacktrackRenderer.new solution)
                 = last).
  { unfold BacktrackRenderer.new, BacktrackRenderer._generateStates.
    cbn [BacktrackRenderer.maxSteps].
    rewrite length_map, length_seq. reflexivity. }
  assert (Hstep : BacktrackRenderer.step this = Rmax 0 (Rmin s (IZR last))).
  { unfold this, BacktrackRenderer.setStep. cbn [BacktrackRenderer.step].
    rewrite Hmax. reflexivity. }
  assert (Hstates : BacktrackRenderer.states this
                    = BacktrackRenderer.states
                        (BacktrackRenderer.new solution)) by reflexivity.
  assert (Hk0 : (0 <= k)%Z).
  { unfold k. apply Zfloor_lub. apply Rmax_l. }
  assert (Hrender : BacktrackRenderer.render this
                    = firstn (Z.to_nat k + 1) solution).
  { unfold BacktrackRenderer.render.
    rewrite Hstates, generateStates_length, Hstep. fold last. fold k.
    destruct (Nat.eq_dec (length solution) 0) as [Hzero | Hpos].
    - assert (Hk : k = 0%Z).
      { unfold k, last. rewrite Hzero.
        rewrite Rmax_left; [apply (ZfloorZ 0) |].
        apply Rle_trans with (-1)%R; [apply Rmin_r | lra]. }
      rewrite Hk. unfold last.
      rewrite (proj1 (length_zero_iff_nil solution) Hzero). reflexivity.
    - assert (Hlen : (0 <= last)%Z) by (unfold last; lia).
      assert (Hk1 : (k <= last)%Z).
      { exact (clamped_floor_le s last Hlen). }
      replace (Z.max 0 (Z.min k last)) with (Z.of_nat (Z.to_nat k)) by lia.
      rewrite aget_of_nat, generateStates_nth by (unfold last in Hk1; lia).
      reflexivity. }
  split; [exact Hk0 |]. split; [exact Hstep |]. split; [exact Hrender |].
  intros Hne.
  assert (Hlen : (0 <= last)%Z).
  { unfold last. destruct solution; [contradiction | cbn [length]; lia]. }
  assert (Hk1 : (k <= last)%Z).
  { exact (clamped_floor_le s last Hlen). }
  split; [exact Hk1 |]. split; [| split].
  - rewrite Hrender. destruct solution; [contradiction |].
    rewrite Nat.add_comm. discriminate.
  - intros Hs. rewrite Hrender.
    assert (Hk : k = 0%Z).
    { unfold k. rewrite Rmax_left; [apply (ZfloorZ 0) |].
      apply Rle_trans with s; [apply Rmin_l | exact Hs]. }
    rewrite Hk. reflexivity.
  - intros Hs. rewrite Hrender.
    assert (Hk : k = last).
    { unfold k. rewrite Rmin_right by exact Hs.
      rewrite Rmax_right by (apply IZR_le; exact Hlen). apply ZfloorZ. }
    rewrite Hk. apply firstn_all2. unfold last. lia.
Qed.

(* ================================================================= *)
(** ** The canonical view *)

Lemma rotation_in_range (index : Z) :
  (0 <= index < 24)%Z ->
  exists rotate, aget ROTATIONS index = Some rotate /\ In rotate ROTATIONS.
Proof.
  intros Hindex.
  destruct (aget_in_range ROTATIONS index) as [rotate Hget];
    [change (length ROTATIONS) with 24%nat; lia |].
  exists rotate. split; [exact Hget |].
  apply aget_some_index in Hget. destruct Hget as [_ Hnth].
  exact (nth_error_In _ _ Hnth).
Qed.

Lemma color_in_range (pieceIndex : Z) :
  (0 <= pieceIndex < 7)%Z ->
  exists color, aget PIECE_COLORS pieceIndex = Some color.
Proof.
  intros Hindex. apply aget_in_range.
  change (length PIECE_COLORS) with 7%nat. lia.
Qed.

Lemma forEachDraw_translations {A} (body : A -> option (list Draw))
  (places : A -> list vec3) (xs : list A) :
  (forall x, In x xs ->
     exists draws, body x = Some draws /\
                   map d_translation draws = places x) ->
  exists draws, forEachDraw body xs = Some draws /\
                map d_translation draws = flat_map places xs.
Proof.
  induction xs as [| x rest IH]; intros Hbody.
  - exists []. split; reflexivity.
  - destruct (Hbody x (or_introl eq_refl)) as (first & Hfirst & Hmapf).
    destruct IH as (others & Hothers & Hmapo).
    { intros y Hy. apply Hbody. right. exact Hy. }
    exists (first ++ others). split.
    + cbn [forEachDraw]. rewrite Hfirst, Hothers. reflexivity.
    + rewrite map_app, Hmapf, Hmapo. reflexivity.
Qed.

Lemma flat_map_singletons {A B} (f : A -> B) (xs : list A) :
  flat_map (fun x => [f x]) xs = map f xs.
Proof.
  induction xs as [| x rest IH]; [reflexivity |].
  cbn [flat_map map app]. rewrite IH. reflexivity.
Qed.

Lemma flat_map_map_snd {A B C} (f : B -> C) (xs : list (A * list B)) :
  flat_map (fun x => map f (snd x)) xs = map f (flat_map snd xs).
Proof.
  induction xs as [| x rest IH]; [reflexivity |].
  cbn [flat_map]. rewrite map_app, IH. reflexivity.
Qed.

Lemma renderSolution_translations (solution : Solution) (offsetX : R)
  (reflect : bool) (this : CanonicalRenderer.t)
  (rotate : Z -> Z -> Z -> Z * Z * Z) :
  aget ROTATIONS (CanonicalRenderer.rotationIndex this) = Some rotate ->
  Forall (fun placement => (0 <= fst placement < 7)%Z) solution ->
  exists draws,
    CanonicalRenderer._renderSolution solution offsetX reflect this
    = Some draws /\
    map d_translation draws
    = map (drawnAt rotate offsetX reflect) (cellsOf solution).
Proof.
  intros Hrotate Hcolors. unfold CanonicalRenderer._renderSolution.
  rewrite Hrotate. unfold cellsOf. rewrite <- flat_map_map_snd.
  apply forEachDraw_translations.
  intros [pieceIndex cubes] Hplacement. cbn [snd].
  rewrite Forall_forall in Hcolors.
  destruct (color_in_range pieceIndex (Hcolors _ Hplacement))
    as [color Hget].
  rewrite Hget. rewrite <- flat_map_singletons.
  apply forEachDraw_translations.
  intros [[x y] z] _. cbn [bind]. unfold drawnAt.
  destruct (rotate (if reflect then (- (x - 1))%Z else (x - 1)%Z)
                   (y - 1)%Z (z - 1)%Z) as [[rx ry] rz].
  eexists. split; reflexivity.
Qed.

Lemma rotation_keeps_the_block (rotate : Z -> Z -> Z -> Z * Z * Z)
  (x y z : Z) :
  In rotate ROTATIONS ->
  (-1 <= x <= 1 /\ -1 <= y <= 1 /\ -1 <= z <= 1)%Z ->
  let '(rx, ry, rz) := rotate x y z in
  (-1 <= rx <= 1 /\ -1 <= ry <= 1 /\ -1 <= rz <= 1)%Z.
Proof.
  intros Hin Hcell. each_rotation Hin; cbn; lia.
Qed.

Lemma drawnAt_in_block (rotate : Z -> Z -> Z -> Z * Z * Z) (offsetX : R)
  (reflect : bool) (cell : Cell) :
  In rotate ROTATIONS -> inGrid cell ->
  inBlockAround offsetX (drawnAt rotate offsetX reflect cell).
Proof.
  intros Hin Hcell. destruct cell as [[x y] z]. unfold inGrid in Hcell.
  unfold drawnAt.
  pose proof (rotation_keeps_the_block rotate
                (if reflect then - (x - 1) else x - 1)%Z (y - 1)%Z (z - 1)%Z
                Hin) as Hblock.
  destruct (rotate (if reflect then (- (x - 1))%Z else (x - 1)%Z)
                   (y - 1)%Z (z - 1)%Z) as [[rx ry] rz].
  assert (Hr : (-1 <= rx <= 1 /\ -1 <= ry <= 1 /\ -1 <= rz <= 1)%Z)
    by (apply Hblock; destruct reflect; lia).
  destruct Hr as ((Hx1 & Hx2) & (Hy1 & Hy2) & (Hz1 & Hz2)).
  apply IZR_le in Hx1, Hx2, Hy1, Hy2, Hz1, Hz2.
  unfold inBlockAround. cbn [c0 c1 c2]. repeat split; lra.
Qed.

Lemma drawnAt_injective (rotate : Z -> Z -> Z -> Z * Z * Z) (offsetX : R)
  (reflect : bool) (a b : Cell) :
  In rotate ROTATIONS ->
  drawnAt rotate offsetX reflect a = drawnAt rotate offsetX reflect b ->
  a = b.
Proof.
  intros Hin Hsame.
  destruct (rotations_inverse rotate Hin) as (back & _ & Hback).
  destruct a as [[ax ay] az], b as [[bx by'] bz]. unfold drawnAt in Hsame.
  pose proof (Hback (if reflect then - (ax - 1) else ax - 1)%Z
                    (ay - 1)%Z (az - 1)%Z) as Ha.
  pose proof (Hback (if reflect then - (bx - 1) else bx - 1)%Z
                    (by' - 1)%Z (bz - 1)%Z) as Hb.
  destruct (rotate (if reflect then (- (ax - 1))%Z else (ax - 1)%Z)
                   (ay - 1)%Z (az - 1)%Z) as [[rx ry] rz].
  destruct (rotate (if reflect then (- (bx - 1))%Z else (bx - 1)%Z)
                   (by' - 1)%Z (bz - 1)%Z) as [[sx sy] sz].
  injection Hsame as Hx Hy Hz.
  assert (Hx' : rx = sx) by (apply eq_IZR; lra).
  apply eq_IZR in Hy, Hz. subst sx sy sz.
  rewrite Ha in Hb. injection Hb as Hbx Hby Hbz.
  apply pair_equal_spec. split; [apply pair_equal_spec; split |];
    destruct reflect; lia.
Qed.

Lemma drawable_cells (solution : Solution) :
  drawable solution ->
  Forall (fun placement => (0 <= fst placement < 7)%Z) solution /\
  Forall inGrid (cellsOf solution).
Proof.
  intros Hdraw. split.
  - eapply Forall_impl; [| exact Hdraw]. intros placement [H _]. exact H.
  - unfold cellsOf. apply Forall_flat_map.
    eapply Forall_impl; [| exact Hdraw]. intros placement [_ H]. exact H.
Qed.

(** X27. The canonical view draws the solution and its mirror image side
    by side.  For a rotation index in [0, 24) and a solution whose pieces
    have a colour and lie in the 3 x 3 x 3 grid, [render] returns; it draws
    every cell twice; the cubes of the first copy stay in the block around
    x = -2.5 and those of the mirror image in the block around x = 2.5,
    whatever the rotation; and cells that differ are drawn at places that
    differ. *)
Theorem X27_canonical_view_draws_two_blocks (solution : Solution)
  (this : CanonicalRenderer.t) :
  (0 <= CanonicalRenderer.rotationIndex this < 24)%Z ->
  drawable solution ->
  exists left right,
    CanonicalRenderer.render solution this = Some (left ++ right) /\
    length left = length (cellsOf solution) /\
    length right = length (cellsOf solution) /\
    Forall (inBlockAround (-2.5)) (map d_translation left) /\
    Forall (inBlockAround 2.5) (map d_translation right) /\
    (NoDup (cellsOf solution) ->
     NoDup (map d_translation (left ++ right))).
Proof.
  intros Hindex Hdraw.
  destruct (rotation_in_range _ Hindex) as (rotate & Hget & Hin).
  destruct (drawable_cells solution Hdraw) as [Hcolors Hcells].
  destruct (renderSolution_translations solution (-2.5) false this rotate
              Hget Hcolors) as (left & Hleft & Hmapl).
  destruct (renderSolution_translations solution 2.5 true this rotate
              Hget Hcolors) as (right & Hright & Hmapr).
  assert (Hblockl : Forall (inBlockAround (-2.5)) (map d_translation left)).
  { rewrite Hmapl. apply Forall_map.
    eapply Forall_impl; [| exact Hcells].
    intros cell Hcell. apply drawnAt_in_block; assumption. }
  assert (Hblockr : Forall (inBlockAround 2.5) (map d_translation right)).
  { rewrite Hmapr. apply Forall_map.
    eapply Forall_impl; [| exact Hcells].
    intros cell Hcell. apply drawnAt_in_block; assumption. }
  exists left, right.
  split; [unfold CanonicalRenderer.render; rewrite Hleft, Hright;
          reflexivity |].
  split; [rewrite <- (length_map d_translation), Hmapl; apply length_map |].
  split; [rewrite <- (length_map d_translation), Hmapr; apply length_map |].
  split; [exact Hblockl |]. split; [exact Hblockr |].
  intros Hnodup. rewrite map_app. apply NoDup_app.
  - rewrite Hmapl. apply NoDup_map_NoDup_ForallPairs; [| exact Hnodup].
    intros a b _ _. apply drawnAt_injective. exact Hin.
  - rewrite Hmapr. apply NoDup_map_NoDup_ForallPairs; [| exact Hnodup].
    intros a b _ _. apply drawnAt_injective. exact Hin.
  - intros place Hl Hr.
    rewrite Forall_forall in Hblockl, Hblockr.
    destruct (Hblockl place Hl) as [[_ Hupper] _].
    destruct (Hblockr place Hr) as [[Hlower _] _]. lra.
Qed.

(** X27, instance: the fourth rotation of two placed pieces. *)
Lemma X27_canonical_view_witness :
  exists left right,
    CanonicalRenderer.render
      [(0%Z, [(0, 0, 0)%Z; (1, 0, 0)%Z]); (3%Z, [(2, 2, 2)%Z])]
      (CanonicalRenderer.setRotation 3 CanonicalRenderer.new)
    = Some (left ++ right) /\
    length left
    = length (cellsOf
                [(0%Z, [(0, 0, 0)%Z; (1, 0, 0)%Z]); (3%Z, [(2, 2, 2)%Z])]) /\
    length right
    = length (cellsOf
                [(0%Z, [(0, 0, 0)%Z; (1, 0, 0)%Z]); (3%Z, [(2, 2, 2)%Z])]) /\
    Forall (inBlockAround (-2.5)) (map d_translation left) /\
    Forall (inBlockAround 2.5) (map d_translation right) /\
    (NoDup (cellsOf
              [(0%Z, [(0, 0, 0)%Z; (1, 0, 0)%Z]); (3%Z, [(2, 2, 2)%Z])]) ->
     NoDup (map d_translation (left ++ right))).
Proof.
  apply (X27_canonical_view_draws_two_blocks
           [(0%Z, [(0, 0, 0)%Z; (1, 0, 0)%Z]); (3%Z, [(2, 2, 2)%Z])]
           (CanonicalRenderer.setRotation 3 CanonicalRenderer.new)).
  - cbn. lia.
  - unfold drawable. repeat constructor; cbn; lia.
Defined.

(* ================================================================= *)
(** ** The rotations view *)

Lemma fold_xmin_fin (l : list R) : forall a,
  exists m, fold_left xmin l (Fin a) = Fin m /\ m <= a /\
            Forall (fun r => m <= r) l /\ (m = a \/ In m l).
Proof.
  induction l as [| r l IH]; intros a.
  - exists a. split; [reflexivity |]. split; [lra |].
    split; [constructor | left; reflexivity].
  - destruct (IH (Rmin a r)) as (m & Hfold & Hle & Hall & Hin).
    exists m. split; [exact Hfold |].
    pose proof (Rmin_l a r) as Hl. pose proof (Rmin_r a r) as Hr.
    split; [lra |]. split; [constructor; [lra | exact Hall] |].
    destruct Hin as [Hm | Hin]; [| right; right; exact Hin].
    rewrite Hm. unfold Rmin. destruct (Rle_dec a r);
      [left; reflexivity | right; left; reflexivity].
Qed.

Lemma fold_xmax_fin (l : list R) : forall a,
  exists m, fold_left xmax l (Fin a) = Fin m /\ a <= m /\
            Forall (fun r => r <= m) l /\ (m = a \/ In m l).
Proof.
  induction l as [| r l IH]; intros a.
  - exists a. split; [reflexivity |]. split; [lra |].
    split; [constructor | left; reflexivity].
  - destruct (IH (Rmax a r)) as (m & Hfold & Hle & Hall & Hin).
    exists m. split; [exact Hfold |].
    pose proof (Rmax_l a r) as Hl. pose proof (Rmax_r a r) as Hr.
    split; [lra |]. split; [constructor; [lra | exact Hall] |].
    destruct Hin as [Hm | Hin]; [| right; right; exact Hin].
    rewrite Hm. unfold Rmax. destruct (Rle_dec a r);
      [right; left; reflexivity | left; reflexivity].
Qed.

(** The extent of a list with an entry: both accumulators end finite, at
    the least and at the greatest entry. *)
Lemma fold_extent (l : list R) :
  l <> [] ->
  exists mn mx,
    fold_left xmin l PosInf = Fin mn /\ fold_left xmax l NegInf = Fin mx /\
    Forall (fun r => mn <= r <= mx) l /\ In mn l /\ In mx l.
Proof.
  destruct l as [| r l]; [contradiction |]. intros _.
  destruct (fold_xmin_fin l r) as (mn & Hmin & Hmn & Hallmn & Hinmn).
  destruct (fold_xmax_fin l r) as (mx & Hmax & Hmx & Hallmx & Hinmx).
  exists mn, mx. split; [exact Hmin |]. split; [exact Hmax |].
  split; [| split].
  - constructor; [lra |].
    rewrite Forall_forall in *. intros x Hx.
    split; [apply Hallmn | apply Hallmx]; exact Hx.
  - destruct Hinmn as [-> | Hin]; [left; reflexivity | right; exact Hin].
  - destruct Hinmx as [-> | Hin]; [left; reflexivity | right; exact Hin].
Qed.

Lemma extentStep_axes (cells : list Cell) : forall acc,
  let acc' := fold_left RotationsRenderer.extentStep cells acc in
  minX acc'
  = fold_left xmin (map (fun c => IZR (fst (fst c))) cells) (minX acc) /\
  maxX acc'
  = fold_left xmax (map (fun c => IZR (fst (fst c))) cells) (maxX acc) /\
  minY acc'
  = fold_left xmin (map (fun c => IZR (snd (fst c))) cells) (minY acc) /\
  maxY acc'
  = fold_left xmax (map (fun c => IZR (snd (fst c))) cells) (maxY acc) /\
  minZ acc'
  = fold_left xmin (map (fun c => IZR (snd c)) cells) (minZ acc) /\
  maxZ acc'
  = fold_left xmax (map (fun c => IZR (snd c)) cells) (maxZ acc).
Proof.
  induction cells as [| [[x y] z] cells IH]; intros acc.
  - repeat split; reflexivity.
  - exact (IH (RotationsRenderer.extentStep acc (x, y, z))).
Qed.

Lemma rotatePiece_defined (rotate : Z -> Z -> Z -> Z * Z * Z)
  (piece : list Cell) :
  RotationsRenderer.rotatePiece (Some rotate) piece
  = Some (map (applyRotation rotate) piece).
Proof.
  induction piece as [| [[x y] z] rest IH]; [reflexivity |].
  cbn [RotationsRenderer.rotatePiece bind]. rewrite IH. reflexivity.
Qed.

Lemma balanced_axis (axis : vec3 -> R) (coord : Cell -> R)
  (place : Cell -> vec3) (cells : list Cell) (mn mx : R) :
  (forall cell, axis (place cell) = coord cell - (mn + mx) / 2) ->
  Forall (fun r => mn <= r <= mx) (map coord cells) ->
  In mn (map coord cells) -> In mx (map coord cells) ->
  balanced axis (map place cells).
Proof.
  intros Haxis Hall Hmn Hmx. exists ((mx - mn) / 2).
  rewrite Forall_map in Hall. rewrite Forall_forall in Hall.
  apply in_map_iff in Hmn, Hmx.
  destruct Hmn as (least & Hleast & Hinl).
  destruct Hmx as (most & Hmost & Hinm).
  pose proof (Hall least Hinl) as Hbound.
  split; [lra |]. split; [| split].
  - apply Forall_map. apply Forall_forall. intros cell Hcell.
    rewrite Haxis. pose proof (Hall cell Hcell). lra.
  - rewrite map_map. apply in_map_iff. exists least.
    split; [rewrite Haxis; lra | exact Hinl].
  - rewrite map_map. apply in_map_iff. exists most.
    split; [rewrite Haxis; lra | exact Hinm].
Qed.

Lemma pieces_have_a_cell (piece : list Cell) :
  In piece PIECES -> piece <> [].
Proof.
  intros Hin. cbn [PIECES In] in Hin.
  repeat (destruct Hin as [<- | Hin]; [discriminate |]). contradiction.
Qed.

(** X28. The rotations view draws the piece rotated and centred.  For a
    rotation index in [0, 24) and a piece index in [0, 7), [render]
    returns; it draws every cell of the piece once, at its image under
    [ROTATIONS[rotationIndex]] moved by one common centre; and along each
    of the three axes the drawn cubes reach as far on one side of the
    origin as on the other. *)
Theorem X28_rotations_view_centres_the_piece (this : RotationsRenderer.t) :
  (0 <= RotationsRenderer.rotationIndex this < 24)%Z ->
  (0 <= RotationsRenderer.pieceIndex this < 7)%Z ->
  exists rotate piece draws cx cy cz,
    aget ROTATIONS (RotationsRenderer.rotationIndex this) = Some rotate /\
    aget PIECES (RotationsRenderer.pieceIndex this) = Some piece /\
    RotationsRenderer.render this = Some draws /\
    map d_translation draws = map (rotatedAbout rotate cx cy cz) piece /\
    balanced c0 (map d_translation draws) /\
    balanced c1 (map d_translation draws) /\
    balanced c2 (map d_translation draws).
Proof.
  intros Hrotation Hpiece.
  destruct (rotation_in_range _ Hrotation) as (rotate & Hrotate & _).
  destruct (aget_in_range PIECES (RotationsRenderer.pieceIndex this))
    as [piece Hget]; [change (length PIECES) with 7%nat; lia |].
  destruct (color_in_range _ Hpiece) as [color Hcolor].
  assert (Hcell : piece <> []).
  { apply pieces_have_a_cell.
    destruct (aget_some_index _ _ _ Hget) as [_ Hnth].
    exact (nth_error_In _ _ Hnth). }
  set (rotated := map (applyRotation rotate) piece).
  assert (Hrotated : forall coord : Cell -> R, map coord rotated <> []).
  { intros coord Hnil. apply map_eq_nil in Hnil. apply map_eq_nil in Hnil.
    exact (Hcell Hnil). }
  destruct (fold_extent _ (Hrotated (fun c => IZR (fst (fst c)))))
    as (mnX & mxX & HminX & HmaxX & HallX & HinmnX & HinmxX).
  destruct (fold_extent _ (Hrotated (fun c => IZR (snd (fst c)))))
    as (mnY & mxY & HminY & HmaxY & HallY & HinmnY & HinmxY).
  destruct (fold_extent _ (Hrotated (fun c => IZR (snd c))))
    as (mnZ & mxZ & HminZ & HmaxZ & HallZ & HinmnZ & HinmxZ).
  destruct (extentStep_axes rotated boxAcc0)
    as (HaX & HbX & HaY & HbY & HaZ & HbZ).
  pose proof (eq_trans HaX HminX) as HfinaX.
  pose proof (eq_trans HbX HmaxX) as HfinbX.
  pose proof (eq_trans HaY HminY) as HfinaY.
  pose proof (eq_trans HbY HmaxY) as HfinbY.
  pose proof (eq_trans HaZ HminZ) as HfinaZ.
  pose proof (eq_trans HbZ HmaxZ) as HfinbZ.
  set (cx := (mnX + mxX) / 2). set (cy := (mnY + mxY) / 2).
  set (cz := (mnZ + mxZ) / 2).
  assert (Hdraws : exists draws,
            RotationsRenderer.render this = Some draws /\
            map d_translation draws
            = map (rotatedAbout rotate cx cy cz) piece).
  { unfold RotationsRenderer.render.
    rewrite Hget, Hrotate, Hcolor. cbn [bind].
    rewrite rotatePiece_defined. cbn [bind]. fold rotated.
    rewrite HfinaX, HfinbX, HfinaY, HfinbY, HfinaZ, HfinbZ.
    cbn [RotationsRenderer.midpoint]. fold cx cy cz.
    replace (map (rotatedAbout rotate cx cy cz) piece)
      with (flat_map
              (fun cell : Cell =>
                 [mk3 (IZR (fst (fst cell)) - cx) (IZR (snd (fst cell)) - cy)
                      (IZR (snd cell) - cz)]) rotated).
    - apply forEachDraw_translations.
      intros [[x y] z] _. eexists. split; reflexivity.
    - rewrite flat_map_singletons. unfold rotated. rewrite map_map.
      apply map_ext. intros cell. unfold rotatedAbout.
      destruct (applyRotation rotate cell) as [[x y] z]. reflexivity. }
  destruct Hdraws as (draws & Hrender & Hmap).
  assert (Hplaces : map d_translation draws
                    = map (fun cell : Cell =>
                             mk3 (IZR (fst (fst cell)) - cx)
                                 (IZR (snd (fst cell)) - cy)
                                 (IZR (snd cell) - cz)) rotated).
  { rewrite Hmap. unfold rotated. rewrite map_map.
    apply map_ext. intros cell. unfold rotatedAbout.
    destruct (applyRotation rotate cell) as [[x y] z]. reflexivity. }
  exists rotate, piece, draws, cx, cy, cz.
  split; [exact Hrotate |]. split; [exact Hget |].
  split; [exact Hrender |]. split; [exact Hmap |].
  rewrite Hplaces. split; [| split].
  - apply (balanced_axis c0 (fun c => IZR (fst (fst c))) _ rotated mnX mxX);
      [intros cell; reflexivity | assumption ..].
  - apply (balanced_axis c1 (fun c => IZR (snd (fst c))) _ rotated mnY mxY);
      [intros cell; reflexivity | assumption ..].
  - apply (balanced_axis c2 (fun c => IZR (snd c)) _ rotated mnZ mxZ);
      [intros cell; reflexivity | assumption ..].
Qed.

(** X28, instance: the L-shaped piece in the second rotation. *)
Lemma X28_rotations_view_witness :
  exists rotate piece draws cx cy cz,
    aget ROTATIONS
         (RotationsRenderer.rotationIndex
            (RotationsRenderer.setRotation 1 RotationsRenderer.new))
    = Some rotate /\
    aget PIECES
         (RotationsRenderer.pieceIndex
            (RotationsRenderer.setRotation 1 RotationsRenderer.new))
    = Some piece /\
    RotationsRenderer.render
      (RotationsRenderer.setRotation 1 RotationsRenderer.new)
    = Some draws /\
    map d_translation draws = map (rotatedAbout rotate cx cy cz) piece /\
    balanced c0 (map d_translation draws) /\
    balanced c1 (map d_translation draws) /\
    balanced c2 (map d_translation draws).
Proof.
  apply (X28_rotations_view_centres_the_piece
           (RotationsRenderer.setRotation 1 RotationsRenderer.new));
    cbn; lia.
Defined.
